(** * Resilient JSON recovery: [robustParseJSON] of src/services/geminiService.ts

    The development embeds the recovery parser of the Gemini service and the
    two ECMAScript built-ins it calls, [String.prototype.trim] and
    [JSON.parse], and states the properties of the specification over them.

    ECMAScript strings are sequences of 16-bit code units; they are modelled
    as lists of code units, a code unit being a number in [N]. *)

From Stdlib Require Import String Ascii List NArith ZArith Bool Arith Lia.
Import ListNotations.

Set Warnings "-register-all".

(** ** Strings of code units *)

Module JSString.

Definition char := N.
Definition jsstring := list char.

(** Structural characters, by code unit. *)
Definition dquote : char := 34%N.
Definition backslash : char := 92%N.
Definition lbrace : char := 123%N.
Definition rbrace : char := 125%N.
Definition lbracket : char := 91%N.
Definition rbracket : char := 93%N.
Definition comma : char := 44%N.
Definition colon : char := 58%N.

(** Literals of this file are written with an apostrophe wherever the
    script has a double quote: [js "{'a': 1}"] is the text
    [{ dquote a dquote : 1 }]. *)
Definition of_ascii (a : ascii) : char :=
  let c := N_of_ascii a in
  if N.eqb c 39 then dquote else c.

Definition js (s : string) : jsstring :=
  List.map of_ascii (list_ascii_of_string s).

(** WhiteSpace and LineTerminator code points of ECMA-262 (all of them in
    the basic plane), the ones [String.prototype.trim] strips. *)
Definition is_white_space (c : char) : bool :=
  (N.leb 9 c && N.leb c 13)
  || N.eqb c 32 || N.eqb c 160 || N.eqb c 5760
  || (N.leb 8192 c && N.leb c 8202)
  || N.eqb c 8232 || N.eqb c 8233 || N.eqb c 8239 || N.eqb c 8287
  || N.eqb c 12288 || N.eqb c 65279.

Fixpoint trimStart (s : jsstring) : jsstring :=
  match s with
  | c :: r => if is_white_space c then trimStart r else s
  | [] => []
  end.

Definition trimEnd (s : jsstring) : jsstring :=
  rev (trimStart (rev s)).

(** [text.trim()] *)
Definition trim (s : jsstring) : jsstring := trimEnd (trimStart s).

End JSString.

Import JSString.

(** ** The built-in [JSON.parse] (ECMA-262, JSON.parse; grammar of ECMA-404) *)

Module Json.

(** A number literal denotes [(-1)^neg * mantissa * 10^exponent]; the
    Number value the script sees is that rational rounded to binary64.
    The rounding is a function of the three fields, [to_binary64] below:
    two literals are the same Number when they round to the same
    binary64. *)
Record number := Number { neg : bool; mantissa : N; exponent : Z }.

(** JSON values.  An object is the list of its properties in enumeration
    order. The same type serves for the literal as written, whose objects
    list their members in order of appearance, repetitions included. *)
Inductive value :=
| JNull
| JBool (b : bool)
| JNumber (n : number)
| JString (s : jsstring)
| JArray (elements : list value)
| JObject (properties : list (jsstring * value)).

Inductive exception :=
| SyntaxError
| Error (message : string).

(** Completion of a call: a returned value or a thrown exception. *)
Inductive completion (A : Type) :=
| Return (a : A)
| Throw (e : exception).
Arguments Return {A} a.
Arguments Throw {A} e.

(** *** Lexical level *)

Definition is_json_ws (c : char) : bool :=
  N.eqb c 9 || N.eqb c 10 || N.eqb c 13 || N.eqb c 32.

Fixpoint skip_ws (s : jsstring) : jsstring :=
  match s with
  | c :: r => if is_json_ws c then skip_ws r else s
  | [] => []
  end.

Definition is_digit (c : char) : bool := N.leb 48 c && N.leb c 57.

Definition hex_value (c : char) : option N :=
  if is_digit c then Some (c - 48)%N
  else if N.leb 97 c && N.leb c 102 then Some (c - 87)%N
  else if N.leb 65 c && N.leb c 70 then Some (c - 55)%N
  else None.

Definition hex4 (a b c d : char) : option char :=
  match hex_value a, hex_value b, hex_value c, hex_value d with
  | Some x, Some y, Some z, Some w => Some (((x * 16 + y) * 16 + z) * 16 + w)%N
  | _, _, _, _ => None
  end.

(** The character denoted by a one-letter escape. *)
Definition unescape (c : char) : option char :=
  if N.eqb c dquote then Some dquote
  else if N.eqb c backslash then Some backslash
  else if N.eqb c 47 then Some 47%N
  else if N.eqb c 98 then Some 8%N
  else if N.eqb c 102 then Some 12%N
  else if N.eqb c 110 then Some 10%N
  else if N.eqb c 114 then Some 13%N
  else if N.eqb c 116 then Some 9%N
  else None.

(** Body of a string literal, after its opening quote: the characters up
    to the closing quote ([acc] holds them in reverse) and the rest. *)
Fixpoint parse_chars (s : jsstring) (acc : jsstring) : option (jsstring * jsstring) :=
  match s with
  | [] => None
  | c :: r =>
      if N.eqb c dquote then Some (rev acc, r)
      else if N.eqb c backslash then
        match r with
        | [] => None
        | e :: r1 =>
            if N.eqb e 117 then
              match r1 with
              | h1 :: h2 :: h3 :: h4 :: r2 =>
                  match hex4 h1 h2 h3 h4 with
                  | Some u => parse_chars r2 (u :: acc)
                  | None => None
                  end
              | _ => None
              end
            else
              match unescape e with
              | Some u => parse_chars r1 (u :: acc)
              | None => None
              end
        end
      else if N.ltb c 32 then None
      else parse_chars r (c :: acc)
  end.

(** Leading decimal digits of [s]: their value on top of [acc], how many
    there are on top of [n], and the rest. *)
Fixpoint digits (s : jsstring) (acc : N) (n : nat) : N * nat * jsstring :=
  match s with
  | c :: r => if is_digit c then digits r (acc * 10 + (c - 48))%N (S n) else (acc, n, s)
  | [] => (acc, n, [])
  end.

(** Optional fraction: extends the mantissa and counts the digits. *)
Definition parse_fraction (m : N) (s : jsstring) : option (N * nat * jsstring) :=
  match s with
  | c :: r =>
      if N.eqb c 46 then
        match digits r m 0 with
        | (_, O, _) => None
        | (m', S k, r') => Some (m', S k, r')
        end
      else Some (m, O, s)
  | [] => Some (m, O, [])
  end.

(** Optional exponent part. *)
Definition parse_exponent (s : jsstring) : option (Z * jsstring) :=
  match s with
  | c :: r =>
      if N.eqb c 101 || N.eqb c 69 then
        let '(sign, r1) :=
          match r with
          | d :: r' => if N.eqb d 45 then (true, r')
                       else if N.eqb d 43 then (false, r') else (false, r)
          | [] => (false, r)
          end in
        match digits r1 0 0 with
        | (_, O, _) => None
        | (e, S _, r2) => Some (if sign then (- Z.of_N e)%Z else Z.of_N e, r2)
        end
      else Some (0%Z, s)
  | [] => Some (0%Z, [])
  end.

(** Integer part: a single [0], or a non-zero digit and more digits. *)
Definition parse_int (s : jsstring) : option (N * jsstring) :=
  match s with
  | c :: r =>
      if N.eqb c 48 then Some (0%N, r)
      else if is_digit c then
        let '(m, _, r') := digits s 0 0 in Some (m, r')
      else None
  | [] => None
  end.

Definition parse_number (s : jsstring) : option (number * jsstring) :=
  let '(sign, s1) :=
    match s with
    | c :: r => if N.eqb c 45 then (true, r) else (false, s)
    | [] => (false, s)
    end in
  match parse_int s1 with
  | None => None
  | Some (i, s2) =>
      match parse_fraction i s2 with
      | None => None
      | Some (m, k, s3) =>
          match parse_exponent s3 with
          | None => None
          | Some (e, s4) => Some (Number sign m (e - Z.of_nat k), s4)
          end
      end
  end.

(** [expect w s]: [s] without its prefix [w], when it has it. *)
Fixpoint expect (w s : jsstring) : option jsstring :=
  match w, s with
  | [], _ => Some s
  | a :: w', b :: s' => if N.eqb a b then expect w' s' else None
  | _ :: _, [] => None
  end.

(** *** Syntactic level *)

(** Result of a parsing function that recurses on [fuel]. *)
Inductive parsed :=
| Ok (v : value) (rest : jsstring)
| Bad
| OutOfFuel.

(** [parse_value] reads one value at the head of [s] (white space already
    skipped); [parse_elements] the elements of an array after its first
    bracket, [parse_members] the members of an object after its first
    brace, both gathering what they read in [acc], in reverse. *)
Fixpoint parse_value (fuel : nat) (s : jsstring) : parsed :=
  match fuel with
  | O => OutOfFuel
  | S fuel =>
      match s with
      | [] => Bad
      | c :: r =>
          if N.eqb c lbrace then
            match skip_ws r with
            | [] => Bad
            | c' :: r' =>
                if N.eqb c' rbrace then Ok (JObject []) r'
                else parse_members fuel [] (c' :: r')
            end
          else if N.eqb c lbracket then
            match skip_ws r with
            | [] => Bad
            | c' :: r' =>
                if N.eqb c' rbracket then Ok (JArray []) r'
                else parse_elements fuel [] (c' :: r')
            end
          else if N.eqb c dquote then
            match parse_chars r [] with
            | Some (str, r') => Ok (JString str) r'
            | None => Bad
            end
          else if N.eqb c 116 then
            match expect (js "true") s with
            | Some r' => Ok (JBool true) r'
            | None => Bad
            end
          else if N.eqb c 102 then
            match expect (js "false") s with
            | Some r' => Ok (JBool false) r'
            | None => Bad
            end
          else if N.eqb c 110 then
            match expect (js "null") s with
            | Some r' => Ok JNull r'
            | None => Bad
            end
          else
            match parse_number s with
            | Some (n, r') => Ok (JNumber n) r'
            | None => Bad
            end
      end
  end
with parse_elements (fuel : nat) (acc : list value) (s : jsstring) : parsed :=
  match fuel with
  | O => OutOfFuel
  | S fuel =>
      match parse_value fuel s with
      | Ok v r =>
          match skip_ws r with
          | [] => Bad
          | c :: r' =>
              if N.eqb c comma then parse_elements fuel (v :: acc) (skip_ws r')
              else if N.eqb c rbracket then Ok (JArray (rev (v :: acc))) r'
              else Bad
          end
      | Bad => Bad
      | OutOfFuel => OutOfFuel
      end
  end
with parse_members (fuel : nat) (acc : list (jsstring * value)) (s : jsstring) : parsed :=
  match fuel with
  | O => OutOfFuel
  | S fuel =>
      match s with
      | [] => Bad
      | q :: r =>
          if N.eqb q dquote then
            match parse_chars r [] with
            | None => Bad
            | Some (k, r1) =>
                match skip_ws r1 with
                | [] => Bad
                | c1 :: r2 =>
                    if N.eqb c1 colon then
                      match parse_value fuel (skip_ws r2) with
                      | Ok v r3 =>
                          match skip_ws r3 with
                          | [] => Bad
                          | c3 :: r4 =>
                              if N.eqb c3 comma
                              then parse_members fuel ((k, v) :: acc) (skip_ws r4)
                              else if N.eqb c3 rbrace
                              then Ok (JObject (rev ((k, v) :: acc))) r4
                              else Bad
                          end
                      | Bad => Bad
                      | OutOfFuel => OutOfFuel
                      end
                    else Bad
                end
            end
          else Bad
      end
  end.

(** The literal a whole text denotes, as written: one value between
    optional white space.  Every recursive call of the three functions
    above follows at least one consumed character, so twice the length of
    the text is fuel enough (see [parse_text_fuel]). *)
Definition parse_text (text : jsstring) : option value :=
  match parse_value (2 * length text + 1) (skip_ws text) with
  | Ok v r => match skip_ws r with [] => Some v | _ :: _ => None end
  | Bad => None
  | OutOfFuel => None
  end.

(** *** Evaluation of the literal into script values *)

Fixpoint string_eqb (a b : jsstring) : bool :=
  match a, b with
  | [], [] => true
  | x :: a', y :: b' => N.eqb x y && string_eqb a' b'
  | _, _ => false
  end.

(** A property key that is an array index: the canonical decimal form of
    an integer below 2^32 - 1. *)
Definition array_index (k : jsstring) : option N :=
  match k with
  | [] => None
  | c :: r =>
      if N.eqb c 48 then match r with [] => Some 0%N | _ :: _ => None end
      else
        match digits k 0 0 with
        | (n, _, []) => if N.ltb n 4294967295 then Some n else None
        | (_, _, _ :: _) => None
        end
  end.

Fixpoint has_key (k : jsstring) (props : list (jsstring * value)) : bool :=
  match props with
  | [] => false
  | (k', _) :: rest => string_eqb k k' || has_key k rest
  end.

Fixpoint set_value (k : jsstring) (v : value) (props : list (jsstring * value)) :=
  match props with
  | [] => []
  | (k', v') :: rest =>
      if string_eqb k k' then (k', v) :: rest else (k', v') :: set_value k v rest
  end.

Fixpoint insert_index (i : N) (k : jsstring) (v : value) (props : list (jsstring * value)) :=
  match props with
  | [] => [(k, v)]
  | (k', v') :: rest =>
      match array_index k' with
      | Some j => if N.ltb j i then (k', v') :: insert_index i k v rest
                  else (k, v) :: props
      | None => (k, v) :: props
      end
  end.

(** CreateDataProperty on an ordinary object, whose own keys enumerate as
    the array indices in ascending order, then the other strings in order
    of creation: an existing key keeps its place and takes the new value. *)
Definition CreateDataProperty (props : list (jsstring * value)) (k : jsstring) (v : value) :=
  if has_key k props then set_value k v props
  else
    match array_index k with
    | Some i => insert_index i k v props
    | None => props ++ [(k, v)]
    end.

(** The script value of a literal: elements in order, members defined one
    after the other in order of appearance. *)
Fixpoint evaluate (v : value) : value :=
  match v with
  | JArray l => JArray (List.map evaluate l)
  | JObject ms =>
      JObject (fold_left
                 (fun props m => CreateDataProperty props (fst m) (evaluate (snd m)))
                 ms [])
  | _ => v
  end.

(** [JSON.parse(text)], without reviver.  The limit an engine puts on the
    depth of nesting is not part of the model. *)
Definition JSON_parse (text : jsstring) : completion value :=
  match parse_text text with
  | Some v => Return (evaluate v)
  | None => Throw SyntaxError
  end.

End Json.

Import Json.

(** ** src/services/geminiService.ts *)

Module GeminiService.

(** Calls of [console.warn] and [console.error], with the exception they
    are handed. *)
Inductive console_event :=
| console_warn (message : string) (e : exception)
| console_error (message : string) (e : exception).

(** What a call leaves behind: the console lines and its completion. *)
Record run := { console : list console_event; outcome : completion value }.

(** Number of matches of the double quote in [fixedText]: the length of
    the array [match] returns, or of the empty array when it returns
    [null]. *)
Definition quoteCount (fixedText : jsstring) : nat :=
  List.length (filter (N.eqb dquote) fixedText).

(** Recovery Step 1: Handle unterminated strings *)
Definition recoveryStep1 (trimmed : jsstring) : jsstring :=
  let fixedText := trimmed in
  if negb (quoteCount fixedText mod 2 =? 0) then fixedText ++ [dquote] else fixedText.

(** The array used as a stack: [push] adds at the end, [stack[stack.length - 1]]
    is the last element, [pop] removes and returns it. *)
Definition push (stack : list char) (c : char) : list char := stack ++ [c].

Definition top (stack : list char) : option char :=
  nth_error stack (List.length stack - 1).

Definition pop (stack : list char) : option char * list char :=
  (top stack, removelast stack).

Record scan_state := { stack : list char; inString : bool; escaped : bool }.

Definition scan_init : scan_state :=
  {| stack := []; inString := false; escaped := false |}.

(** Body of the [for] loop, on the character [char = fixedText[i]]. *)
Definition scan_char (st : scan_state) (char : char) : scan_state :=
  let inString1 :=
    if N.eqb char dquote && negb (escaped st) then negb (inString st)
    else inString st in
  if inString1 then
    {| stack := stack st;
       inString := inString1;
       escaped := N.eqb char backslash && negb (escaped st) |}
  else
    let stack1 :=
      if N.eqb char lbrace then push (stack st) rbrace
      else if N.eqb char lbracket then push (stack st) rbracket
      else if N.eqb char rbrace || N.eqb char rbracket then
        if (0 <? List.length (stack st))
           && match top (stack st) with Some t => N.eqb t char | None => false end
        then snd (pop (stack st))
        else stack st
      else stack st in
    {| stack := stack1; inString := inString1; escaped := escaped st |}.

(** The [for] loop over [fixedText], from the state [st]. *)
Definition scan_from (st : scan_state) (fixedText : jsstring) : scan_state :=
  fold_left scan_char fixedText st.

Definition scan (fixedText : jsstring) : scan_state := scan_from scan_init fixedText.

(** What [+=] appends for a popped element; popping an empty array gives
    [undefined]. *)
Definition popped_text (popped : option char) : jsstring :=
  match popped with
  | Some c => [c]
  | None => js "undefined"
  end.

(** [while (stack.length > 0) fixedText += stack.pop()]; every turn
    shortens the stack, [n] bounds the number of turns. *)
Fixpoint closeAll (n : nat) (stack : list char) (fixedText : jsstring) : jsstring :=
  match n with
  | O => fixedText
  | S n' =>
      if 0 <? List.length stack then
        let (popped, stack') := pop stack in
        closeAll n' stack' (fixedText ++ popped_text popped)
      else fixedText
  end.

(** Recovery Step 2: Close unclosed objects/arrays using a stack *)
Definition recoveryStep2 (fixedText : jsstring) : jsstring :=
  let st := scan fixedText in
  closeAll (List.length (stack st)) (stack st) fixedText.

(** The text handed to the final [JSON.parse]. *)
Definition repaired (trimmed : jsstring) : jsstring :=
  recoveryStep2 (recoveryStep1 trimmed).

Definition recovery_warning : string :=
  "Standard JSON parse failed, attempting recovery...".

Definition recovery_failure : string :=
  "Recovery failed, throwing error".

Definition malformed_message : string :=
  "AI response was malformed or truncated due to its length. Please try a more specific query or fewer URLs.".

(** The only error the function throws. *)
Definition MalformedOutput : exception := Error malformed_message.

Definition robustParseJSON (text : jsstring) : run :=
  let trimmed := trim text in
  match JSON_parse trimmed with
  | Return v => {| console := []; outcome := Return v |}
  | Throw e =>
      let fixedText := repaired trimmed in
      match JSON_parse fixedText with
      | Return v =>
          {| console := [console_warn recovery_warning e]; outcome := Return v |}
      | Throw finalError =>
          {| console := [console_warn recovery_warning e;
                         console_error recovery_failure finalError];
             outcome := Throw MalformedOutput |}
      end
  end.

End GeminiService.

Import GeminiService.

(** ** Notions of the statements *)

(** [p] starts [s]; [p] starts [s] and [s] is longer. *)
Definition prefix (p s : jsstring) : Prop := exists suffix, s = p ++ suffix.

Definition strict_prefix (p s : jsstring) : Prop :=
  exists c suffix, s = p ++ c :: suffix.

(** The scan is outside of any string, no escape pending. *)
Definition neutral (st : scan_state) : Prop :=
  inString st = false /\ escaped st = false.

(** From whatever neutral state the scan starts on [s], it reaches [r],
    the rest of [s], in a neutral state. *)
Definition crosses (s r : jsstring) : Prop :=
  forall st, neutral st ->
    exists st', neutral st' /\ scan_from st s = scan_from st' r.

Definition is_closer (c : char) : Prop := c = rbrace \/ c = rbracket.

Definition is_opener (c : char) : Prop := c = lbrace \/ c = lbracket.

(** The closer the scan pushes for an opening brace or bracket. *)
Definition closer_of (c : char) : char :=
  if N.eqb c lbrace then rbrace else rbracket.

(** The text whose parse [robustParseJSON] returns: the trimmed text when
    it parses, the repaired text otherwise. *)
Definition parsed_text (text : jsstring) : jsstring :=
  match JSON_parse (trim text) with
  | Return _ => trim text
  | Throw _ => repaired (trim text)
  end.

(** No key of [ks] occurs twice. *)
Fixpoint distinct (ks : list jsstring) : bool :=
  match ks with
  | [] => true
  | k :: r => negb (existsb (fun k' => string_eqb k' k) r) && distinct r
  end.

Definition no_index (ks : list jsstring) : bool :=
  forallb (fun k => match array_index k with Some _ => false | None => true end) ks.

(** In every object of the literal, at any depth, the keys are pairwise
    distinct and none is an array index. *)
Fixpoint plain_keys (v : value) : bool :=
  match v with
  | JArray l => forallb plain_keys l
  | JObject ms =>
      distinct (List.map fst ms) && no_index (List.map fst ms)
      && forallb (fun m => plain_keys (snd m)) ms
  | _ => true
  end.

(** The structure [robustParseJSON text] returns lists keys and elements
    as the text that was parsed has them, in that order. *)
Definition mirrors_input (text : jsstring) : Prop :=
  forall lit v,
    parse_text (parsed_text text) = Some lit ->
    outcome (robustParseJSON text) = Return v ->
    v = lit.

(** Induction on values that reaches the elements of arrays and the
    members of objects. *)
Section ValueInduction.

Variable P : value -> Prop.
Hypothesis Pnull : P JNull.
Hypothesis Pbool : forall b, P (JBool b).
Hypothesis Pnumber : forall n, P (JNumber n).
Hypothesis Pstring : forall s, P (JString s).
Hypothesis Parray : forall l, Forall P l -> P (JArray l).
Hypothesis Pobject : forall ms, Forall (fun m => P (snd m)) ms -> P (JObject ms).

Fixpoint value_nested_ind (v : value) : P v :=
  match v with
  | JNull => Pnull
  | JBool b => Pbool b
  | JNumber n => Pnumber n
  | JString s => Pstring s
  | JArray l =>
      Parray l
        ((fix all (l : list value) : Forall P l :=
            match l with
            | [] => Forall_nil P
            | x :: r => Forall_cons x (value_nested_ind x) (all r)
            end) l)
  | JObject ms =>
      Pobject ms
        ((fix all (ms : list (jsstring * value)) : Forall (fun m => P (snd m)) ms :=
            match ms with
            | [] => Forall_nil _
            | m :: r => Forall_cons m (value_nested_ind (snd m)) (all r)
            end) ms)
  end.

End ValueInduction.

(** ** Further notions: the scan of accepted texts *)

(** The scan outside of any string, with [stk] as its stack. *)
Definition open_state (stk : list char) : scan_state :=
  {| stack := stk; inString := false; escaped := false |}.

(** A character that is neither a quote nor a brace nor a bracket. *)
Definition plain (c : char) : bool :=
  negb (N.eqb c dquote || N.eqb c lbrace || N.eqb c lbracket
        || N.eqb c rbrace || N.eqb c rbracket).

(** The scan reads [s] down to its rest [r] and is back outside of any
    string with the stack it started with. *)
Definition steady (s r : jsstring) : Prop :=
  forall stk, scan_from (open_state stk) s = scan_from (open_state stk) r.

(** Empty arrays, [S n] of them, one inside the other. *)
Fixpoint nested_arrays (n : nat) : value :=
  match n with
  | O => JArray []
  | S k => JArray [nested_arrays k]
  end.

(** ** src/services/geminiService.ts: [analyzeTopic] *)

Module Analyze.

(** What [analyzeTopic] reads of the response of [generateContent]; a
    field that may be [undefined] is an option. *)
Record Web := { uri : option jsstring; title : option jsstring }.
Record GroundingChunk := { web : option Web }.
Record GroundingMetadata := { groundingChunks : option (list GroundingChunk) }.
Record Candidate := { groundingMetadata : option GroundingMetadata }.
Record GenerateContentResponse :=
  { text : option jsstring; candidates : option (list Candidate) }.

Inductive OutputFormat := detailed | bulleted | summary.

Definition formatInstructions (format : OutputFormat) : jsstring :=
  match format with
  | detailed => js "Provide exhaustive analysis with comprehensive excerpts for every theme and confusion point. Ensure excerpts capture the full nuance of the explanation."
  | bulleted => js "Keep themes extremely punchy. Use short bullet-style descriptions and clean, singular excerpts per theme."
  | summary => js "Prioritize a high-level executive summary. Aggregate minor points into broader professional categories with professional grammar."
  end.

(** [s.startsWith(w)] *)
Definition startsWith (s w : jsstring) : bool :=
  match expect w s with Some _ => true | None => false end.

Definition isHandle (input : jsstring) : bool := startsWith (trim input) (js "@").

Definition userPrompt (input : jsstring) : jsstring :=
  if isHandle input
  then js "Perform a deep research analysis on transcripts from handle: " ++ input
       ++ js ". Surface their recurring patterns, unique vocabulary, and consistent audience warnings."
  else js "Execute analytical aggregation for topic: " ++ input
       ++ js ". Cross-reference multiple creators to extract consensus, pinpoint confusion spikes, and map out expert disagreements.".

(** The [contents] of the request: the prompt, a space, a line feed, four
    spaces and the format requirement.  The rest of the request (model,
    system instruction, response schema) is constant and left out. *)
Definition contents (input : jsstring) (format : OutputFormat) : jsstring :=
  userPrompt input ++ [32; 10; 32; 32; 32; 32]%N
  ++ js "FORMAT REQUIREMENT: " ++ formatInstructions format.

(** [x || d] on a string that may be undefined: the empty string is falsy. *)
Definition or_else (x : option jsstring) (d : jsstring) : jsstring :=
  match x with
  | Some (c :: r) => c :: r
  | Some [] => d
  | None => d
  end.

(** [response.candidates?.[0]?.groundingMetadata?.groundingChunks] *)
Definition chunks_of (response : GenerateContentResponse) : option (list GroundingChunk) :=
  match candidates response with
  | None => None
  | Some cs =>
      match nth_error cs 0 with
      | None => None
      | Some c =>
          match groundingMetadata c with
          | None => None
          | Some gm => groundingChunks gm
          end
      end
  end.

(** The object [{ uri, title }] made of a chunk, as the pair of its fields. *)
Definition source_of_chunk (chunk : GroundingChunk) : jsstring * jsstring :=
  (or_else (match web chunk with Some w => uri w | None => None end) [],
   or_else (match web chunk with Some w => title w | None => None end)
           (js "Research Source")).

Definition is_empty (s : jsstring) : bool :=
  match s with [] => true | _ :: _ => false end.

(** [sources]: the chunks mapped, those with an empty [uri] filtered out;
    the empty array when the chain of [?.] gives [undefined]. *)
Definition sources (response : GenerateContentResponse) : list (jsstring * jsstring) :=
  match chunks_of response with
  | Some chunks =>
      filter (fun s => negb (is_empty (fst s))) (List.map source_of_chunk chunks)
  | None => []
  end.

Definition source_value (s : jsstring * jsstring) : value :=
  JObject [(js "uri", JString (fst s)); (js "title", JString (snd s))].

Definition sources_value (response : GenerateContentResponse) : value :=
  JArray (List.map source_value (sources response)).

(** Decimal digits of an index, as a property key. *)
Fixpoint uint_chars (d : Decimal.uint) : jsstring :=
  match d with
  | Decimal.Nil => []
  | Decimal.D0 d => 48%N :: uint_chars d
  | Decimal.D1 d => 49%N :: uint_chars d
  | Decimal.D2 d => 50%N :: uint_chars d
  | Decimal.D3 d => 51%N :: uint_chars d
  | Decimal.D4 d => 52%N :: uint_chars d
  | Decimal.D5 d => 53%N :: uint_chars d
  | Decimal.D6 d => 54%N :: uint_chars d
  | Decimal.D7 d => 55%N :: uint_chars d
  | Decimal.D8 d => 56%N :: uint_chars d
  | Decimal.D9 d => 57%N :: uint_chars d
  end.

Definition index_key (i : nat) : jsstring := uint_chars (Nat.to_uint i).

Fixpoint indexed (i : nat) (l : list value) : list (jsstring * value) :=
  match l with
  | [] => []
  | v :: r => (index_key i, v) :: indexed (S i) r
  end.

(** The own enumerable properties an object spread copies: those of an
    object, the elements of an array, the code units of a string, and
    nothing of a number, a boolean or [null]. *)
Definition own_enumerable (v : value) : list (jsstring * value) :=
  match v with
  | JObject props => props
  | JArray l => indexed 0 l
  | JString s => indexed 0 (List.map (fun c => JString [c]) s)
  | _ => []
  end.

(** [{ ...parsed, sources }] as the list of its properties. *)
Definition spread_with_sources (parsed : value) (srcs : value) : list (jsstring * value) :=
  CreateDataProperty
    (fold_left (fun props m => CreateDataProperty props (fst m) (snd m))
               (own_enumerable parsed) [])
    (js "sources") srcs.

Definition empty_report : exception :=
  Error "The research agent returned an empty report.".

(** [analyzeTopic] from the response on. *)
Definition analyzeTopic_response (response : GenerateContentResponse) : run :=
  match text response with
  | None => {| console := []; outcome := Throw empty_report |}
  | Some [] => {| console := []; outcome := Throw empty_report |}
  | Some rawText =>
      let r := robustParseJSON rawText in
      match outcome r with
      | Throw e => {| console := console r; outcome := Throw e |}
      | Return parsed =>
          {| console := console r;
             outcome := Return (JObject (spread_with_sources parsed (sources_value response))) |}
      end
  end.

(** [analyzeTopic], the call of the model being the function
    [generateContent] from the contents of a request to its completion. *)
Definition analyzeTopic
    (generateContent : jsstring -> completion GenerateContentResponse)
    (input : jsstring) (format : OutputFormat) : run :=
  match generateContent (contents input format) with
  | Throw e => {| console := []; outcome := Throw e |}
  | Return response => analyzeTopic_response response
  end.

End Analyze.

(** [obj[k]] on the own properties of an object. *)
Fixpoint get (props : list (jsstring * value)) (k : jsstring) : option value :=
  match props with
  | [] => None
  | (k', v) :: rest => if string_eqb k k' then Some v else get rest k
  end.

(** ** The application component (src/unnamed/part_000) *)

Module App.

(** [s.split(sep)] for a separator of one character; [cur] holds the
    current part in reverse. *)
Fixpoint split_from (sep : char) (cur : jsstring) (s : jsstring) : list jsstring :=
  match s with
  | [] => [rev cur]
  | c :: r =>
      if N.eqb c sep then rev cur :: split_from sep [] r
      else split_from sep (c :: cur) r
  end.

Definition split (s : jsstring) (sep : char) : list jsstring := split_from sep [] s.

(** [s.includes(sub)] *)
Fixpoint includes (s sub : jsstring) : bool :=
  Analyze.startsWith s sub
  || match s with
     | [] => false
     | _ :: r => includes r sub
     end.

(** Line terminators, which the dot of a regular expression refuses. *)
Definition is_line_terminator (c : char) : bool :=
  N.eqb c 10 || N.eqb c 13 || N.eqb c 8232 || N.eqb c 8233.

(** [.+$]: one character or more up to the end, none a line terminator. *)
Definition dot_plus_end (s : jsstring) : bool :=
  negb (Analyze.is_empty s) && forallb (fun c => negb (is_line_terminator c)) s.

(** The word [w], then what [k] accepts. *)
Definition strip (w : string) (s : jsstring) (k : jsstring -> bool) : bool :=
  match expect (js w) s with
  | Some r => k r
  | None => false
  end.

(** The group [(w)?], then what [k] accepts. *)
Definition optional (w : string) (s : jsstring) (k : jsstring -> bool) : bool :=
  strip w s k || k s.

(** [YT_URL_REGEX.test(p)], the expression being
    [^(https?:\/\/)?(www\.)?(youtube\.com|youtu\.be)\/.+$]. *)
Definition YT_URL_REGEX_test (p : jsstring) : bool :=
  let path s := strip "/" s dot_plus_end in
  let host s := strip "youtube.com" s path || strip "youtu.be" s path in
  let www s := optional "www." s host in
  strip "https://" p www || strip "http://" p www || www p.

(** A character of the class [[\w.-]]. *)
Definition handle_char (c : char) : bool :=
  (N.leb 97 c && N.leb c 122) || (N.leb 65 c && N.leb c 90)
  || (N.leb 48 c && N.leb c 57) || N.eqb c 95 || N.eqb c 46 || N.eqb c 45.

(** [YT_HANDLE_REGEX.test(p)], the expression being [^@[\w.-]+$]. *)
Definition YT_HANDLE_REGEX_test (p : jsstring) : bool :=
  match p with
  | c :: r => N.eqb c 64 && negb (Analyze.is_empty r) && forallb handle_char r
  | [] => false
  end.

Inductive input_type := none | url | username | topic.

Record ValidatedInput :=
  { type : input_type; items : list (jsstring * bool); allValid : bool }.

(** The parts of the query between commas, trimmed, the empty ones left out. *)
Definition rawParts (query : jsstring) : list jsstring :=
  filter (fun p => 0 <? List.length p) (List.map trim (split query comma)).

Definition looks_like_url (p : jsstring) : bool :=
  YT_URL_REGEX_test p || includes p (js "youtube.com") || includes p (js "youtu.be").

Definition parsedAnalysisInput (query : jsstring) : ValidatedInput :=
  if Analyze.is_empty (trim query)
  then {| type := none; items := []; allValid := true |}
  else
    let isUrlMode := existsb looks_like_url (rawParts query) in
    if isUrlMode then
      let validated := List.map (fun p => (p, YT_URL_REGEX_test p)) (rawParts query) in
      {| type := url; items := validated; allValid := forallb snd validated |}
    else if (List.length (rawParts query) =? 1)
            && YT_HANDLE_REGEX_test (nth 0 (rawParts query) [])
    then {| type := username; items := [(nth 0 (rawParts query) [], true)]; allValid := true |}
    else {| type := topic; items := [(query, true)]; allValid := true |}.

Record AppState :=
  { isSearching : bool;
    result : option value;
    error : option string;
    searchHistory : list jsstring }.

(** What the component holds: the query, the format, the state, the
    cancel flag, and the lines it wrote to the console, last first.  The
    progress bar and its timer are left out. *)
Record app :=
  { query : jsstring;
    format : Analyze.OutputFormat;
    state : AppState;
    cancelRef : bool;
    logged : list string }.

Definition initial : app :=
  {| query := [];
     format := Analyze.detailed;
     state := {| isSearching := false; result := None; error := None; searchHistory := [] |};
     cancelRef := false;
     logged := [] |}.

(** [[query, ...history.filter(h => h !== query).slice(0, 9)]] *)
Definition remember (query : jsstring) (history : list jsstring) : list jsstring :=
  query :: firstn 9 (filter (fun h => negb (string_eqb h query)) history).

(** Whether [handleSearch] goes past its two guards. *)
Definition accepted (query : jsstring) : bool :=
  negb (Analyze.is_empty (trim query)) && allValid (parsedAnalysisInput query).

Definition failure_message : string :=
  "Failed to perform analysis. Ensure valid YouTube links, a valid handle (@username), or a specific enough topic query.".

(** [handleSearch] up to the call of [analyzeTopic]. *)
Definition handleSearch_begin (a : app) : app :=
  if accepted (query a) then
    {| query := query a;
       format := format a;
       state := {| isSearching := true;
                   result := result (state a);
                   error := None;
                   searchHistory := remember (query a) (searchHistory (state a)) |};
       cancelRef := false;
       logged := logged a |}
  else a.

(** [handleSearch] after the call has returned [r]. *)
Definition handleSearch_resolved (r : value) (a : app) : app :=
  if cancelRef a then
    {| query := query a; format := format a; state := state a;
       cancelRef := cancelRef a;
       logged := "Analysis cancelled by user."%string :: logged a |}
  else
    {| query := query a;
       format := format a;
       state := {| isSearching := false;
                   result := Some r;
                   error := error (state a);
                   searchHistory := searchHistory (state a) |};
       cancelRef := cancelRef a;
       logged := logged a |}.

(** [handleSearch] after the call has thrown; [console.error(err)] is
    logged as the word error. *)
Definition handleSearch_rejected (a : app) : app :=
  if cancelRef a then a
  else
    {| query := query a;
       format := format a;
       state := {| isSearching := false;
                   result := result (state a);
                   error := Some failure_message;
                   searchHistory := searchHistory (state a) |};
       cancelRef := cancelRef a;
       logged := "error"%string :: logged a |}.

Definition handleStop (a : app) : app :=
  {| query := query a;
     format := format a;
     state := {| isSearching := false;
                 result := result (state a);
                 error := error (state a);
                 searchHistory := searchHistory (state a) |};
     cancelRef := true;
     logged := logged a |}.

(** What happens to the component: the input changes, the form is
    submitted, the stop button is pressed, a pending call of
    [analyzeTopic] returns or throws. *)
Inductive event :=
| SetQuery (q : jsstring)
| SetFormat (f : Analyze.OutputFormat)
| Submit
| Stop
| Resolved (r : value)
| Rejected.

Definition step (a : app) (e : event) : app :=
  match e with
  | SetQuery q =>
      {| query := q; format := format a; state := state a;
         cancelRef := cancelRef a; logged := logged a |}
  | SetFormat f =>
      {| query := query a; format := f; state := state a;
         cancelRef := cancelRef a; logged := logged a |}
  | Submit => handleSearch_begin a
  | Stop => handleStop a
  | Resolved r => handleSearch_resolved r a
  | Rejected => handleSearch_rejected a
  end.

Definition run_events (a : app) (es : list event) : app := fold_left step es a.

End App.

(** What every state of the component satisfies. *)
Definition history_ok (a : App.app) : Prop :=
  List.length (App.searchHistory (App.state a)) <= 10
  /\ NoDup (App.searchHistory (App.state a))
  /\ Forall (fun q => App.accepted q = true) (App.searchHistory (App.state a))
  /\ (App.isSearching (App.state a) = true -> App.error (App.state a) = None).

(** ** The types of the report (types.ts, at the end of
    src/services/geminiService.ts) *)

Module Types.

(** The tag of an excerpt is one of the strings of [AnalysisTag]; what
    the model sends is not checked, so a tag is any string. *)
Record TranscriptExcerpt :=
  { videoId : jsstring; creatorName : jsstring; text : jsstring; tag : jsstring }.

Record Pattern :=
  { theme : jsstring; description : jsstring; supportingExcerpts : list TranscriptExcerpt }.

(** An element of [commonConfusionPoints]; its third field is named
    [supportingExcerpts] too. *)
Record ConfusionPoint :=
  { point : jsstring; explanationAttempt : jsstring;
    confusionExcerpts : list TranscriptExcerpt }.

(** An element of [processedVideos]. *)
Record Video := { title : jsstring; url : jsstring; creator : jsstring }.

End Types.

(** ** src/components/AnalysisView.tsx *)

Module AnalysisView.

(** [prev.includes(x)] on an array of strings. *)
Definition array_includes (l : list jsstring) (x : jsstring) : bool :=
  existsb (fun y => string_eqb y x) l.

(** [toggleTag] and [toggleCreator]: what [setSelectedTags] and
    [setSelectedCreators] make of the previous selection. *)
Definition toggle (x : jsstring) (prev : list jsstring) : list jsstring :=
  if array_includes prev x
  then filter (fun t => negb (string_eqb t x)) prev
  else prev ++ [x].

Definition toggleTag := toggle.
Definition toggleCreator := toggle.

(** [text.replace(/dquote/g, dquote dquote)]: every double quote twice. *)
Definition escape_quotes (text : jsstring) : jsstring :=
  flat_map (fun c => if N.eqb c dquote then [dquote; dquote] else [c]) text.

(** [cells.join(sep)] *)
Fixpoint join (sep : jsstring) (cells : list jsstring) : jsstring :=
  match cells with
  | [] => []
  | [c] => c
  | c :: rest => c ++ sep ++ join sep rest
  end.

(** The rows of [exportCSV]: the header, a row per excerpt of a theme,
    then a row per excerpt of a confusion point. *)
Definition csv_rows (themes : list Types.Pattern) (points : list Types.ConfusionPoint)
  : list (list jsstring) :=
  [[js "Type"; js "Category"; js "Description/Attempt"; js "Excerpt"; js "Creator"; js "Tag"]]
  ++ flat_map
       (fun t =>
          List.map
            (fun e => [js "Theme"; Types.theme t; Types.description t;
                       escape_quotes (Types.text e); Types.creatorName e; Types.tag e])
            (Types.supportingExcerpts t))
       themes
  ++ flat_map
       (fun c =>
          List.map
            (fun e => [js "Confusion"; Types.point c; Types.explanationAttempt c;
                       escape_quotes (Types.text e); Types.creatorName e; Types.tag e])
            (Types.confusionExcerpts c))
       points.

(** [csvContent], which [exportCSV] hands to [encodeURI]. *)
Definition csvContent (themes : list Types.Pattern) (points : list Types.ConfusionPoint)
  : jsstring :=
  js "data:text/csv;charset=utf-8,"
  ++ join [10%N]
       (List.map
          (fun row => join [comma] (List.map (fun cell => dquote :: cell ++ [dquote]) row))
          (csv_rows themes points)).

(** The elements of [new Set(l)], in order of insertion. *)
Fixpoint unique (l : list jsstring) : list jsstring :=
  match l with
  | [] => []
  | x :: r => x :: filter (fun y => negb (string_eqb y x)) (unique r)
  end.

(** The order of [sort()] without comparator: by code units. *)
Fixpoint string_ltb (a b : jsstring) : bool :=
  match a, b with
  | [], [] => false
  | [], _ :: _ => true
  | _ :: _, [] => false
  | x :: a', y :: b' =>
      if N.ltb x y then true
      else if N.eqb x y then string_ltb a' b' else false
  end.

Fixpoint insert_sorted (x : jsstring) (l : list jsstring) : list jsstring :=
  match l with
  | [] => [x]
  | y :: r => if string_ltb y x then y :: insert_sorted x r else x :: l
  end.

(** [l.sort()]: what the sort returns is fixed by the order, here reached
    by insertion. *)
Definition sort (l : list jsstring) : list jsstring :=
  fold_right insert_sorted [] l.

Definition allCreators (processedVideos : list Types.Video) : list jsstring :=
  sort (unique (List.map Types.creator processedVideos)).

(** Every element is below the next one. *)
Fixpoint ascending (l : list jsstring) : bool :=
  match l with
  | [] => true
  | x :: r =>
      match r with
      | [] => true
      | y :: _ => string_ltb x y && ascending r
      end
  end.

(** The values that are not [null]. *)
Fixpoint not_null {A : Type} (l : list (option A)) : list A :=
  match l with
  | [] => []
  | Some a :: r => a :: not_null r
  | None :: r => not_null r
  end.

Section Filters.

(** [String.prototype.toLowerCase], whose tables are those of Unicode:
    the filters are stated for whatever function it is. *)
Variable toLowerCase : jsstring -> jsstring.

(** The state of the filters. *)
Variable searchTerm : jsstring.
Variable selectedTags : list jsstring.
Variable selectedCreators : list jsstring.

Definition matchesSearch (text : jsstring) : bool :=
  if Analyze.is_empty searchTerm then true
  else App.includes (toLowerCase text) (toLowerCase searchTerm).

(** The test of the [filter] over the excerpts of a theme or point. *)
Definition excerpt_shown (metadataMatch : bool) (ex : Types.TranscriptExcerpt) : bool :=
  let tagMatch :=
    (List.length selectedTags =? 0) || array_includes selectedTags (Types.tag ex) in
  let creatorMatch :=
    (List.length selectedCreators =? 0)
    || array_includes selectedCreators (Types.creatorName ex) in
  let excerptSearchMatch :=
    matchesSearch (Types.text ex) || matchesSearch (Types.creatorName ex) in
  tagMatch && creatorMatch && (metadataMatch || excerptSearchMatch).

Definition filteredThemes (aggregatedThemes : list Types.Pattern) : list Types.Pattern :=
  not_null
    (List.map
       (fun theme =>
          let themeMetadataMatch :=
            matchesSearch (Types.theme theme) || matchesSearch (Types.description theme) in
          let filteredExcerpts :=
            filter (excerpt_shown themeMetadataMatch) (Types.supportingExcerpts theme) in
          if (0 <? List.length filteredExcerpts)
             || (themeMetadataMatch && (List.length selectedTags =? 0)
                 && (List.length selectedCreators =? 0))
          then Some {| Types.theme := Types.theme theme;
                       Types.description := Types.description theme;
                       Types.supportingExcerpts := filteredExcerpts |}
          else None)
       aggregatedThemes).

Definition filteredConfusion (commonConfusionPoints : list Types.ConfusionPoint)
  : list Types.ConfusionPoint :=
  not_null
    (List.map
       (fun cp =>
          let pointMetadataMatch :=
            matchesSearch (Types.point cp) || matchesSearch (Types.explanationAttempt cp) in
          let filteredExcerpts :=
            filter (excerpt_shown pointMetadataMatch) (Types.confusionExcerpts cp) in
          if (0 <? List.length filteredExcerpts)
             || (pointMetadataMatch && (List.length selectedTags =? 0)
                 && (List.length selectedCreators =? 0))
          then Some {| Types.point := Types.point cp;
                       Types.explanationAttempt := Types.explanationAttempt cp;
                       Types.confusionExcerpts := filteredExcerpts |}
          else None)
       commonConfusionPoints).

Definition filteredVideos (processedVideos : list Types.Video) : list Types.Video :=
  filter
    (fun v => matchesSearch (Types.title v) || matchesSearch (Types.creator v)
              || matchesSearch (Types.url v))
    processedVideos.

Definition isAnyFilterActive : bool :=
  negb (Analyze.is_empty searchTerm)
  || (0 <? List.length selectedTags) || (0 <? List.length selectedCreators).

End Filters.

End AnalysisView.

(** ** A report to try the view on *)

Definition sample_excerpt_1 : Types.TranscriptExcerpt :=
  {| Types.videoId := js "v1"; Types.creatorName := js "Ann";
     Types.text := js "first"; Types.tag := js "Explanation" |}.

Definition sample_excerpt_2 : Types.TranscriptExcerpt :=
  {| Types.videoId := js "v2"; Types.creatorName := js "Bob";
     Types.text := js "second"; Types.tag := js "Common_Mistake" |}.

Definition sample_themes : list Types.Pattern :=
  [{| Types.theme := js "Proofing"; Types.description := js "d";
      Types.supportingExcerpts := [sample_excerpt_1; sample_excerpt_2] |};
   {| Types.theme := js "Baking"; Types.description := js "d";
      Types.supportingExcerpts := [] |}].

(** The first theme of the sample under the tag of its first excerpt. *)
Definition sample_shown : Types.Pattern :=
  {| Types.theme := js "Proofing"; Types.description := js "d";
     Types.supportingExcerpts := [sample_excerpt_1] |}.

Definition sample_videos : list Types.Video :=
  [{| Types.title := js "t1"; Types.url := js "u1"; Types.creator := js "Bob" |};
   {| Types.title := js "t2"; Types.url := js "u2"; Types.creator := js "Ann" |};
   {| Types.title := js "t3"; Types.url := js "u3"; Types.creator := js "Bob" |}].

(** A response with two grounding chunks, one of them without address. *)
Definition sample_chunks : list Analyze.GroundingChunk :=
  [{| Analyze.web := Some {| Analyze.uri := Some (js "https://a.example");
                             Analyze.title := Some [] |} |};
   {| Analyze.web := None |}].

Definition sample_response : Analyze.GenerateContentResponse :=
  {| Analyze.text := Some (js "{}");
     Analyze.candidates :=
       Some [{| Analyze.groundingMetadata :=
                  Some {| Analyze.groundingChunks := Some sample_chunks |} |}] |}.

(** ** The Number a literal denotes *)

(** A Number of the script is a binary64: a zero, an infinity, or
    [significand * 2 ^ binary_exponent] with a significand below [2 ^ 53],
    at least [2 ^ 52] unless the exponent is the least one, [-1074]. *)
Inductive binary64 :=
| B64_zero (negative : bool)
| B64_infinity (negative : bool)
| B64_finite (negative : bool) (significand : Z) (binary_exponent : Z).

(** Whether [num / den] is at least [2 ^ l]. *)
Definition at_least_pow2 (num den l : Z) : bool :=
  if (0 <=? l)%Z then (den * 2 ^ l <=? num)%Z else (den <=? num * 2 ^ (- l))%Z.

(** The quotient [num / den] of two positive integers, rounded to a
    significand of 53 bits, ties to even, and its exponent. *)
Definition round_ratio (num den : Z) : Z * Z :=
  let l := (Z.log2 num - Z.log2 den)%Z in
  let t := if at_least_pow2 num den l then l else (l - 1)%Z in
  let e := Z.max (t - 52) (-1074) in
  let n' := if (0 <=? e)%Z then num else (num * 2 ^ (- e))%Z in
  let d' := if (0 <=? e)%Z then (den * 2 ^ e)%Z else den in
  let q0 := (n' / d')%Z in
  let rem := (n' mod d')%Z in
  let q := if (d' <? 2 * rem)%Z || ((d' =? 2 * rem)%Z && Z.odd q0)
           then (q0 + 1)%Z else q0 in
  if (q =? 2 ^ 53)%Z then ((2 ^ 52)%Z, (e + 1)%Z) else (q, e).

(** The Number that [JSON.parse] returns for a number literal: the
    binary64 nearest to its value. *)
Definition to_binary64 (n : number) : binary64 :=
  if N.eqb (mantissa n) 0 then B64_zero (neg n)
  else
    let m := Z.of_N (mantissa n) in
    let '(q, e) :=
      if (0 <=? exponent n)%Z then round_ratio (m * 10 ^ exponent n) 1
      else round_ratio m (10 ^ (- exponent n)) in
    if (q =? 0)%Z then B64_zero (neg n)
    else if (971 <? e)%Z then B64_infinity (neg n)
    else B64_finite (neg n) q e.

(** ** The order of appearance in a text *)

(** [reads s v r]: the text [s] begins with a value, read from left to
    right as [v], and goes on with [r].  The elements of an array and the
    members of an object are listed as they come: the first of the list is
    the one the text has first, the others follow the comma. *)
Inductive reads : jsstring -> value -> jsstring -> Prop :=
| reads_string body str r :
    parse_chars body [] = Some (str, r) ->
    reads (dquote :: body) (JString str) r
| reads_true s r :
    expect (js "true") s = Some r -> reads s (JBool true) r
| reads_false s r :
    expect (js "false") s = Some r -> reads s (JBool false) r
| reads_null s r :
    expect (js "null") s = Some r -> reads s JNull r
| reads_number s n r :
    parse_number s = Some (n, r) -> reads s (JNumber n) r
| reads_empty_array s r :
    skip_ws s = rbracket :: r -> reads (lbracket :: s) (JArray []) r
| reads_array s vs r :
    reads_elements (skip_ws s) vs r -> reads (lbracket :: s) (JArray vs) r
| reads_empty_object s r :
    skip_ws s = rbrace :: r -> reads (lbrace :: s) (JObject []) r
| reads_object s ms r :
    reads_members (skip_ws s) ms r -> reads (lbrace :: s) (JObject ms) r
with reads_elements : jsstring -> list value -> jsstring -> Prop :=
| reads_last_element s v r1 r :
    reads s v r1 ->
    skip_ws r1 = rbracket :: r ->
    reads_elements s [v] r
| reads_next_element s v r1 r2 vs r :
    reads s v r1 ->
    skip_ws r1 = comma :: r2 ->
    reads_elements (skip_ws r2) vs r ->
    reads_elements s (v :: vs) r
with reads_members : jsstring -> list (jsstring * value) -> jsstring -> Prop :=
| reads_last_member body k r1 r2 v r3 r :
    parse_chars body [] = Some (k, r1) ->
    skip_ws r1 = colon :: r2 ->
    reads (skip_ws r2) v r3 ->
    skip_ws r3 = rbrace :: r ->
    reads_members (dquote :: body) [(k, v)] r
| reads_next_member body k r1 r2 v r3 r4 ms r :
    parse_chars body [] = Some (k, r1) ->
    skip_ws r1 = colon :: r2 ->
    reads (skip_ws r2) v r3 ->
    skip_ws r3 = comma :: r4 ->
    reads_members (skip_ws r4) ms r ->
    reads_members (dquote :: body) ((k, v) :: ms) r.

(** A whole text: one value between optional white space. *)
Definition reads_text (text : jsstring) (lit : value) : Prop :=
  exists r, reads (skip_ws text) lit r /\ skip_ws r = [].

(** ** What the script returns for a literal *)

Definition is_index (k : jsstring) : bool :=
  match array_index k with Some _ => true | None => false end.

Definition index_of (k : jsstring) : N :=
  match array_index k with Some i => i | None => 0%N end.

(** Array indices in ascending order. *)
Fixpoint ascending_indices (ks : list jsstring) : bool :=
  match ks with
  | [] => true
  | a :: r =>
      match r with
      | [] => true
      | b :: _ => N.ltb (index_of a) (index_of b) && ascending_indices r
      end
  end.

(** The keys of [ks] in order of first appearance: each key is kept
    where it is met first. *)
Definition first_occurrences (ks : list jsstring) : list jsstring :=
  fold_left
    (fun seen k => if existsb (string_eqb k) seen then seen else seen ++ [k])
    ks [].

(** The keys of an object against the keys as written: the array indices
    first, in ascending order, then the other keys in order of first
    appearance. *)
Definition key_order (written keys : list jsstring) : Prop :=
  exists indices others,
    keys = indices ++ others
    /\ forallb is_index indices = true
    /\ ascending_indices indices = true
    /\ others = first_occurrences (filter (fun k => negb (is_index k)) written).

(** The properties [ps] of the object made of the members [kvs], given
    in order of appearance with the values they evaluate to: no key
    twice, every key with the value of its last member, and the keys in
    the order above. *)
Definition object_of (kvs ps : list (jsstring * value)) : Prop :=
  NoDup (List.map fst ps)
  /\ (forall k, get ps k = get (rev kvs) k)
  /\ key_order (List.map fst kvs) (List.map fst ps).

(** [returned lit v]: the script value [v] for the literal [lit].  A
    number is the binary64 its literal rounds to; the elements of an
    array are those of the literal, one for one, in order; an object is
    made of its members as [object_of] says. *)
Inductive returned : value -> value -> Prop :=
| returned_null : returned JNull JNull
| returned_bool b : returned (JBool b) (JBool b)
| returned_number n n' :
    to_binary64 n = to_binary64 n' -> returned (JNumber n) (JNumber n')
| returned_string s : returned (JString s) (JString s)
| returned_array l l' :
    Forall2 returned l l' -> returned (JArray l) (JArray l')
| returned_object ms vs ps :
    Forall2 returned (List.map snd ms) vs ->
    object_of (combine (List.map fst ms) vs) ps ->
    returned (JObject ms) (JObject ps).

(** ** Reading a cell of the export *)

(** What a reader of CSV makes of the inside of a quoted cell: two double
    quotes in a row stand for one, and a double quote alone is none of the
    cell (it would end it). *)
Fixpoint csv_unescape (cell : jsstring) : option jsstring :=
  match cell with
  | [] => Some []
  | c :: r =>
      if N.eqb c dquote then
        match r with
        | c' :: r' =>
            if N.eqb c' dquote then option_map (cons dquote) (csv_unescape r')
            else None
        | [] => None
        end
      else option_map (cons c) (csv_unescape r)
  end.

(** The excerpts of the themes, and of the confusion points, of a list. *)
Definition theme_excerpts (themes : list Types.Pattern) : nat :=
  list_sum (List.map (fun t => List.length (Types.supportingExcerpts t)) themes).

Definition confusion_excerpts (points : list Types.ConfusionPoint) : nat :=
  list_sum (List.map (fun c => List.length (Types.confusionExcerpts c)) points).

Definition sample_excerpt_3 : Types.TranscriptExcerpt :=
  {| Types.videoId := js "v3"; Types.creatorName := js "Cid";
     Types.text := js "say 'hi'"; Types.tag := js "Warning" |}.

Definition sample_points : list Types.ConfusionPoint :=
  [{| Types.point := js "Hydration"; Types.explanationAttempt := js "a";
      Types.confusionExcerpts := [sample_excerpt_3] |}].

(** ** Reading the literals of this file *)

Example js_quotes : js "{'a'}" = [lbrace; dquote; 97%N; dquote; rbrace].
Proof. reflexivity. Qed.

Example js_backslash : js "\'" = [backslash; dquote].
Proof. reflexivity. Qed.

(** ** [trim] *)

Section Trim.

Lemma trimStart_app_ws (w s : jsstring) :
  forallb is_white_space w = true -> trimStart (w ++ s) = trimStart s.
Proof.
  induction w as [|c w IH]; simpl; intros H; [reflexivity|].
  apply andb_true_iff in H as [Hc Hw]. rewrite Hc. auto.
Qed.

Lemma trimStart_ws (w : jsstring) :
  forallb is_white_space w = true -> trimStart w = [].
Proof.
  intros H. rewrite <- (app_nil_r w). rewrite trimStart_app_ws; auto.
Qed.

Lemma trimStart_nil_inv (s : jsstring) :
  trimStart s = [] -> forallb is_white_space s = true.
Proof.
  induction s as [|c s IH]; simpl; [reflexivity|].
  destruct (is_white_space c); [auto | discriminate].
Qed.

Lemma trimStart_app_keep (s w : jsstring) :
  trimStart s <> [] -> trimStart (s ++ w) = trimStart s ++ w.
Proof.
  induction s as [|c s IH]; simpl; intros H; [congruence|].
  destruct (is_white_space c); auto.
Qed.

Lemma forallb_rev (A : Type) (f : A -> bool) (l : list A) :
  forallb f (rev l) = forallb f l.
Proof.
  induction l as [|a l IH]; simpl; [reflexivity|].
  rewrite forallb_app, IH. simpl. rewrite andb_true_r. apply andb_comm.
Qed.

Lemma trimEnd_app_ws (s w : jsstring) :
  forallb is_white_space w = true -> trimEnd (s ++ w) = trimEnd s.
Proof.
  intros H. unfold trimEnd. rewrite rev_app_distr, trimStart_app_ws; [reflexivity|].
  now rewrite forallb_rev.
Qed.

Lemma trim_ws (w : jsstring) :
  forallb is_white_space w = true -> trim w = [].
Proof.
  intros H. unfold trim. now rewrite (trimStart_ws _ H).
Qed.

Lemma trim_surrounded (w1 w2 T : jsstring) :
  forallb is_white_space w1 = true ->
  forallb is_white_space w2 = true ->
  trim (w1 ++ T ++ w2) = trim T.
Proof.
  intros H1 H2. unfold trim. rewrite (trimStart_app_ws _ _ H1).
  destruct (trimStart T) as [|c r] eqn:E.
  - rewrite trimStart_ws; [reflexivity|].
    rewrite forallb_app, H2, (trimStart_nil_inv _ E). reflexivity.
  - rewrite trimStart_app_keep by congruence.
    rewrite E. now apply trimEnd_app_ws.
Qed.

End Trim.

(** ** The stack and the closing loop *)

Section Stack.

Lemma top_push (st : list char) (c : char) : top (push st c) = Some c.
Proof.
  unfold top, push. rewrite length_app. simpl.
  replace (List.length st + 1 - 1) with (List.length st) by lia.
  rewrite nth_error_app2 by lia. now rewrite Nat.sub_diag.
Qed.

Lemma pop_push (st : list char) (c : char) : pop (push st c) = (Some c, st).
Proof.
  unfold pop. rewrite top_push. unfold push. now rewrite removelast_last.
Qed.

Lemma top_nil : top [] = None.
Proof. reflexivity. Qed.

(** The loop appends the whole stack, last pushed first. *)
Lemma closeAll_rev (st : list char) :
  forall n fixedText, List.length st <= n ->
    closeAll n st fixedText = fixedText ++ rev st.
Proof.
  induction st as [|c st IH] using rev_ind; intros n fixedText Hn.
  - destruct n; simpl; now rewrite app_nil_r.
  - rewrite length_app in Hn. simpl in Hn.
    destruct n as [|n]; [lia|].
    cbn [closeAll]. change (st ++ [c]) with (push st c).
    rewrite pop_push. unfold push at 1. rewrite length_app.
    replace (0 <? List.length st + List.length [c]) with true
      by (symmetry; apply Nat.ltb_lt; simpl; lia).
    rewrite IH by lia. unfold push. rewrite rev_app_distr. simpl.
    now rewrite <- app_assoc.
Qed.

Lemma recoveryStep2_appends (fixedText : jsstring) :
  recoveryStep2 fixedText = fixedText ++ rev (stack (scan fixedText)).
Proof. unfold recoveryStep2. now apply closeAll_rev. Qed.

Lemma recoveryStep1_appends (trimmed : jsstring) :
  recoveryStep1 trimmed =
  trimmed ++ (if Nat.odd (quoteCount trimmed) then [dquote] else []).
Proof.
  unfold recoveryStep1.
  rewrite <- (Nat.bit0_mod (quoteCount trimmed)), Nat.bit0_odd.
  destruct (Nat.odd (quoteCount trimmed)); simpl; [reflexivity|].
  now rewrite app_nil_r.
Qed.

Lemma repaired_appends (trimmed : jsstring) :
  repaired trimmed =
  trimmed ++ (if Nat.odd (quoteCount trimmed) then [dquote] else [])
          ++ rev (stack (scan (recoveryStep1 trimmed))).
Proof.
  unfold repaired. rewrite recoveryStep2_appends.
  rewrite recoveryStep1_appends at 1. now rewrite <- app_assoc.
Qed.

End Stack.

Section ScanChar.

Lemma removelast_shorter (A : Type) (l : list A) :
  l <> [] -> List.length (removelast l) < List.length l.
Proof.
  intros H. destruct (exists_last H) as (l' & a & ->).
  rewrite removelast_last, length_app. simpl. lia.
Qed.

Lemma top_Some_nonempty (st : list char) (c : char) :
  top st = Some c -> st <> [].
Proof. intros H ->. discriminate. Qed.

Lemma closer_not_quote (c : char) :
  c = rbrace \/ c = rbracket ->
  N.eqb c dquote = false /\ N.eqb c lbrace = false /\ N.eqb c lbracket = false
  /\ (N.eqb c rbrace || N.eqb c rbracket) = true.
Proof. intros [-> | ->]; repeat split; reflexivity. Qed.

End ScanChar.

(** C7: in the structural scan, a closing brace or bracket met outside a
    string leaves the stack as it is when the stack is empty or its top is
    another character, and pops the stack when its top is that character;
    the scan goes on either way. Conversely a step that shortens the stack
    is a closer met outside a string that matches the top. *)
Theorem scan_char_closer :
  (forall st c, inString st = false -> (c = rbrace \/ c = rbracket) ->
     (stack st = [] \/ top (stack st) <> Some c ->
        scan_char st c = st)
     /\ (top (stack st) = Some c ->
        stack (scan_char st c) = removelast (stack st)))
  /\ (forall st c, List.length (stack (scan_char st c)) < List.length (stack st) ->
        inString st = false /\ (c = rbrace \/ c = rbracket) /\ top (stack st) = Some c).
Proof.
  split.
  - intros [stk ins esc] c Hin Hc. simpl in Hin. subst ins.
    destruct (closer_not_quote c Hc) as (Hq & Hb & Hk & Hcl).
    unfold scan_char. simpl. rewrite Hq, Hb, Hk, Hcl. simpl. split.
    + intros [-> | Hne]; [reflexivity|].
      destruct (top stk) as [t|] eqn:Et.
      * destruct (N.eqb_spec t c) as [->|]; [congruence|].
        now rewrite andb_false_r.
      * now rewrite andb_false_r.
    + intros Ht. rewrite Ht, N.eqb_refl.
      pose proof (top_Some_nonempty _ _ Ht) as Hne.
      destruct stk; [congruence|]. reflexivity.
  - intros [stk ins esc] c. unfold scan_char. simpl.
    destruct (N.eqb_spec c dquote) as [->|Hq]; simpl.
    + destruct esc, ins; simpl; lia.
    + destruct ins; simpl; [lia|].
      destruct (N.eqb_spec c lbrace) as [->|Hb];
        [unfold push; rewrite length_app; simpl; lia|].
      destruct (N.eqb_spec c lbracket) as [->|Hk];
        [unfold push; rewrite length_app; simpl; lia|].
      destruct (N.eqb c rbrace || N.eqb c rbracket) eqn:Hcl; [|lia].
      destruct (top stk) as [t|] eqn:Et;
        [|rewrite andb_false_r; lia].
      destruct (N.eqb_spec t c) as [->|]; [|rewrite andb_false_r; lia].
      intros _. split; [reflexivity|]. split; [|reflexivity].
      apply orb_true_iff in Hcl as [H|H]; apply N.eqb_eq in H; auto.
Qed.

(** Witness for [scan_char_closer]: a bracket met with a brace on top of
    the stack changes nothing, a brace pops it. *)
Lemma scan_char_closer_witness :
  scan_char {| stack := [rbrace]; inString := false; escaped := false |} rbracket
  = {| stack := [rbrace]; inString := false; escaped := false |}
  /\ stack (scan_char {| stack := [rbracket; rbrace]; inString := false; escaped := false |} rbrace)
     = [rbracket].
Proof.
  split.
  - apply (proj1 (proj1 scan_char_closer
             {| stack := [rbrace]; inString := false; escaped := false |} rbracket
             eq_refl (or_intror eq_refl))).
    right. simpl. discriminate.
  - apply (proj2 (proj1 scan_char_closer
             {| stack := [rbracket; rbrace]; inString := false; escaped := false |} rbrace
             eq_refl (or_introl eq_refl))).
    reflexivity.
Defined.

(** ** What the scan sees of a text that [JSON.parse] accepts *)

Section ScanOfLiterals.

Lemma scan_from_app (st : scan_state) (a b : jsstring) :
  scan_from st (a ++ b) = scan_from (scan_from st a) b.
Proof. apply fold_left_app. Qed.

Lemma scan_from_cons (st : scan_state) (c : char) (s : jsstring) :
  scan_from st (c :: s) = scan_from (scan_char st c) s.
Proof. reflexivity. Qed.

(** Steps of the scan inside a string. *)
Lemma scan_char_escaped (stk : list char) (c : char) :
  scan_char {| stack := stk; inString := true; escaped := true |} c
  = {| stack := stk; inString := true; escaped := false |}.
Proof. unfold scan_char. simpl. now rewrite !andb_false_r. Qed.

Lemma scan_char_closing_quote (stk : list char) :
  scan_char {| stack := stk; inString := true; escaped := false |} dquote
  = {| stack := stk; inString := false; escaped := false |}.
Proof. reflexivity. Qed.

Lemma scan_char_backslash (stk : list char) :
  scan_char {| stack := stk; inString := true; escaped := false |} backslash
  = {| stack := stk; inString := true; escaped := true |}.
Proof. reflexivity. Qed.

Lemma scan_char_inside (stk : list char) (c : char) :
  N.eqb c dquote = false -> N.eqb c backslash = false ->
  scan_char {| stack := stk; inString := true; escaped := false |} c
  = {| stack := stk; inString := true; escaped := false |}.
Proof. intros Hq Hb. unfold scan_char. simpl. now rewrite Hq, Hb. Qed.

Lemma scan_char_opening_quote (stk : list char) :
  scan_char {| stack := stk; inString := false; escaped := false |} dquote
  = {| stack := stk; inString := true; escaped := false |}.
Proof. reflexivity. Qed.

Lemma scan_char_outside (st : scan_state) (c : char) :
  neutral st -> N.eqb c dquote = false -> neutral (scan_char st c).
Proof.
  intros [Hi He] Hq. destruct st as [stk ins esc]. simpl in *. subst.
  unfold scan_char. simpl. rewrite Hq. simpl. split; reflexivity.
Qed.

Lemma crosses_refl (s : jsstring) : crosses s s.
Proof. intros st H. now exists st. Qed.

Lemma crosses_trans (a b c : jsstring) :
  crosses a b -> crosses b c -> crosses a c.
Proof.
  intros Hab Hbc st H. destruct (Hab st H) as (st1 & H1 & E1).
  destruct (Hbc st1 H1) as (st2 & H2 & E2). exists st2. split; congruence.
Qed.

Lemma crosses_cons (c : char) (s : jsstring) :
  N.eqb c dquote = false -> crosses (c :: s) s.
Proof.
  intros Hq st H. exists (scan_char st c). split; [|reflexivity].
  now apply scan_char_outside.
Qed.

Lemma is_json_ws_not_quote (c : char) :
  is_json_ws c = true -> N.eqb c dquote = false.
Proof.
  unfold is_json_ws. intros H.
  repeat (apply orb_true_iff in H as [H|H]);
    apply N.eqb_eq in H; subst; reflexivity.
Qed.

Lemma is_digit_not_quote (c : char) :
  is_digit c = true -> N.eqb c dquote = false /\ N.eqb c backslash = false.
Proof.
  unfold is_digit, dquote, backslash. intros H.
  apply andb_true_iff in H as [H1 H2].
  apply N.leb_le in H1, H2. split; apply N.eqb_neq; lia.
Qed.

Lemma skip_ws_crosses (s : jsstring) : crosses s (skip_ws s).
Proof.
  induction s as [|c s IH]; simpl; [apply crosses_refl|].
  destruct (is_json_ws c) eqn:E; [|apply crosses_refl].
  eapply crosses_trans; [|exact IH].
  apply crosses_cons. now apply is_json_ws_not_quote.
Qed.

Lemma skip_ws_length (s : jsstring) :
  List.length (skip_ws s) <= List.length s.
Proof.
  induction s as [|c s IH]; simpl; [lia|].
  destruct (is_json_ws c); simpl; lia.
Qed.

Lemma digits_crosses (s : jsstring) :
  forall acc n a k r, digits s acc n = (a, k, r) ->
    crosses s r /\ k + List.length r = n + List.length s.
Proof.
  induction s as [|c s IH]; simpl; intros acc n a k r H.
  - inversion H; subst. split; [apply crosses_refl | reflexivity].
  - destruct (is_digit c) eqn:E.
    + apply IH in H as [H1 H2]. split; [|lia].
      eapply crosses_trans; [|exact H1].
      apply crosses_cons. now apply is_digit_not_quote.
    + inversion H; subst. split; [apply crosses_refl | reflexivity].
Qed.

Lemma digits_count (s : jsstring) :
  forall acc n a k r, digits s acc n = (a, k, r) -> n <= k.
Proof.
  induction s as [|c s IH]; simpl; intros acc n a k r H.
  - inversion H; subst. lia.
  - destruct (is_digit c).
    + apply IH in H. lia.
    + inversion H; subst. lia.
Qed.

Lemma expect_crosses (w : jsstring) :
  forallb (fun c => negb (N.eqb c dquote)) w = true ->
  forall s r, expect w s = Some r ->
    crosses s r /\ List.length s = List.length w + List.length r.
Proof.
  induction w as [|a w IH]; simpl; intros Hw s r H.
  - inversion H; subst. split; [apply crosses_refl | reflexivity].
  - apply andb_true_iff in Hw as [Ha Hw].
    destruct s as [|b s]; [discriminate|].
    destruct (N.eqb_spec a b) as [->|]; [|discriminate].
    destruct (IH Hw _ _ H) as [H1 H2]. simpl. split; [|lia].
    eapply crosses_trans; [|exact H1].
    apply crosses_cons. now apply negb_true_iff.
Qed.

End ScanOfLiterals.

Section ScanOfTokens.

Lemma hex_value_not_quote (c : char) (x : N) :
  hex_value c = Some x -> N.eqb c dquote = false /\ N.eqb c backslash = false.
Proof.
  unfold hex_value, is_digit, dquote, backslash.
  destruct (N.leb_spec 48 c), (N.leb_spec c 57); simpl;
    try (intros _; split; apply N.eqb_neq; lia);
    destruct (N.leb_spec 97 c), (N.leb_spec c 102); simpl;
    try (intros _; split; apply N.eqb_neq; lia);
    destruct (N.leb_spec 65 c), (N.leb_spec c 70); simpl;
    try (intros _; split; apply N.eqb_neq; lia); discriminate.
Qed.

(** A string literal: the scan that entered it at the opening quote
    leaves it at the closing quote the parser stops at. *)
Lemma parse_chars_scan (n : nat) :
  forall s acc k r stk, List.length s <= n ->
    parse_chars s acc = Some (k, r) ->
    scan_from {| stack := stk; inString := true; escaped := false |} s
    = scan_from {| stack := stk; inString := false; escaped := false |} r
    /\ List.length r < List.length s.
Proof.
  induction n as [|n IH]; intros s acc k r stk Hn H.
  - destruct s; [discriminate | simpl in Hn; lia].
  - destruct s as [|c t]; [discriminate|]. simpl in Hn, H.
    rewrite scan_from_cons.
    destruct (N.eqb_spec c dquote) as [->|Hq].
    { inversion H; subst. rewrite scan_char_closing_quote. simpl. split; [reflexivity | lia]. }
    destruct (N.eqb_spec c backslash) as [->|Hb].
    { rewrite scan_char_backslash.
      destruct t as [|e r1]; [discriminate|].
      rewrite scan_from_cons, scan_char_escaped.
      destruct (N.eqb e 117).
      - destruct r1 as [|h1 [|h2 [|h3 [|h4 r2]]]]; try discriminate.
        unfold hex4 in H.
        destruct (hex_value h1) eqn:E1; [|discriminate].
        destruct (hex_value h2) eqn:E2; [|discriminate].
        destruct (hex_value h3) eqn:E3; [|discriminate].
        destruct (hex_value h4) eqn:E4; [|discriminate].
        apply hex_value_not_quote in E1 as [? ?], E2 as [? ?], E3 as [? ?], E4 as [? ?].
        rewrite !scan_from_cons, !scan_char_inside by assumption.
        apply (IH _ _ _ _ stk) in H; [|simpl in Hn; lia].
        destruct H as [Hscan Hlen]. simpl. split; [exact Hscan | lia].
      - destruct (unescape e); [|discriminate].
        apply (IH _ _ _ _ stk) in H; [|simpl in Hn; lia].
        destruct H as [Hscan Hlen]. simpl. split; [exact Hscan | lia]. }
    destruct (N.ltb c 32); [discriminate|].
    rewrite scan_char_inside by (apply N.eqb_neq; assumption).
    apply (IH _ _ _ _ stk) in H; [|lia].
    destruct H as [Hscan Hlen]. simpl. split; [exact Hscan | lia].
Qed.

(** A whole string literal, opening quote included. *)
Lemma string_literal_crosses (s : jsstring) (k r : jsstring) :
  parse_chars s [] = Some (k, r) ->
  crosses (dquote :: s) r /\ List.length r < List.length s.
Proof.
  intros H. split.
  - intros [stk ins esc] [Hi He]. simpl in Hi, He. subst.
    exists {| stack := stk; inString := false; escaped := false |}.
    split; [split; reflexivity|].
    rewrite scan_from_cons, scan_char_opening_quote.
    eapply parse_chars_scan; [apply Nat.le_refl | exact H].
  - eapply (parse_chars_scan (List.length s) s [] k r []); [apply Nat.le_refl | exact H].
Qed.

Lemma parse_int_crosses (s : jsstring) (i : N) (r : jsstring) :
  parse_int s = Some (i, r) -> crosses s r /\ List.length r < List.length s.
Proof.
  unfold parse_int. destruct s as [|c t]; [discriminate|].
  destruct (N.eqb_spec c 48) as [->|Hz].
  - intros H. inversion H; subst. split; [now apply crosses_cons | simpl; lia].
  - destruct (is_digit c) eqn:Ed; [|discriminate].
    destruct (digits (c :: t) 0 0) as [[m k] r'] eqn:E. intros H. inversion H; subst.
    pose proof E as E'. simpl in E'. rewrite Ed in E'.
    destruct (digits_crosses _ _ _ _ _ _ E) as [H1 _].
    destruct (digits_crosses _ _ _ _ _ _ E') as [_ H2].
    apply digits_count in E'.
    split; [exact H1 | simpl; lia].
Qed.

Lemma parse_fraction_crosses (m : N) (s : jsstring) (m' : N) (k : nat) (r : jsstring) :
  parse_fraction m s = Some (m', k, r) ->
  crosses s r /\ List.length r <= List.length s.
Proof.
  unfold parse_fraction. destruct s as [|c t].
  - intros H. inversion H; subst. split; [apply crosses_refl | lia].
  - destruct (N.eqb_spec c 46) as [->|Hd].
    + destruct (digits t m 0) as [[a j] r'] eqn:E.
      destruct j; [discriminate|]. intros H. inversion H; subst.
      destruct (digits_crosses _ _ _ _ _ _ E) as [H1 H2]. split; [|simpl; lia].
      eapply crosses_trans; [|exact H1]. now apply crosses_cons.
    + intros H. inversion H; subst. split; [apply crosses_refl | lia].
Qed.

Lemma parse_exponent_crosses (s : jsstring) (e : Z) (r : jsstring) :
  parse_exponent s = Some (e, r) ->
  crosses s r /\ List.length r <= List.length s.
Proof.
  unfold parse_exponent. destruct s as [|c t].
  - intros H. inversion H; subst. split; [apply crosses_refl | lia].
  - destruct (N.eqb c 101 || N.eqb c 69) eqn:Ee.
    + assert (Hc : N.eqb c dquote = false).
      { apply orb_true_iff in Ee as [Ee|Ee]; apply N.eqb_eq in Ee; subst; reflexivity. }
      assert (Hsign : forall sign r1,
                 (match t with
                  | d :: r' => if N.eqb d 45 then (true, r')
                               else if N.eqb d 43 then (false, r') else (false, t)
                  | [] => (false, t)
                  end) = (sign, r1) ->
                 crosses t r1 /\ List.length r1 <= List.length t).
      { intros sign r1 Hs. destruct t as [|d r'].
        - inversion Hs; subst. split; [apply crosses_refl | lia].
        - destruct (N.eqb_spec d 45) as [->|].
          + inversion Hs; subst. split; [now apply crosses_cons | simpl; lia].
          + destruct (N.eqb_spec d 43) as [->|].
            * inversion Hs; subst. split; [now apply crosses_cons | simpl; lia].
            * inversion Hs; subst. split; [apply crosses_refl | lia]. }
      destruct (match t with
                | d :: r' => if N.eqb d 45 then (true, r')
                             else if N.eqb d 43 then (false, r') else (false, t)
                | [] => (false, t)
                end) as [sign r1] eqn:Es.
      destruct (Hsign _ _ eq_refl) as [Hs1 Hs2].
      destruct (digits r1 0 0) as [[a j] r2] eqn:E.
      destruct j; [discriminate|]. intros H. inversion H; subst.
      destruct (digits_crosses _ _ _ _ _ _ E) as [H1 H2]. split; [|simpl; lia].
      eapply crosses_trans; [now apply crosses_cons|].
      eapply crosses_trans; [exact Hs1 | exact H1].
    + intros H. inversion H; subst. split; [apply crosses_refl | lia].
Qed.

Lemma parse_number_crosses (s : jsstring) (n : number) (r : jsstring) :
  parse_number s = Some (n, r) -> crosses s r /\ List.length r < List.length s.
Proof.
  unfold parse_number.
  assert (Hsign : forall sign s1,
             (match s with
              | c :: r => if N.eqb c 45 then (true, r) else (false, s)
              | [] => (false, s)
              end) = (sign, s1) ->
             crosses s s1 /\ List.length s1 <= List.length s).
  { intros sign s1 Hs. destruct s as [|c t].
    - inversion Hs; subst. split; [apply crosses_refl | lia].
    - destruct (N.eqb_spec c 45) as [->|].
      + inversion Hs; subst. split; [now apply crosses_cons | simpl; lia].
      + inversion Hs; subst. split; [apply crosses_refl | lia]. }
  destruct (match s with
            | c :: r => if N.eqb c 45 then (true, r) else (false, s)
            | [] => (false, s)
            end) as [sign s1] eqn:Es.
  destruct (Hsign _ _ eq_refl) as [Hs1 Hs2].
  destruct (parse_int s1) as [[i s2]|] eqn:Ei; [|discriminate].
  destruct (parse_fraction i s2) as [[[m k] s3]|] eqn:Ef; [|discriminate].
  destruct (parse_exponent s3) as [[e s4]|] eqn:Ee; [|discriminate].
  intros H. inversion H; subst.
  apply parse_int_crosses in Ei as [A1 A2].
  apply parse_fraction_crosses in Ef as [B1 B2].
  apply parse_exponent_crosses in Ee as [C1 C2].
  split; [|lia].
  eapply crosses_trans; [exact Hs1|].
  eapply crosses_trans; [exact A1|].
  eapply crosses_trans; [exact B1 | exact C1].
Qed.

End ScanOfTokens.

Section ScanOfValues.

Lemma skip_ws_cons_crosses (s : jsstring) (c : char) (r : jsstring) :
  skip_ws s = c :: r -> crosses s (c :: r) /\ List.length r < List.length s.
Proof.
  intros E. split.
  - rewrite <- E. apply skip_ws_crosses.
  - pose proof (skip_ws_length s) as H. rewrite E in H. simpl in H. lia.
Qed.

Lemma literal_crosses (w : string) (s r : jsstring) :
  forallb (fun c => negb (N.eqb c dquote)) (js w) = true ->
  0 < List.length (js w) ->
  expect (js w) s = Some r ->
  crosses s r /\ List.length r < List.length s.
Proof.
  intros Hw Hl H. destruct (expect_crosses _ Hw _ _ H) as [H1 H2].
  split; [exact H1 | lia].
Qed.

(** A value, the elements of an array and the members of an object are
    each crossed by the scan, and each takes at least one character. *)
Lemma parse_value_crosses (fuel : nat) :
  (forall s v r, parse_value fuel s = Ok v r ->
     crosses s r /\ List.length r < List.length s)
  /\ (forall acc s v r, parse_elements fuel acc s = Ok v r ->
     crosses s r /\ List.length r < List.length s)
  /\ (forall acc s v r, parse_members fuel acc s = Ok v r ->
     crosses s r /\ List.length r < List.length s).
Proof.
  induction fuel as [|fuel (IHv & IHe & IHm)].
  { repeat split; intros; discriminate. }
  split; [|split].
  - intros s v r H. cbn [parse_value] in H.
    destruct s as [|c t]; [discriminate|].
    destruct (N.eqb_spec c lbrace) as [->|Hb].
    { destruct (skip_ws t) as [|c' r'] eqn:E; [discriminate|].
      apply skip_ws_cons_crosses in E as [E1 E2].
      destruct (N.eqb_spec c' rbrace) as [->|].
      - inversion H; subst. split; [|simpl; lia].
        eapply crosses_trans; [now apply crosses_cons|].
        eapply crosses_trans; [exact E1 | now apply crosses_cons].
      - apply IHm in H as [H1 H2]. split; [|simpl in *; lia].
        eapply crosses_trans; [now apply crosses_cons|].
        eapply crosses_trans; [exact E1 | exact H1]. }
    destruct (N.eqb_spec c lbracket) as [->|Hk].
    { destruct (skip_ws t) as [|c' r'] eqn:E; [discriminate|].
      apply skip_ws_cons_crosses in E as [E1 E2].
      destruct (N.eqb_spec c' rbracket) as [->|].
      - inversion H; subst. split; [|simpl; lia].
        eapply crosses_trans; [now apply crosses_cons|].
        eapply crosses_trans; [exact E1 | now apply crosses_cons].
      - apply IHe in H as [H1 H2]. split; [|simpl in *; lia].
        eapply crosses_trans; [now apply crosses_cons|].
        eapply crosses_trans; [exact E1 | exact H1]. }
    destruct (N.eqb_spec c dquote) as [->|Hq].
    { destruct (parse_chars t []) as [[str r']|] eqn:E; [|discriminate].
      inversion H; subst.
      apply string_literal_crosses in E as [E1 E2]. split; [exact E1 | simpl; lia]. }
    destruct (N.eqb c 116).
    { destruct (expect (js "true") (c :: t)) as [r'|] eqn:E; [|discriminate].
      inversion H; subst. eapply literal_crosses; [| |exact E]; [reflexivity | simpl; lia]. }
    destruct (N.eqb c 102).
    { destruct (expect (js "false") (c :: t)) as [r'|] eqn:E; [|discriminate].
      inversion H; subst. eapply literal_crosses; [| |exact E]; [reflexivity | simpl; lia]. }
    destruct (N.eqb c 110).
    { destruct (expect (js "null") (c :: t)) as [r'|] eqn:E; [|discriminate].
      inversion H; subst. eapply literal_crosses; [| |exact E]; [reflexivity | simpl; lia]. }
    destruct (parse_number (c :: t)) as [[n r']|] eqn:E; [|discriminate].
    inversion H; subst. now apply parse_number_crosses in E.
  - intros acc s v r H. cbn [parse_elements] in H.
    destruct (parse_value fuel s) as [v1 r1| |] eqn:Ev; try discriminate.
    apply IHv in Ev as [V1 V2].
    destruct (skip_ws r1) as [|c r'] eqn:E; [discriminate|].
    apply skip_ws_cons_crosses in E as [E1 E2].
    destruct (N.eqb_spec c comma) as [->|].
    { apply IHe in H as [H1 H2].
      pose proof (skip_ws_length r') as L. split; [|lia].
      eapply crosses_trans; [exact V1|].
      eapply crosses_trans; [exact E1|].
      eapply crosses_trans; [now apply crosses_cons|].
      eapply crosses_trans; [apply skip_ws_crosses | exact H1]. }
    destruct (N.eqb_spec c rbracket) as [->|]; [|discriminate].
    inversion H; subst. split; [|lia].
    eapply crosses_trans; [exact V1|].
    eapply crosses_trans; [exact E1 | now apply crosses_cons].
  - intros acc s v r H. cbn [parse_members] in H.
    destruct s as [|q t]; [discriminate|].
    destruct (N.eqb_spec q dquote) as [->|]; [|discriminate].
    destruct (parse_chars t []) as [[k r1]|] eqn:Ek; [|discriminate].
    apply string_literal_crosses in Ek as [K1 K2].
    destruct (skip_ws r1) as [|c1 r2] eqn:E1; [discriminate|].
    apply skip_ws_cons_crosses in E1 as [E11 E12].
    destruct (N.eqb_spec c1 colon) as [->|]; [|discriminate].
    destruct (parse_value fuel (skip_ws r2)) as [v1 r3| |] eqn:Ev; try discriminate.
    apply IHv in Ev as [V1 V2].
    pose proof (skip_ws_length r2) as L2.
    destruct (skip_ws r3) as [|c3 r4] eqn:E3; [discriminate|].
    apply skip_ws_cons_crosses in E3 as [E31 E32].
    assert (Hhead : crosses (dquote :: t) (c3 :: r4)).
    { eapply crosses_trans; [exact K1|].
      eapply crosses_trans; [exact E11|].
      eapply crosses_trans; [now apply crosses_cons|].
      eapply crosses_trans; [apply skip_ws_crosses|].
      eapply crosses_trans; [exact V1 | exact E31]. }
    destruct (N.eqb_spec c3 comma) as [->|].
    { apply IHm in H as [H1 H2].
      pose proof (skip_ws_length r4) as L4. split; [|simpl; lia].
      eapply crosses_trans; [exact Hhead|].
      eapply crosses_trans; [now apply crosses_cons|].
      eapply crosses_trans; [apply skip_ws_crosses | exact H1]. }
    destruct (N.eqb_spec c3 rbrace) as [->|]; [|discriminate].
    inversion H; subst. split; [|simpl; lia].
    eapply crosses_trans; [exact Hhead | now apply crosses_cons].
Qed.

(** The scan of a text that parses ends outside of any string. *)
Lemma parse_text_scan (text : jsstring) (v : value) :
  parse_text text = Some v -> neutral (scan text).
Proof.
  unfold parse_text. intros H.
  destruct (parse_value (2 * List.length text + 1) (skip_ws text)) as [v1 r| |] eqn:E;
    try discriminate.
  destruct (skip_ws r) eqn:Er; [|discriminate].
  apply (proj1 (parse_value_crosses _)) in E as [E1 _].
  assert (C : crosses text []).
  { eapply crosses_trans; [apply skip_ws_crosses|].
    eapply crosses_trans; [exact E1|]. rewrite <- Er. apply skip_ws_crosses. }
  destruct (C scan_init (conj eq_refl eq_refl)) as (st' & Hn & Hs).
  unfold scan. rewrite Hs. exact Hn.
Qed.

End ScanOfValues.

(** ** Fuel *)

Section Fuel.

(** With more than twice the length of the input as fuel, no parsing
    function stops for lack of it. *)
Lemma parse_value_fuel (fuel : nat) :
  (forall s, 2 * List.length s < fuel -> parse_value fuel s <> OutOfFuel)
  /\ (forall acc s, 2 * List.length s + 1 < fuel ->
        parse_elements fuel acc s <> OutOfFuel)
  /\ (forall acc s, 2 * List.length s + 1 < fuel ->
        parse_members fuel acc s <> OutOfFuel).
Proof.
  induction fuel as [|fuel (IHv & IHe & IHm)].
  { repeat split; intros; lia. }
  split; [|split].
  - intros s Hs. cbn [parse_value].
    destruct s as [|c t]; [discriminate|]. simpl in Hs.
    pose proof (skip_ws_length t) as Lt.
    destruct (N.eqb c lbrace).
    { destruct (skip_ws t) as [|c' r'] eqn:E; [discriminate|].
      destruct (N.eqb c' rbrace); [discriminate|].
      apply IHm. simpl in *. lia. }
    destruct (N.eqb c lbracket).
    { destruct (skip_ws t) as [|c' r'] eqn:E; [discriminate|].
      destruct (N.eqb c' rbracket); [discriminate|].
      apply IHe. simpl in *. lia. }
    destruct (N.eqb c dquote).
    { destruct (parse_chars t []) as [[str r']|]; discriminate. }
    destruct (N.eqb c 116).
    { destruct (expect (js "true") (c :: t)); discriminate. }
    destruct (N.eqb c 102).
    { destruct (expect (js "false") (c :: t)); discriminate. }
    destruct (N.eqb c 110).
    { destruct (expect (js "null") (c :: t)); discriminate. }
    destruct (parse_number (c :: t)) as [[n r']|]; discriminate.
  - intros acc s Hs. cbn [parse_elements].
    destruct (parse_value fuel s) as [v1 r1| |] eqn:Ev; [|discriminate|].
    + apply (proj1 (parse_value_crosses _)) in Ev as [_ V2].
      destruct (skip_ws r1) as [|c r'] eqn:E; [discriminate|].
      apply skip_ws_cons_crosses in E as [_ E2].
      pose proof (skip_ws_length r') as L.
      destruct (N.eqb c comma); [apply IHe; lia|].
      destruct (N.eqb c rbracket); discriminate.
    + exfalso. revert Ev. apply IHv. lia.
  - intros acc s Hs. cbn [parse_members].
    destruct s as [|q t]; [discriminate|]. simpl in Hs.
    destruct (N.eqb q dquote); [|discriminate].
    destruct (parse_chars t []) as [[k r1]|] eqn:Ek; [|discriminate].
    apply string_literal_crosses in Ek as [_ K2].
    destruct (skip_ws r1) as [|c1 r2] eqn:E1; [discriminate|].
    apply skip_ws_cons_crosses in E1 as [_ E12].
    destruct (N.eqb c1 colon); [|discriminate].
    pose proof (skip_ws_length r2) as L2.
    destruct (parse_value fuel (skip_ws r2)) as [v1 r3| |] eqn:Ev; [|discriminate|].
    + apply (proj1 (parse_value_crosses _)) in Ev as [_ V2].
      destruct (skip_ws r3) as [|c3 r4] eqn:E3; [discriminate|].
      apply skip_ws_cons_crosses in E3 as [_ E32].
      pose proof (skip_ws_length r4) as L4.
      destruct (N.eqb c3 comma); [apply IHm; lia|].
      destruct (N.eqb c3 rbrace); discriminate.
    + exfalso. revert Ev. apply IHv. lia.
Qed.

(** [parse_text] never fails for lack of fuel: its failures are syntax
    errors. *)
Lemma parse_text_fuel (text : jsstring) :
  parse_value (2 * List.length text + 1) (skip_ws text) <> OutOfFuel.
Proof.
  apply (proj1 (parse_value_fuel _)).
  pose proof (skip_ws_length text). lia.
Qed.

(** A result reached with some fuel is the result with more fuel. *)
Lemma parse_value_more_fuel (fuel : nat) :
  (forall s, parse_value fuel s <> OutOfFuel ->
     parse_value (S fuel) s = parse_value fuel s)
  /\ (forall acc s, parse_elements fuel acc s <> OutOfFuel ->
        parse_elements (S fuel) acc s = parse_elements fuel acc s)
  /\ (forall acc s, parse_members fuel acc s <> OutOfFuel ->
        parse_members (S fuel) acc s = parse_members fuel acc s).
Proof.
  induction fuel as [|fuel (IHv & IHe & IHm)].
  { repeat split; intros; simpl in *; congruence. }
  split; [|split].
  - intros s H. cbn [parse_value] in H. cbn [parse_value].
    destruct s as [|c t]; [reflexivity|].
    destruct (N.eqb c lbrace).
    { destruct (skip_ws t) as [|c' r']; [reflexivity|].
      destruct (N.eqb c' rbrace); [reflexivity|]. now apply IHm. }
    destruct (N.eqb c lbracket).
    { destruct (skip_ws t) as [|c' r']; [reflexivity|].
      destruct (N.eqb c' rbracket); [reflexivity|]. now apply IHe. }
    reflexivity.
  - intros acc s H. cbn [parse_elements] in H.
    change (parse_elements (S (S fuel)) acc s)
      with (match parse_value (S fuel) s with
            | Ok v r =>
                match skip_ws r with
                | [] => Bad
                | c :: r' =>
                    if N.eqb c comma
                    then parse_elements (S fuel) (v :: acc) (skip_ws r')
                    else if N.eqb c rbracket
                    then Ok (JArray (rev (v :: acc))) r' else Bad
                end
            | Bad => Bad
            | OutOfFuel => OutOfFuel
            end).
    cbn [parse_elements].
    rewrite IHv by (intros E; rewrite E in H; congruence).
    destruct (parse_value fuel s) as [v1 r1| |]; try reflexivity.
    destruct (skip_ws r1) as [|c r']; [reflexivity|].
    destruct (N.eqb c comma); [now apply IHe | reflexivity].
  - intros acc s H. cbn [parse_members] in H.
    change (parse_members (S (S fuel)) acc s)
      with (match s with
            | [] => Bad
            | q :: r =>
                if N.eqb q dquote then
                  match parse_chars r [] with
                  | None => Bad
                  | Some (k, r1) =>
                      match skip_ws r1 with
                      | [] => Bad
                      | c1 :: r2 =>
                          if N.eqb c1 colon then
                            match parse_value (S fuel) (skip_ws r2) with
                            | Ok v r3 =>
                                match skip_ws r3 with
                                | [] => Bad
                                | c3 :: r4 =>
                                    if N.eqb c3 comma
                                    then parse_members (S fuel) ((k, v) :: acc) (skip_ws r4)
                                    else if N.eqb c3 rbrace
                                    then Ok (JObject (rev ((k, v) :: acc))) r4
                                    else Bad
                                end
                            | Bad => Bad
                            | OutOfFuel => OutOfFuel
                            end
                          else Bad
                      end
                  end
                else Bad
            end).
    cbn [parse_members].
    destruct s as [|q t]; [reflexivity|].
    destruct (N.eqb q dquote); [|reflexivity].
    destruct (parse_chars t []) as [[k r1]|]; [|reflexivity].
    destruct (skip_ws r1) as [|c1 r2]; [reflexivity|].
    destruct (N.eqb c1 colon); [|reflexivity].
    rewrite IHv by (intros E; rewrite E in H; congruence).
    destruct (parse_value fuel (skip_ws r2)) as [v1 r3| |]; try reflexivity.
    destruct (skip_ws r3) as [|c3 r4]; [reflexivity|].
    destruct (N.eqb c3 comma); [now apply IHm | reflexivity].
Qed.

(** Fuel beyond what [parse_text] gives changes nothing. *)
Lemma parse_text_any_fuel (text : jsstring) (extra : nat) :
  parse_value (extra + (2 * List.length text + 1)) (skip_ws text)
  = parse_value (2 * List.length text + 1) (skip_ws text).
Proof.
  induction extra as [|extra IH]; [reflexivity|].
  change (S extra + (2 * List.length text + 1))
    with (S (extra + (2 * List.length text + 1))).
  rewrite (proj1 (parse_value_more_fuel _)); [exact IH|].
  rewrite IH. apply parse_text_fuel.
Qed.

End Fuel.

(** ** The stack holds closers only *)

Section StackContents.

Lemma Forall_removelast (A : Type) (P : A -> Prop) (l : list A) :
  Forall P l -> Forall P (removelast l).
Proof.
  induction 1 as [|a l Ha Hl IH]; simpl; [constructor|].
  destruct l; [constructor|]. constructor; assumption.
Qed.

Lemma scan_char_closers (st : scan_state) (c : char) :
  Forall is_closer (stack st) -> Forall is_closer (stack (scan_char st c)).
Proof.
  intros H. unfold scan_char.
  destruct (if N.eqb c dquote && negb (escaped st)
            then negb (inString st) else inString st); simpl; [exact H|].
  destruct (N.eqb c lbrace).
  { apply Forall_app. split; [exact H|]. constructor; [now left | constructor]. }
  destruct (N.eqb c lbracket).
  { apply Forall_app. split; [exact H|]. constructor; [now right | constructor]. }
  destruct (N.eqb c rbrace || N.eqb c rbracket); [|exact H].
  destruct ((0 <? List.length (stack st))
            && match top (stack st) with Some t => N.eqb t c | None => false end);
    [now apply Forall_removelast | exact H].
Qed.

Lemma scan_from_closers (s : jsstring) :
  forall st, Forall is_closer (stack st) ->
    Forall is_closer (stack (scan_from st s)).
Proof.
  induction s as [|c s IH]; intros st H; [exact H|].
  rewrite scan_from_cons. apply IH. now apply scan_char_closers.
Qed.

Lemma scan_closers (s : jsstring) : Forall is_closer (stack (scan s)).
Proof. apply scan_from_closers. constructor. Qed.

(** Inside a string, characters other than the quote leave the scan
    inside the string. *)
Lemma scan_from_stays_inside (cs : jsstring) :
  forall st, inString st = true -> Forall is_closer cs ->
    inString (scan_from st cs) = true.
Proof.
  induction cs as [|c cs IH]; intros st Hin Hcs; [exact Hin|].
  inversion Hcs as [|? ? Hc Hcs']; subst.
  rewrite scan_from_cons. apply IH; [|exact Hcs'].
  destruct (closer_not_quote c Hc) as (Hq & _).
  unfold scan_char. rewrite Hq. simpl. rewrite Hin. reflexivity.
Qed.

Lemma repaired_stays_inside (trimmed : jsstring) :
  inString (scan (recoveryStep1 trimmed)) = true ->
  inString (scan (repaired trimmed)) = true.
Proof.
  intros H. unfold repaired. rewrite recoveryStep2_appends.
  unfold scan. rewrite scan_from_app.
  apply scan_from_stays_inside; [exact H|].
  apply Forall_rev. apply scan_closers.
Qed.

(** The scan of nested openings stacks their closers, outermost first. *)
Lemma scan_from_opens (opens : jsstring) :
  forall stk, Forall is_opener opens ->
    scan_from {| stack := stk; inString := false; escaped := false |} opens
    = {| stack := stk ++ List.map closer_of opens;
         inString := false; escaped := false |}.
Proof.
  induction opens as [|c opens IH]; intros stk H.
  - simpl. now rewrite app_nil_r.
  - inversion H as [|? ? Hc Ho]; subst. rewrite scan_from_cons.
    assert (E : scan_char {| stack := stk; inString := false; escaped := false |} c
                = {| stack := stk ++ [closer_of c];
                     inString := false; escaped := false |})
      by (destruct Hc as [-> | ->]; reflexivity).
    rewrite E, IH by exact Ho. simpl. now rewrite <- app_assoc.
Qed.

End StackContents.

(** ** Evaluation of literals *)

Section Evaluate.

Lemma has_key_app (k : jsstring) (a b : list (jsstring * value)) :
  has_key k (a ++ b) = has_key k a || has_key k b.
Proof.
  induction a as [|[k' v'] a IH]; simpl; [reflexivity|].
  now rewrite IH, orb_assoc.
Qed.

Lemma existsb_false_In (A : Type) (f : A -> bool) (l : list A) (x : A) :
  existsb f l = false -> In x l -> f x = false.
Proof.
  intros H Hx. destruct (f x) eqn:E; [|reflexivity].
  rewrite <- H. symmetry. apply existsb_exists. now exists x.
Qed.

(** Members with plain, distinct, new keys are appended as they come. *)
Lemma define_plain_members (ms : list (jsstring * value)) :
  forall acc,
    distinct (List.map fst ms) = true ->
    no_index (List.map fst ms) = true ->
    (forall m, In m ms -> has_key (fst m) acc = false) ->
    Forall (fun m => evaluate (snd m) = snd m) ms ->
    fold_left (fun props m => CreateDataProperty props (fst m) (evaluate (snd m))) ms acc
    = acc ++ ms.
Proof.
  induction ms as [|[k v] r IH]; intros acc Hd Hi Hnew Hev; simpl.
  - now rewrite app_nil_r.
  - simpl in Hd, Hi.
    apply andb_true_iff in Hd as [Hk Hd]. apply negb_true_iff in Hk.
    apply andb_true_iff in Hi as [Hki Hi].
    inversion Hev as [|? ? Hv Hev']; subst. simpl in Hv.
    pose proof (Hnew (k, v) (or_introl eq_refl)) as Hkv. simpl in Hkv.
    unfold CreateDataProperty at 2.
    rewrite Hkv.
    destruct (array_index k); [discriminate|].
    rewrite Hv, IH; auto.
    + now rewrite <- app_assoc.
    + intros m Hm. rewrite has_key_app, (Hnew m (or_intror Hm)). simpl.
      rewrite orb_false_r.
      apply (existsb_false_In _ _ _ _ Hk). now apply in_map.
Qed.

(** A literal with plain keys evaluates to itself. *)
Lemma evaluate_plain (v : value) : plain_keys v = true -> evaluate v = v.
Proof.
  induction v as [| | | |l IH|ms IH] using value_nested_ind; intros H;
    try reflexivity.
  - simpl in *. f_equal.
    induction IH as [|x l Hx Hl IHl]; [reflexivity|].
    simpl in H. apply andb_true_iff in H as [H1 H2].
    simpl. now rewrite Hx, IHl.
  - simpl in *.
    apply andb_true_iff in H as [H H3]. apply andb_true_iff in H as [H1 H2].
    f_equal. rewrite define_plain_members; auto.
    rewrite Forall_forall in *. intros m Hm. apply IH; [exact Hm|].
    rewrite forallb_forall in H3. now apply H3.
Qed.

(** Elements of arrays keep their number and order whatever the keys. *)
Lemma evaluate_array (l : list value) :
  evaluate (JArray l) = JArray (List.map evaluate l).
Proof. reflexivity. Qed.

End Evaluate.

(** ** Properties of [robustParseJSON] *)

Section Outcome.

Lemma JSON_parse_throws (text : jsstring) (e : exception) :
  JSON_parse text = Throw e -> e = SyntaxError.
Proof.
  unfold JSON_parse. destruct (parse_text text); intros H; inversion H.
  reflexivity.
Qed.

Lemma robustParseJSON_direct (text : jsstring) (v : value) :
  JSON_parse (trim text) = Return v ->
  robustParseJSON text = {| console := []; outcome := Return v |}.
Proof. intros H. unfold robustParseJSON. now rewrite H. Qed.

Lemma robustParseJSON_recovery (text : jsstring) (e : exception) :
  JSON_parse (trim text) = Throw e ->
  outcome (robustParseJSON text)
  = match JSON_parse (repaired (trim text)) with
    | Return v => Return v
    | Throw _ => Throw MalformedOutput
    end.
Proof.
  intros H. unfold robustParseJSON. rewrite H.
  destruct (JSON_parse (repaired (trim text))); reflexivity.
Qed.

(** A text whose scan ends inside a string does not parse. *)
Lemma unterminated_string_rejected (text : jsstring) :
  inString (scan text) = true -> JSON_parse text = Throw SyntaxError.
Proof.
  intros H. unfold JSON_parse.
  destruct (parse_text text) as [v|] eqn:E; [|reflexivity].
  apply parse_text_scan in E as [E _]. congruence.
Qed.

End Outcome.

(** C1: when the trimmed input is valid JSON, [robustParseJSON] returns
    what [JSON.parse] returns for the trimmed text, and nothing of the
    recovery runs: the console stays empty. Hence white space around a
    text changes nothing: the call on [w1 ++ T ++ w2] is the call on [T]. *)
Theorem valid_input_parsed_directly :
  (forall text v, JSON_parse (trim text) = Return v ->
     robustParseJSON text = {| console := []; outcome := Return v |})
  /\ (forall w1 w2 T,
        forallb is_white_space w1 = true ->
        forallb is_white_space w2 = true ->
        robustParseJSON (w1 ++ T ++ w2) = robustParseJSON T).
Proof.
  split.
  - exact robustParseJSON_direct.
  - intros w1 w2 T H1 H2. unfold robustParseJSON.
    now rewrite (trim_surrounded w1 w2 T H1 H2).
Qed.

(** Witness for [valid_input_parsed_directly]: an object between blanks
    and line ends. *)
Lemma valid_input_parsed_directly_witness :
  robustParseJSON (js "  {'a': [true, null]}  ")
  = {| console := [];
       outcome := Return (JObject [(js "a", JArray [JBool true; JNull])]) |}
  /\ robustParseJSON ([32; 10; 160]%N ++ js "{'a': 'hello" ++ [9; 13; 65279]%N)
     = robustParseJSON (js "{'a': 'hello").
Proof.
  split.
  - apply (proj1 valid_input_parsed_directly). vm_compute. reflexivity.
  - apply (proj2 valid_input_parsed_directly); reflexivity.
Defined.

(** C9: on the empty string and on any input made of white space only,
    [robustParseJSON] throws [MalformedOutput]: the trimmed text is empty,
    the direct parse fails, there is no quote to count and none is added,
    the scan leaves the stack empty and nothing is appended, and the final
    parse of the empty text fails. *)
Theorem blank_input_is_malformed (text : jsstring) :
  forallb is_white_space text = true ->
  trim text = []
  /\ JSON_parse (trim text) = Throw SyntaxError
  /\ quoteCount (trim text) = 0
  /\ recoveryStep1 (trim text) = []
  /\ stack (scan (recoveryStep1 (trim text))) = []
  /\ repaired (trim text) = []
  /\ JSON_parse (repaired (trim text)) = Throw SyntaxError
  /\ outcome (robustParseJSON text) = Throw MalformedOutput.
Proof.
  intros H. unfold robustParseJSON. rewrite (trim_ws text H).
  repeat split; reflexivity.
Qed.

(** Witness for [blank_input_is_malformed]: a space, a tab, a line feed
    and a no-break space. *)
Lemma blank_input_is_malformed_witness :
  outcome (robustParseJSON [32; 9; 10; 160]%N) = Throw MalformedOutput
  /\ outcome (robustParseJSON []) = Throw MalformedOutput.
Proof.
  split.
  - apply (blank_input_is_malformed [32; 9; 10; 160]%N). reflexivity.
  - apply (blank_input_is_malformed []). reflexivity.
Defined.

(** C6: when the direct parse and the parse of the repaired text both
    fail, [robustParseJSON] throws [MalformedOutput], the error with the
    fixed message, and not the exception of [JSON.parse]. A call either
    returns the whole value parsed from the trimmed or from the repaired
    text, or throws that error; the text [js "{'a': }"] is such a failure. *)
Theorem failure_is_malformed_output :
  (forall text e1 e2,
     JSON_parse (trim text) = Throw e1 ->
     JSON_parse (repaired (trim text)) = Throw e2 ->
     outcome (robustParseJSON text) = Throw MalformedOutput)
  /\ (forall text,
        (exists v, outcome (robustParseJSON text) = Return v
                   /\ (JSON_parse (trim text) = Return v
                       \/ JSON_parse (repaired (trim text)) = Return v))
        \/ outcome (robustParseJSON text) = Throw MalformedOutput)
  /\ (forall text, outcome (robustParseJSON text) <> Throw SyntaxError)
  /\ MalformedOutput
     = Error "AI response was malformed or truncated due to its length. Please try a more specific query or fewer URLs."
  /\ JSON_parse (trim (js "{'a': }")) = Throw SyntaxError
  /\ JSON_parse (repaired (trim (js "{'a': }"))) = Throw SyntaxError
  /\ outcome (robustParseJSON (js "{'a': }")) = Throw MalformedOutput.
Proof.
  split; [|split; [|split; [|repeat split]]].
  - intros text e1 e2 H1 H2.
    rewrite (robustParseJSON_recovery _ _ H1). now rewrite H2.
  - intros text. destruct (JSON_parse (trim text)) as [v|e] eqn:E1.
    + left. exists v. rewrite (robustParseJSON_direct _ _ E1). auto.
    + rewrite (robustParseJSON_recovery _ _ E1).
      destruct (JSON_parse (repaired (trim text))) as [v|e2] eqn:E2.
      * left. exists v. auto.
      * now right.
  - intros text. destruct (JSON_parse (trim text)) as [v|e] eqn:E1.
    + rewrite (robustParseJSON_direct _ _ E1). discriminate.
    + rewrite (robustParseJSON_recovery _ _ E1).
      destruct (JSON_parse (repaired (trim text))); discriminate.
Qed.

(** Witness for [failure_is_malformed_output]: an array closed by a brace. *)
Lemma failure_is_malformed_output_witness :
  outcome (robustParseJSON (js "[1, 2}")) = Throw MalformedOutput.
Proof.
  apply (proj1 failure_is_malformed_output (js "[1, 2}") SyntaxError SyntaxError);
    vm_compute; reflexivity.
Defined.

(** C4: when the direct parse fails, the text given to the structural scan
    is the trimmed text followed by one double quote when the trimmed text
    holds an odd number of double quotes, and the trimmed text itself when
    that number is even. The input [js "{'a': 'hello"] has three quotes, is
    repaired to [js "{'a': 'hello'}"] and parses to the object whose key
    a holds the string hello. *)
Theorem odd_quote_count_appends_quote :
  (forall text e, JSON_parse (trim text) = Throw e ->
     recoveryStep1 (trim text)
     = trim text ++ (if Nat.odd (quoteCount (trim text)) then [dquote] else [])
     /\ outcome (robustParseJSON text)
        = match JSON_parse (recoveryStep2 (recoveryStep1 (trim text))) with
          | Return v => Return v
          | Throw _ => Throw MalformedOutput
          end)
  /\ JSON_parse (trim (js "{'a': 'hello")) = Throw SyntaxError
  /\ quoteCount (trim (js "{'a': 'hello")) = 3
  /\ recoveryStep1 (trim (js "{'a': 'hello")) = js "{'a': 'hello'"
  /\ repaired (trim (js "{'a': 'hello")) = js "{'a': 'hello'}"
  /\ outcome (robustParseJSON (js "{'a': 'hello"))
     = Return (JObject [(js "a", JString (js "hello"))]).
Proof.
  split; [|repeat split].
  intros text e H. split.
  - apply recoveryStep1_appends.
  - apply (robustParseJSON_recovery _ _ H).
Qed.

(** Witness for [odd_quote_count_appends_quote]: a string cut inside an
    array, and an object cut after a complete string. *)
Lemma odd_quote_count_appends_quote_witness :
  recoveryStep1 (trim (js " ['x', 'y "))
  = js "['x', 'y" ++ [dquote]
  /\ recoveryStep1 (trim (js "{'a': 'b', "))
     = js "{'a': 'b',".
Proof.
  split.
  - apply (proj1 (proj1 odd_quote_count_appends_quote (js " ['x', 'y ") SyntaxError eq_refl)).
  - apply (proj1 (proj1 odd_quote_count_appends_quote (js "{'a': 'b', ") SyntaxError eq_refl)).
Defined.

(** C5: after the scan the text is followed by the closers of the stack,
    the last pushed first, so that the innermost open bracket is closed
    first: a text of nested openings is followed by their closers in
    reverse. The input [js "{'a': [1, 2, {'b': 3"] gets a brace, a bracket
    and a brace, in that order, and parses to the object whose key a holds
    the array of 1, 2 and the object whose key b holds 3. *)
Theorem closers_appended_in_pop_order :
  (forall fixedText,
     recoveryStep2 fixedText = fixedText ++ rev (stack (scan fixedText)))
  /\ (forall st c fixedText,
        closeAll (S (List.length st)) (push st c) fixedText
        = closeAll (List.length st) st (fixedText ++ [c]))
  /\ (forall opens, Forall is_opener opens ->
        recoveryStep2 opens = opens ++ rev (List.map closer_of opens))
  /\ stack (scan (js "{'a': [1, 2, {'b': 3")) = [rbrace; rbracket; rbrace]
  /\ repaired (trim (js "{'a': [1, 2, {'b': 3"))
     = js "{'a': [1, 2, {'b': 3" ++ [rbrace; rbracket; rbrace]
  /\ repaired (trim (js "{'a': [1, 2, {'b': 3")) = js "{'a': [1, 2, {'b': 3}]}"
  /\ outcome (robustParseJSON (js "{'a': [1, 2, {'b': 3"))
     = Return (JObject
                 [(js "a",
                   JArray [JNumber (Number false 1 0);
                           JNumber (Number false 2 0);
                           JObject [(js "b", JNumber (Number false 3 0))]])]).
Proof.
  split; [|split; [|split; [|repeat split]]].
  - exact recoveryStep2_appends.
  - intros st c fixedText.
    rewrite !closeAll_rev; [|lia|unfold push; rewrite length_app; simpl; lia].
    unfold push. rewrite rev_app_distr. simpl. now rewrite <- app_assoc.
  - intros opens H. rewrite recoveryStep2_appends. unfold scan, scan_init.
    now rewrite (scan_from_opens opens [] H).
Qed.

(** Witness for [closers_appended_in_pop_order]: two arrays in an object
    in an array. *)
Lemma closers_appended_in_pop_order_witness :
  recoveryStep2 (js "[{[[") = js "[{[[]]}]".
Proof.
  apply (proj1 (proj2 (proj2 closers_appended_in_pop_order)) (js "[{[[")).
  repeat (apply Forall_cons; [(left; reflexivity) || (right; reflexivity)|]).
  apply Forall_nil.
Defined.

(** C3, as stated: whenever the direct parse fails, the repaired text is
    strictly longer than the trimmed text it starts with. It fails on
    [js "{'a': }"], whose quotes are even in number and whose brackets
    are balanced: the repaired text is the trimmed text. *)
Lemma repaired_not_strict_prefix :
  ~ (forall text e, JSON_parse (trim text) = Throw e ->
       strict_prefix (trim text) (repaired (trim text))).
Proof.
  intros H. destruct (H (js "{'a': }") SyntaxError eq_refl) as (c & suffix & E).
  apply (f_equal (@List.length char)) in E. rewrite length_app in E.
  vm_compute in E. lia.
Qed.

(** C3, amended: whenever the direct parse fails, the repaired text is the
    trimmed text followed by characters that are double quotes, braces or
    brackets: nothing of the trimmed text is removed, moved or changed.
    Characters are appended exactly when the number of quotes is odd or
    the scan leaves the stack non-empty; otherwise the repaired text is
    the trimmed text. *)
Theorem repaired_appends_only :
  forall text e, JSON_parse (trim text) = Throw e ->
    prefix (trim text) (repaired (trim text))
    /\ (exists suffix,
          repaired (trim text) = trim text ++ suffix
          /\ Forall (fun c => c = dquote \/ is_closer c) suffix)
    /\ (strict_prefix (trim text) (repaired (trim text))
        <-> Nat.odd (quoteCount (trim text)) = true
            \/ stack (scan (recoveryStep1 (trim text))) <> []).
Proof.
  intros text e _. set (t := trim text).
  pose proof (repaired_appends t) as E.
  pose proof (scan_closers (recoveryStep1 t)) as Hs.
  split; [|split].
  - eexists. exact E.
  - eexists. split; [exact E|].
    apply Forall_app. split.
    + destruct (Nat.odd (quoteCount t)); repeat constructor.
    + apply Forall_rev. eapply Forall_impl; [|exact Hs]. intros c Hc. now right.
  - split.
    + intros (c & suffix & E').
      destruct (Nat.odd (quoteCount t)); [now left|]. right. intros Hnil.
      rewrite Hnil in E. simpl in E. rewrite E' in E.
      apply (f_equal (@List.length char)) in E.
      rewrite !length_app in E. simpl in E. lia.
    + intros [Hodd | Hne].
      * rewrite Hodd in E. eexists. eexists. exact E.
      * destruct (rev (stack (scan (recoveryStep1 t)))) as [|c r] eqn:Er.
        { apply (f_equal (@rev char)) in Er. rewrite rev_involutive in Er.
          simpl in Er. congruence. }
        destruct (Nat.odd (quoteCount t)); eexists; eexists; exact E.
Qed.

(** Witness for [repaired_appends_only]: an object cut inside a string. *)
Lemma repaired_appends_only_witness :
  prefix (trim (js "{'a': 'hello")) (repaired (trim (js "{'a': 'hello"))).
Proof.
  apply (repaired_appends_only (js "{'a': 'hello") SyntaxError eq_refl).
Defined.

(** C10: when the direct parse fails and the scan of the quote-patched
    text ends inside a string, every closer of the stack lands inside that
    string: the scan of the repaired text ends inside a string too, the
    final parse fails and [robustParseJSON] throws [MalformedOutput]. *)
Theorem open_string_is_malformed :
  forall text e,
    JSON_parse (trim text) = Throw e ->
    inString (scan (recoveryStep1 (trim text))) = true ->
    inString (scan (repaired (trim text))) = true
    /\ JSON_parse (repaired (trim text)) = Throw SyntaxError
    /\ outcome (robustParseJSON text) = Throw MalformedOutput.
Proof.
  intros text e H Hin.
  pose proof (repaired_stays_inside _ Hin) as Hrep.
  pose proof (unterminated_string_rejected _ Hrep) as Hfail.
  repeat split; try assumption.
  rewrite (robustParseJSON_recovery _ _ H). now rewrite Hfail.
Qed.

(** Witness for [open_string_is_malformed]: an array cut inside a string
    that holds an escaped quote. *)
Lemma open_string_is_malformed_witness :
  outcome (robustParseJSON (js "['x\'y")) = Throw MalformedOutput.
Proof.
  apply (open_string_is_malformed (js "['x\'y") SyntaxError); reflexivity.
Defined.

(** C2: on [js "{'a': 'she said \'hi"] the count of step 1 takes the
    escaped quote for a delimiter: it finds four quotes and appends none.
    The scan, which knows the escape, ends inside the string; the brace is
    appended inside it, the final parse fails and the call throws, where
    the text closed by a quote and a brace parses. *)
Theorem escaped_quote_miscounted :
  JSON_parse (trim (js "{'a': 'she said \'hi")) = Throw SyntaxError
  /\ quoteCount (trim (js "{'a': 'she said \'hi")) = 4
  /\ recoveryStep1 (trim (js "{'a': 'she said \'hi")) = js "{'a': 'she said \'hi"
  /\ inString (scan (js "{'a': 'she said \'hi")) = true
  /\ repaired (trim (js "{'a': 'she said \'hi")) = js "{'a': 'she said \'hi}"
  /\ outcome (robustParseJSON (js "{'a': 'she said \'hi")) = Throw MalformedOutput
  /\ JSON_parse (js "{'a': 'she said \'hi'}")
     = Return (JObject [(js "a", JString (js "she said 'hi"))])
  /\ JSON_parse (js "{'a': 'she said \'hi\''}")
     = Return (JObject [(js "a", JString (js "she said 'hi'"))]).
Proof. repeat split. Qed.

(** Objects as the script has them: a repeated key keeps its first place
    and its last value, array indices come first in ascending order. *)
Example repeated_key :
  JSON_parse (js "{'b':1,'a':2,'b':3}")
  = Return (JObject [(js "b", JNumber (Number false 3 0));
                     (js "a", JNumber (Number false 2 0))]).
Proof. reflexivity. Qed.

Example index_keys_first :
  JSON_parse (js "{'b':1,'10':2,'9':3,'01':4}")
  = Return (JObject [(js "9", JNumber (Number false 3 0));
                     (js "10", JNumber (Number false 2 0));
                     (js "b", JNumber (Number false 1 0));
                     (js "01", JNumber (Number false 4 0))]).
Proof. reflexivity. Qed.

(** C8, as stated: the returned structure lists keys and elements exactly
    as the input has them. It fails on [js "{'b':1,'1':2,'b':3}"]: the
    returned object has the key 1 before the key b, and the key b once,
    with the value 3. *)
Lemma order_not_mirrored : ~ mirrors_input (js "{'b':1,'1':2,'b':3}").
Proof.
  intros H.
  assert (E1 : parse_text (parsed_text (js "{'b':1,'1':2,'b':3}"))
               = Some (JObject [(js "b", JNumber (Number false 1 0));
                                (js "1", JNumber (Number false 2 0));
                                (js "b", JNumber (Number false 3 0))]))
    by (vm_compute; reflexivity).
  assert (E2 : outcome (robustParseJSON (js "{'b':1,'1':2,'b':3}"))
               = Return (JObject [(js "1", JNumber (Number false 2 0));
                                  (js "b", JNumber (Number false 3 0))]))
    by (vm_compute; reflexivity).
  specialize (H _ _ E1 E2). vm_compute in H. discriminate H.
Qed.

(** ** The scan of a text that parses keeps its stack *)

Section SteadyScan.

Lemma scan_char_plain (stk : list char) (c : char) :
  plain c = true -> scan_char (open_state stk) c = open_state stk.
Proof.
  unfold plain. intros H. apply negb_true_iff in H.
  repeat (apply orb_false_iff in H; destruct H as [H ?]).
  unfold scan_char, open_state. simpl.
  repeat match goal with E : N.eqb _ _ = false |- _ => rewrite E; clear E end.
  reflexivity.
Qed.

Lemma scan_char_matching (stk : list char) (c : char) :
  is_closer c -> scan_char (open_state (stk ++ [c])) c = open_state stk.
Proof.
  intros Hc. destruct (closer_not_quote c Hc) as (Hq & Hb & Hk & Hcl).
  unfold scan_char, open_state. simpl. rewrite Hq, Hb, Hk, Hcl. simpl.
  change (stk ++ [c]) with (push stk c).
  rewrite top_push, N.eqb_refl. unfold push at 1. rewrite length_app. simpl.
  replace (0 <? List.length stk + 1) with true
    by (symmetry; apply Nat.ltb_lt; lia).
  simpl. unfold push. now rewrite removelast_last.
Qed.

Lemma steady_refl (s : jsstring) : steady s s.
Proof. intros stk. reflexivity. Qed.

Lemma steady_trans (a b c : jsstring) : steady a b -> steady b c -> steady a c.
Proof. intros H1 H2 stk. now rewrite H1, H2. Qed.

Lemma steady_cons (c : char) (s : jsstring) : plain c = true -> steady (c :: s) s.
Proof. intros H stk. rewrite scan_from_cons. now rewrite scan_char_plain. Qed.

Lemma is_json_ws_plain (c : char) : is_json_ws c = true -> plain c = true.
Proof.
  unfold is_json_ws. intros H.
  repeat (apply orb_true_iff in H as [H|H]);
    apply N.eqb_eq in H; subst; reflexivity.
Qed.

Lemma is_digit_plain (c : char) : is_digit c = true -> plain c = true.
Proof.
  unfold is_digit, plain, dquote, lbrace, lbracket, rbrace, rbracket. intros H.
  apply andb_true_iff in H as [H1 H2]. apply N.leb_le in H1, H2.
  apply negb_true_iff. repeat (apply orb_false_iff; split); apply N.eqb_neq; lia.
Qed.

Lemma skip_ws_steady (s : jsstring) : steady s (skip_ws s).
Proof.
  induction s as [|c s IH]; simpl; [apply steady_refl|].
  destruct (is_json_ws c) eqn:E; [|apply steady_refl].
  eapply steady_trans; [|exact IH]. apply steady_cons. now apply is_json_ws_plain.
Qed.

Lemma digits_steady (s : jsstring) :
  forall acc n a k r, digits s acc n = (a, k, r) -> steady s r.
Proof.
  induction s as [|c s IH]; simpl; intros acc n a k r H.
  - inversion H; subst. apply steady_refl.
  - destruct (is_digit c) eqn:E.
    + apply IH in H. eapply steady_trans; [|exact H].
      apply steady_cons. now apply is_digit_plain.
    + inversion H; subst. apply steady_refl.
Qed.

Lemma expect_steady (w : jsstring) :
  forallb plain w = true ->
  forall s r, expect w s = Some r -> steady s r.
Proof.
  induction w as [|a w IH]; simpl; intros Hw s r H.
  - inversion H; subst. apply steady_refl.
  - apply andb_true_iff in Hw as [Ha Hw].
    destruct s as [|b s]; [discriminate|].
    destruct (N.eqb_spec a b) as [->|]; [|discriminate].
    eapply steady_trans; [now apply steady_cons|]. now apply IH.
Qed.

Lemma string_literal_steady (s k r : jsstring) :
  parse_chars s [] = Some (k, r) -> steady (dquote :: s) r.
Proof.
  intros H stk. rewrite scan_from_cons.
  change (scan_char (open_state stk) dquote)
    with {| stack := stk; inString := true; escaped := false |}.
  eapply parse_chars_scan; [apply Nat.le_refl | exact H].
Qed.

Lemma parse_int_steady (s : jsstring) (i : N) (r : jsstring) :
  parse_int s = Some (i, r) -> steady s r.
Proof.
  unfold parse_int. destruct s as [|c t]; [discriminate|].
  destruct (N.eqb_spec c 48) as [->|Hz].
  - intros H. inversion H; subst. now apply steady_cons.
  - destruct (is_digit c) eqn:Ed; [|discriminate].
    destruct (digits (c :: t) 0 0) as [[m k] r'] eqn:E. intros H. inversion H; subst.
    now apply digits_steady in E.
Qed.

Lemma parse_fraction_steady (m : N) (s : jsstring) (m' : N) (k : nat) (r : jsstring) :
  parse_fraction m s = Some (m', k, r) -> steady s r.
Proof.
  unfold parse_fraction. destruct s as [|c t].
  - intros H. inversion H; subst. apply steady_refl.
  - destruct (N.eqb_spec c 46) as [->|Hd].
    + destruct (digits t m 0) as [[a j] r'] eqn:E.
      destruct j; [discriminate|]. intros H. inversion H; subst.
      eapply steady_trans; [now apply steady_cons|]. now apply digits_steady in E.
    + intros H. inversion H; subst. apply steady_refl.
Qed.

Lemma parse_exponent_steady (s : jsstring) (e : Z) (r : jsstring) :
  parse_exponent s = Some (e, r) -> steady s r.
Proof.
  unfold parse_exponent. destruct s as [|c t].
  - intros H. inversion H; subst. apply steady_refl.
  - destruct (N.eqb c 101 || N.eqb c 69) eqn:Ee.
    + assert (Hc : plain c = true).
      { apply orb_true_iff in Ee as [Ee|Ee]; apply N.eqb_eq in Ee; subst; reflexivity. }
      assert (Hsign : forall sign r1,
                 (match t with
                  | d :: r' => if N.eqb d 45 then (true, r')
                               else if N.eqb d 43 then (false, r') else (false, t)
                  | [] => (false, t)
                  end) = (sign, r1) -> steady t r1).
      { intros sign r1 Hs. destruct t as [|d r'].
        - inversion Hs; subst. apply steady_refl.
        - destruct (N.eqb_spec d 45) as [->|].
          + inversion Hs; subst. now apply steady_cons.
          + destruct (N.eqb_spec d 43) as [->|].
            * inversion Hs; subst. now apply steady_cons.
            * inversion Hs; subst. apply steady_refl. }
      destruct (match t with
                | d :: r' => if N.eqb d 45 then (true, r')
                             else if N.eqb d 43 then (false, r') else (false, t)
                | [] => (false, t)
                end) as [sign r1] eqn:Es.
      pose proof (Hsign _ _ eq_refl) as Hs1.
      destruct (digits r1 0 0) as [[a j] r2] eqn:E.
      destruct j; [discriminate|]. intros H. inversion H; subst.
      eapply steady_trans; [now apply steady_cons|].
      eapply steady_trans; [exact Hs1 | now apply digits_steady in E].
    + intros H. inversion H; subst. apply steady_refl.
Qed.

Lemma parse_number_steady (s : jsstring) (n : number) (r : jsstring) :
  parse_number s = Some (n, r) -> steady s r.
Proof.
  unfold parse_number.
  assert (Hsign : forall sign s1,
             (match s with
              | c :: r => if N.eqb c 45 then (true, r) else (false, s)
              | [] => (false, s)
              end) = (sign, s1) -> steady s s1).
  { intros sign s1 Hs. destruct s as [|c t].
    - inversion Hs; subst. apply steady_refl.
    - destruct (N.eqb_spec c 45) as [->|].
      + inversion Hs; subst. now apply steady_cons.
      + inversion Hs; subst. apply steady_refl. }
  destruct (match s with
            | c :: r => if N.eqb c 45 then (true, r) else (false, s)
            | [] => (false, s)
            end) as [sign s1] eqn:Es.
  pose proof (Hsign _ _ eq_refl) as Hs1.
  destruct (parse_int s1) as [[i s2]|] eqn:Ei; [|discriminate].
  destruct (parse_fraction i s2) as [[[m k] s3]|] eqn:Ef; [|discriminate].
  destruct (parse_exponent s3) as [[e s4]|] eqn:Ee; [|discriminate].
  intros H. inversion H; subst.
  apply parse_int_steady in Ei. apply parse_fraction_steady in Ef.
  apply parse_exponent_steady in Ee.
  eapply steady_trans; [exact Hs1|].
  eapply steady_trans; [exact Ei|].
  eapply steady_trans; [exact Ef | exact Ee].
Qed.

End SteadyScan.

Section SteadyValues.

Lemma steady_step (c : char) (s : jsstring) (stk : list char) :
  plain c = true ->
  scan_from (open_state stk) (c :: s) = scan_from (open_state stk) s.
Proof. intros H. now apply steady_cons. Qed.

Lemma scan_from_opening (stk : list char) (c : char) (s : jsstring) :
  is_opener c ->
  scan_from (open_state stk) (c :: s)
  = scan_from (open_state (stk ++ [closer_of c])) s.
Proof.
  intros Hc. rewrite scan_from_cons. f_equal.
  destruct Hc as [-> | ->]; reflexivity.
Qed.

Lemma scan_from_closing (stk : list char) (c : char) (s : jsstring) :
  is_closer c ->
  scan_from (open_state (stk ++ [c])) (c :: s) = scan_from (open_state stk) s.
Proof. intros Hc. rewrite scan_from_cons. now rewrite scan_char_matching. Qed.

(** A value leaves the stack as it found it; the elements of an array and
    the members of an object, read up to the closing bracket or brace,
    take the closer pushed at the opening off the stack. *)
Lemma parse_value_steady (fuel : nat) :
  (forall s v r, parse_value fuel s = Ok v r -> steady s r)
  /\ (forall acc s v r, parse_elements fuel acc s = Ok v r ->
        forall stk, scan_from (open_state (stk ++ [rbracket])) s
                    = scan_from (open_state stk) r)
  /\ (forall acc s v r, parse_members fuel acc s = Ok v r ->
        forall stk, scan_from (open_state (stk ++ [rbrace])) s
                    = scan_from (open_state stk) r).
Proof.
  induction fuel as [|fuel (IHv & IHe & IHm)].
  { repeat split; intros; discriminate. }
  split; [|split].
  - intros s v r H. cbn [parse_value] in H.
    destruct s as [|c t]; [discriminate|].
    destruct (N.eqb_spec c lbrace) as [->|Hb].
    { destruct (skip_ws t) as [|c' r'] eqn:E; [discriminate|].
      intros stk. rewrite (scan_from_opening stk lbrace t (or_introl eq_refl)).
      rewrite (skip_ws_steady t), E.
      destruct (N.eqb_spec c' rbrace) as [->|].
      - inversion H; subst. apply scan_from_closing. now left.
      - now apply (IHm _ _ _ _ H). }
    destruct (N.eqb_spec c lbracket) as [->|Hk].
    { destruct (skip_ws t) as [|c' r'] eqn:E; [discriminate|].
      intros stk. rewrite (scan_from_opening stk lbracket t (or_intror eq_refl)).
      rewrite (skip_ws_steady t), E.
      destruct (N.eqb_spec c' rbracket) as [->|].
      - inversion H; subst. apply scan_from_closing. now right.
      - now apply (IHe _ _ _ _ H). }
    destruct (N.eqb_spec c dquote) as [->|Hq].
    { destruct (parse_chars t []) as [[str r']|] eqn:E; [|discriminate].
      inversion H; subst. now apply string_literal_steady in E. }
    destruct (N.eqb c 116).
    { destruct (expect (js "true") (c :: t)) as [r'|] eqn:E; [|discriminate].
      inversion H; subst. eapply expect_steady; [|exact E]. reflexivity. }
    destruct (N.eqb c 102).
    { destruct (expect (js "false") (c :: t)) as [r'|] eqn:E; [|discriminate].
      inversion H; subst. eapply expect_steady; [|exact E]. reflexivity. }
    destruct (N.eqb c 110).
    { destruct (expect (js "null") (c :: t)) as [r'|] eqn:E; [|discriminate].
      inversion H; subst. eapply expect_steady; [|exact E]. reflexivity. }
    destruct (parse_number (c :: t)) as [[n r']|] eqn:E; [|discriminate].
    inversion H; subst. now apply parse_number_steady in E.
  - intros acc s v r H stk. cbn [parse_elements] in H.
    destruct (parse_value fuel s) as [v1 r1| |] eqn:Ev; try discriminate.
    apply IHv in Ev. rewrite Ev.
    destruct (skip_ws r1) as [|c r'] eqn:E; [discriminate|].
    rewrite (skip_ws_steady r1), E.
    destruct (N.eqb_spec c comma) as [->|].
    { rewrite steady_step by reflexivity. rewrite (skip_ws_steady r').
      now apply (IHe _ _ _ _ H). }
    destruct (N.eqb_spec c rbracket) as [->|]; [|discriminate].
    inversion H; subst. apply scan_from_closing. now right.
  - intros acc s v r H stk. cbn [parse_members] in H.
    destruct s as [|q t]; [discriminate|].
    destruct (N.eqb_spec q dquote) as [->|]; [|discriminate].
    destruct (parse_chars t []) as [[k r1]|] eqn:Ek; [|discriminate].
    apply string_literal_steady in Ek. rewrite Ek.
    destruct (skip_ws r1) as [|c1 r2] eqn:E1; [discriminate|].
    rewrite (skip_ws_steady r1), E1.
    destruct (N.eqb_spec c1 colon) as [->|]; [|discriminate].
    rewrite steady_step by reflexivity. rewrite (skip_ws_steady r2).
    destruct (parse_value fuel (skip_ws r2)) as [v1 r3| |] eqn:Ev; try discriminate.
    apply IHv in Ev. rewrite Ev.
    destruct (skip_ws r3) as [|c3 r4] eqn:E3; [discriminate|].
    rewrite (skip_ws_steady r3), E3.
    destruct (N.eqb_spec c3 comma) as [->|].
    { rewrite steady_step by reflexivity. rewrite (skip_ws_steady r4).
      now apply (IHm _ _ _ _ H). }
    destruct (N.eqb_spec c3 rbrace) as [->|]; [|discriminate].
    inversion H; subst. apply scan_from_closing. now left.
Qed.

Lemma parse_text_steady (text : jsstring) (v : value) :
  parse_text text = Some v -> scan text = scan_init.
Proof.
  unfold parse_text. intros H.
  destruct (parse_value (2 * List.length text + 1) (skip_ws text)) as [v1 r| |] eqn:E;
    try discriminate.
  destruct (skip_ws r) eqn:Er; [|discriminate].
  apply (proj1 (parse_value_steady _)) in E.
  unfold scan. change scan_init with (open_state []).
  rewrite (skip_ws_steady text), E, (skip_ws_steady r), Er. reflexivity.
Qed.

End SteadyValues.

(** ** More on the recovery *)

Section Recovery.

Lemma scan_char_flags (st : scan_state) (c : char) :
  (inString st = false -> escaped st = false) ->
  inString (scan_char st c) = false -> escaped (scan_char st c) = false.
Proof.
  destruct st as [stk ins esc]. unfold scan_char. simpl. intros Hinv.
  destruct (N.eqb c dquote); simpl.
  - destruct esc; simpl.
    + destruct ins; simpl; [discriminate|]. intros _. now apply Hinv.
    + destruct ins; simpl; [reflexivity | discriminate].
  - destruct ins; simpl; [discriminate|]. intros _. now apply Hinv.
Qed.

Lemma scan_from_flags (s : jsstring) :
  forall st, (inString st = false -> escaped st = false) ->
    inString (scan_from st s) = false -> escaped (scan_from st s) = false.
Proof.
  induction s as [|c s IH]; intros st Hinv; [exact Hinv|].
  rewrite scan_from_cons. apply IH. now apply scan_char_flags.
Qed.

(** Outside of a string the scan has no escape pending. *)
Lemma scan_outside_is_open (s : jsstring) :
  inString (scan s) = false -> scan s = open_state (stack (scan s)).
Proof.
  unfold scan. intros H.
  pose proof (scan_from_flags s scan_init (fun _ => eq_refl) H) as He.
  destruct (scan_from scan_init s) as [stk ins esc]. simpl in *. now subst.
Qed.

(** The closers of a stack, last pushed first, empty it. *)
Lemma scan_from_drains (b : list char) :
  forall a, Forall is_closer b ->
    scan_from (open_state (a ++ b)) (rev b) = open_state a.
Proof.
  induction b as [|c b IH] using rev_ind; intros a H.
  - simpl. now rewrite app_nil_r.
  - apply Forall_app in H as [Hb Hc]. inversion Hc as [|? ? Hc' _]; subst.
    rewrite rev_app_distr. change (rev [c] ++ rev b) with (c :: rev b).
    rewrite app_assoc, scan_from_closing by exact Hc'. now apply IH.
Qed.

Lemma quoteCount_app (a b : jsstring) :
  quoteCount (a ++ b) = quoteCount a + quoteCount b.
Proof. unfold quoteCount. now rewrite filter_app, length_app. Qed.

Lemma quoteCount_closers (cs : jsstring) :
  Forall is_closer cs -> quoteCount cs = 0.
Proof.
  unfold quoteCount. induction 1 as [|c cs Hc _ IH]; [reflexivity|].
  simpl. destruct Hc as [-> | ->]; exact IH.
Qed.

Lemma quoteCount_recoveryStep1 (t : jsstring) :
  Nat.odd (quoteCount (recoveryStep1 t)) = false.
Proof.
  rewrite recoveryStep1_appends, quoteCount_app.
  destruct (Nat.odd (quoteCount t)) eqn:E.
  - change (quoteCount [dquote]) with 1. rewrite Nat.add_1_r, Nat.odd_succ.
    rewrite <- Nat.negb_odd, E. reflexivity.
  - change (quoteCount []) with 0. now rewrite Nat.add_0_r.
Qed.

Lemma quoteCount_repaired (t : jsstring) :
  quoteCount (repaired t) = quoteCount (recoveryStep1 t).
Proof.
  unfold repaired. rewrite recoveryStep2_appends, quoteCount_app.
  rewrite (quoteCount_closers (rev (stack (scan (recoveryStep1 t))))).
  - apply Nat.add_0_r.
  - apply Forall_rev, scan_closers.
Qed.

Lemma scan_repaired (t : jsstring) :
  inString (scan (recoveryStep1 t)) = false -> scan (repaired t) = scan_init.
Proof.
  intros H. unfold repaired. rewrite recoveryStep2_appends.
  unfold scan at 1. rewrite scan_from_app.
  change (scan_from scan_init (recoveryStep1 t)) with (scan (recoveryStep1 t)).
  rewrite (scan_outside_is_open _ H).
  apply (scan_from_drains (stack (scan (recoveryStep1 t))) []).
  apply scan_closers.
Qed.

End Recovery.

(** X1: a text that [JSON.parse] accepts takes the scan back to its
    initial state, with an empty stack, outside of any string: step 2 of
    the recovery would append nothing to it. *)
Theorem accepted_text_is_balanced :
  forall text v, JSON_parse text = Return v ->
    scan text = scan_init /\ recoveryStep2 text = text.
Proof.
  intros text v H. unfold JSON_parse in H.
  destruct (parse_text text) as [lit|] eqn:E; [|discriminate].
  apply parse_text_steady in E. split; [exact E|].
  rewrite recoveryStep2_appends, E. simpl. now rewrite app_nil_r.
Qed.

(** Witness for [accepted_text_is_balanced]: brackets and braces inside
    strings and an escaped quote. *)
Lemma accepted_text_is_balanced_witness :
  recoveryStep2 (js "{'a]': [{'}\'': null}, '[']}") = js "{'a]': [{'}\'': null}, '[']}".
Proof.
  refine (proj2 (accepted_text_is_balanced (js "{'a]': [{'}\'': null}, '[']}") _ _)).
  vm_compute. reflexivity.
Defined.

(** X2: when the scan of the quote-patched text ends outside of a string,
    the repaired text closes every bracket the scan holds open: scanned
    again, it ends with an empty stack, outside of any string. *)
Theorem repaired_text_is_balanced :
  forall trimmed,
    inString (scan (recoveryStep1 trimmed)) = false ->
    scan (repaired trimmed) = scan_init.
Proof. exact scan_repaired. Qed.

(** Witness for [repaired_text_is_balanced]: a stray closer and three
    openings. *)
Lemma repaired_text_is_balanced_witness :
  scan (repaired (js "]{'k': [[1, 'x")) = scan_init.
Proof. apply (repaired_text_is_balanced (js "]{'k': [[1, 'x")). reflexivity. Defined.

(** X3: the repaired text always holds an even number of double quotes,
    and repairing is idempotent on a text whose patched scan ends outside
    of a string: repairing the repaired text changes nothing. *)
Theorem repair_is_idempotent :
  (forall trimmed, Nat.even (quoteCount (repaired trimmed)) = true)
  /\ (forall trimmed,
        inString (scan (recoveryStep1 trimmed)) = false ->
        repaired (repaired trimmed) = repaired trimmed).
Proof.
  split.
  - intros t. rewrite quoteCount_repaired, <- Nat.negb_odd.
    now rewrite quoteCount_recoveryStep1.
  - intros t H.
    assert (E1 : recoveryStep1 (repaired t) = repaired t).
    { rewrite recoveryStep1_appends, quoteCount_repaired, quoteCount_recoveryStep1.
      now rewrite app_nil_r. }
    unfold repaired at 1. rewrite E1, recoveryStep2_appends.
    rewrite (scan_repaired t H). simpl. now rewrite app_nil_r.
Qed.

(** Witness for [repair_is_idempotent]: an object cut inside a string. *)
Lemma repair_is_idempotent_witness :
  repaired (repaired (js "{'a': ['hel")) = repaired (js "{'a': ['hel").
Proof. apply (proj2 repair_is_idempotent (js "{'a': ['hel")). reflexivity. Defined.

(** ** Arrays cut at any depth *)

Section NestedArrays.

Lemma parse_nested_arrays (n : nat) :
  forall fuel rest, 2 * n + 1 <= fuel ->
    parse_value fuel (repeat lbracket (S n) ++ repeat rbracket (S n) ++ rest)
    = Ok (nested_arrays n) rest.
Proof.
  induction n as [|n IH]; intros fuel rest Hf.
  - destruct fuel as [|fuel]; [lia|]. reflexivity.
  - destruct fuel as [|[|fuel]]; try lia.
    change (repeat lbracket (S (S n)) ++ repeat rbracket (S (S n)) ++ rest)
      with (lbracket :: (repeat lbracket (S n) ++ repeat rbracket (S (S n)) ++ rest)).
    cbn [parse_value].
    change (N.eqb lbracket lbrace) with false.
    change (N.eqb lbracket lbracket) with true. cbv iota.
    change (repeat lbracket (S n) ++ repeat rbracket (S (S n)) ++ rest)
      with (lbracket :: (repeat lbracket n ++ repeat rbracket (S (S n)) ++ rest)).
    change (skip_ws (lbracket :: (repeat lbracket n ++ repeat rbracket (S (S n)) ++ rest)))
      with (lbracket :: (repeat lbracket n ++ repeat rbracket (S (S n)) ++ rest)).
    change (N.eqb lbracket rbracket) with false. cbv iota.
    cbn [parse_elements].
    change (lbracket :: (repeat lbracket n ++ repeat rbracket (S (S n)) ++ rest))
      with (repeat lbracket (S n) ++ repeat rbracket (S (S n)) ++ rest).
    replace (repeat rbracket (S (S n)) ++ rest)
      with (repeat rbracket (S n) ++ rbracket :: rest)
      by (change (repeat rbracket (S (S n))) with (rbracket :: repeat rbracket (S n));
          rewrite (repeat_cons (S n) rbracket), <- app_assoc; reflexivity).
    rewrite IH by lia. reflexivity.
Qed.

Lemma evaluate_nested_arrays (n : nat) :
  evaluate (nested_arrays n) = nested_arrays n.
Proof. induction n as [|n IH]; simpl; [reflexivity | now rewrite IH]. Qed.

Lemma Forall_opener_repeat (n : nat) : Forall is_opener (repeat lbracket n).
Proof. induction n; simpl; constructor; [now right | assumption]. Qed.

Lemma closers_of_brackets (n : nat) :
  rev (List.map closer_of (repeat lbracket n)) = repeat rbracket n.
Proof. now rewrite map_repeat, rev_repeat. Qed.

Lemma trim_brackets (n : nat) :
  trim (repeat lbracket (S n)) = repeat lbracket (S n).
Proof.
  unfold trim. change (trimStart (repeat lbracket (S n))) with (repeat lbracket (S n)).
  unfold trimEnd. rewrite rev_repeat.
  change (trimStart (repeat lbracket (S n))) with (repeat lbracket (S n)).
  apply rev_repeat.
Qed.

Lemma open_brackets_rejected (n : nat) :
  JSON_parse (repeat lbracket (S n)) = Throw SyntaxError.
Proof.
  unfold JSON_parse.
  destruct (parse_text (repeat lbracket (S n))) as [v|] eqn:E; [|reflexivity].
  apply parse_text_steady in E. unfold scan, scan_init in E.
  rewrite (scan_from_opens _ [] (Forall_opener_repeat (S n))) in E.
  discriminate E.
Qed.

Lemma quoteCount_brackets (n : nat) : quoteCount (repeat lbracket n) = 0.
Proof. induction n; [reflexivity | exact IHn]. Qed.

Lemma repaired_brackets (n : nat) :
  repaired (repeat lbracket n) = repeat lbracket n ++ repeat rbracket n.
Proof.
  unfold repaired.
  assert (E : recoveryStep1 (repeat lbracket n) = repeat lbracket n).
  { rewrite recoveryStep1_appends, quoteCount_brackets. apply app_nil_r. }
  rewrite E, recoveryStep2_appends. unfold scan, scan_init.
  rewrite (scan_from_opens _ [] (Forall_opener_repeat n)).
  simpl stack. now rewrite closers_of_brackets.
Qed.

End NestedArrays.

(** X4: opening brackets alone, at any depth, are recovered: on [S n]
    opening brackets [robustParseJSON] returns [S n] empty arrays, one
    inside the other, after one warning. *)
Theorem open_brackets_recovered :
  forall n,
    robustParseJSON (repeat lbracket (S n))
    = {| console := [console_warn recovery_warning SyntaxError];
         outcome := Return (nested_arrays n) |}.
Proof.
  intros n. unfold robustParseJSON.
  rewrite trim_brackets, open_brackets_rejected, repaired_brackets.
  unfold JSON_parse, parse_text.
  change (skip_ws (repeat lbracket (S n) ++ repeat rbracket (S n)))
    with (repeat lbracket (S n) ++ repeat rbracket (S n)).
  rewrite <- (app_nil_r (repeat rbracket (S n))) at 2.
  rewrite parse_nested_arrays.
  - cbv beta iota. change (skip_ws []) with (@nil char). cbv beta iota.
    now rewrite evaluate_nested_arrays.
  - rewrite length_app, !repeat_length. lia.
Qed.

(** ** Properties of objects built by [CreateDataProperty] *)

Section Properties.

Lemma string_eqb_eq (a b : jsstring) : string_eqb a b = true <-> a = b.
Proof.
  revert b. induction a as [|x a IH]; intros [|y b]; simpl; split;
    try discriminate; try reflexivity.
  - intros H. apply andb_true_iff in H as [H1 H2].
    apply N.eqb_eq in H1. apply IH in H2. now subst.
  - intros H. inversion H; subst. rewrite N.eqb_refl. simpl. now apply IH.
Qed.

Lemma string_eqb_refl (a : jsstring) : string_eqb a a = true.
Proof. now apply string_eqb_eq. Qed.

Lemma string_eqb_neq (a b : jsstring) : string_eqb a b = false <-> a <> b.
Proof.
  split.
  - intros H E. apply string_eqb_eq in E. congruence.
  - intros H. destruct (string_eqb a b) eqn:E; [|reflexivity].
    apply string_eqb_eq in E. contradiction.
Qed.

Lemma has_key_In (k : jsstring) (props : list (jsstring * value)) :
  has_key k props = true <-> In k (List.map fst props).
Proof.
  induction props as [|[k' v'] props IH]; simpl; [split; [discriminate | tauto]|].
  rewrite orb_true_iff, IH, string_eqb_eq. split; intros [H|H]; auto.
Qed.

Lemma has_key_get (k : jsstring) (props : list (jsstring * value)) :
  has_key k props = false <-> get props k = None.
Proof.
  induction props as [|[k' v'] props IH]; simpl; [tauto|].
  destruct (string_eqb k k'); simpl; [split; discriminate | exact IH].
Qed.

Lemma has_key_get_Some (k : jsstring) (props : list (jsstring * value)) :
  has_key k props = true <-> get props k <> None.
Proof.
  rewrite <- has_key_get. destruct (has_key k props); split; congruence.
Qed.

Lemma set_value_keys (k : jsstring) (v : value) (props : list (jsstring * value)) :
  List.map fst (set_value k v props) = List.map fst props.
Proof.
  induction props as [|[k' v'] props IH]; simpl; [reflexivity|].
  destruct (string_eqb k k'); simpl; [reflexivity | now rewrite IH].
Qed.

Lemma insert_index_Add (i : N) (k : jsstring) (v : value) (props : list (jsstring * value)) :
  Add k (List.map fst props) (List.map fst (insert_index i k v props)).
Proof.
  induction props as [|[k' v'] props IH]; simpl; [constructor|].
  destruct (array_index k') as [j|]; [|constructor].
  destruct (N.ltb j i); simpl; constructor. exact IH.
Qed.

Lemma CreateDataProperty_Add (props : list (jsstring * value)) (k : jsstring) (v : value) :
  has_key k props = false ->
  Add k (List.map fst props) (List.map fst (CreateDataProperty props k v)).
Proof.
  intros H. unfold CreateDataProperty. rewrite H.
  destruct (array_index k); [apply insert_index_Add|].
  rewrite map_app. simpl.
  rewrite <- (app_nil_r (List.map fst props)) at 1. apply Add_app.
Qed.

(** Keys stay pairwise distinct. *)
Lemma CreateDataProperty_NoDup (props : list (jsstring * value)) (k : jsstring) (v : value) :
  NoDup (List.map fst props) -> NoDup (List.map fst (CreateDataProperty props k v)).
Proof.
  intros H. destruct (has_key k props) eqn:E.
  - unfold CreateDataProperty. rewrite E. now rewrite set_value_keys.
  - apply (NoDup_Add (CreateDataProperty_Add props k v E)). split; [exact H|].
    intros Hin. apply has_key_In in Hin. congruence.
Qed.

Lemma define_all_NoDup (B : Type) (f : B -> jsstring) (g : B -> value) (ms : list B) :
  forall acc, NoDup (List.map fst acc) ->
    NoDup (List.map fst (fold_left (fun props m => CreateDataProperty props (f m) (g m)) ms acc)).
Proof.
  induction ms as [|m ms IH]; intros acc H; simpl; [exact H|].
  apply IH. now apply CreateDataProperty_NoDup.
Qed.

Lemma get_set_value (k : jsstring) (v : value) (props : list (jsstring * value)) (k' : jsstring) :
  has_key k props = true ->
  get (set_value k v props) k' = if string_eqb k' k then Some v else get props k'.
Proof.
  induction props as [|[k0 v0] props IH]; simpl; [discriminate|].
  intros H. destruct (string_eqb k k0) eqn:E; simpl.
  - apply string_eqb_eq in E. subst k0.
    destruct (string_eqb k' k); reflexivity.
  - simpl in H. destruct (string_eqb k' k0) eqn:E0.
    + apply string_eqb_eq in E0. subst k0.
      destruct (string_eqb k' k) eqn:E1; [|reflexivity].
      apply string_eqb_eq in E1. subst k'. rewrite string_eqb_refl in E. discriminate.
    + now apply IH.
Qed.

Lemma get_insert_index (i : N) (k : jsstring) (v : value)
      (props : list (jsstring * value)) (k' : jsstring) :
  has_key k props = false ->
  get (insert_index i k v props) k' = if string_eqb k' k then Some v else get props k'.
Proof.
  induction props as [|[k0 v0] props IH]; simpl; [reflexivity|].
  intros H. apply orb_false_iff in H as [H0 H].
  destruct (array_index k0) as [j|]; [|reflexivity].
  destruct (N.ltb j i); [|reflexivity]. simpl.
  destruct (string_eqb k' k0) eqn:E0; [|now apply IH].
  apply string_eqb_eq in E0. subst k0.
  destruct (string_eqb k' k) eqn:E1; [|reflexivity].
  apply string_eqb_eq in E1. subst k'. rewrite string_eqb_refl in H0. discriminate.
Qed.

Lemma get_app_new (k : jsstring) (v : value) (props : list (jsstring * value)) (k' : jsstring) :
  has_key k props = false ->
  get (props ++ [(k, v)]) k' = if string_eqb k' k then Some v else get props k'.
Proof.
  induction props as [|[k0 v0] props IH]; simpl; [reflexivity|].
  intros H. apply orb_false_iff in H as [H0 H].
  destruct (string_eqb k' k0) eqn:E0; [|now apply IH].
  apply string_eqb_eq in E0. subst k0.
  destruct (string_eqb k' k) eqn:E1; [|reflexivity].
  apply string_eqb_eq in E1. subst k'. rewrite string_eqb_refl in H0. discriminate.
Qed.

(** Reading a property back: the one defined has the new value, the
    others are untouched. *)
Lemma get_CreateDataProperty (props : list (jsstring * value)) (k : jsstring) (v : value)
      (k' : jsstring) :
  get (CreateDataProperty props k v) k'
  = if string_eqb k' k then Some v else get props k'.
Proof.
  unfold CreateDataProperty. destruct (has_key k props) eqn:E.
  - now apply get_set_value.
  - destruct (array_index k); [now apply get_insert_index | now apply get_app_new].
Qed.

Lemma get_not_In (props : list (jsstring * value)) (k : jsstring) :
  ~ In k (List.map fst props) -> get props k = None.
Proof.
  intros H. apply has_key_get. destruct (has_key k props) eqn:E; [|reflexivity].
  apply has_key_In in E. contradiction.
Qed.

(** Copying properties with distinct keys one by one keeps each of them. *)
Lemma get_copy (ms : list (jsstring * value)) :
  forall acc k, NoDup (List.map fst ms) ->
    get (fold_left (fun props m => CreateDataProperty props (fst m) (snd m)) ms acc) k
    = match get ms k with Some v => Some v | None => get acc k end.
Proof.
  induction ms as [|[k0 v0] ms IH]; intros acc k H; simpl; [reflexivity|].
  inversion H as [|? ? Hnot Hrest]; subst.
  rewrite IH by exact Hrest. rewrite get_CreateDataProperty.
  destruct (string_eqb k k0) eqn:E; [|reflexivity].
  apply string_eqb_eq in E. subst k0. now rewrite (get_not_In ms k Hnot).
Qed.

(** The keys of an object that [JSON.parse] returns are pairwise distinct. *)
Lemma evaluate_object_NoDup (lit : value) (props : list (jsstring * value)) :
  evaluate lit = JObject props -> NoDup (List.map fst props).
Proof.
  destruct lit; simpl; try discriminate. intros H. inversion H; subst.
  apply (define_all_NoDup _ fst (fun m => evaluate (snd m))). constructor.
Qed.

Lemma robustParseJSON_evaluates (text : jsstring) (v : value) :
  outcome (robustParseJSON text) = Return v -> exists lit, v = evaluate lit.
Proof.
  unfold robustParseJSON, JSON_parse.
  destruct (parse_text (trim text)) as [lit|]; cbv beta iota zeta.
  - intros H. inversion H. now exists lit.
  - destruct (parse_text (repaired (trim text))) as [lit|]; cbv beta iota zeta;
      intros H; inversion H. now exists lit.
Qed.

End Properties.

(** ** Properties of [analyzeTopic] *)

Section AnalyzeTopic.

Lemma analyzeTopic_response_parsed (response : Analyze.GenerateContentResponse)
      (rawText : jsstring) (parsed : value) :
  Analyze.text response = Some rawText ->
  outcome (robustParseJSON rawText) = Return parsed ->
  outcome (Analyze.analyzeTopic_response response)
  = Return (JObject (Analyze.spread_with_sources parsed (Analyze.sources_value response))).
Proof.
  intros Ht Hp. unfold Analyze.analyzeTopic_response. rewrite Ht.
  destruct rawText as [|c r]; [discriminate Hp|]. now rewrite Hp.
Qed.

Lemma analyzeTopic_response_inv (response : Analyze.GenerateContentResponse) (v : value) :
  outcome (Analyze.analyzeTopic_response response) = Return v ->
  exists rawText parsed,
    Analyze.text response = Some rawText
    /\ outcome (robustParseJSON rawText) = Return parsed
    /\ v = JObject (Analyze.spread_with_sources parsed (Analyze.sources_value response)).
Proof.
  unfold Analyze.analyzeTopic_response.
  destruct (Analyze.text response) as [[|c r]|]; try (intros H; discriminate H).
  cbv zeta.
  destruct (outcome (robustParseJSON (c :: r))) as [parsed|e] eqn:E;
    intros H; inversion H.
  exists (c :: r), parsed. auto.
Qed.

Lemma or_else_nonempty (x : option jsstring) (d : jsstring) :
  d <> [] -> Analyze.or_else x d <> [].
Proof. intros Hd. destruct x as [[|c r]|]; simpl; try exact Hd. discriminate. Qed.

End AnalyzeTopic.

(** X5: a response without text, or with the empty text, makes
    [analyzeTopic] throw its own error about an empty report, with no
    parse attempted; a text that is not empty but holds white space only
    goes to the parser and comes back as [MalformedOutput]. *)
Theorem empty_report_is_not_parsed :
  (forall response,
     Analyze.text response = None \/ Analyze.text response = Some [] ->
     Analyze.analyzeTopic_response response
     = {| console := []; outcome := Throw Analyze.empty_report |})
  /\ (forall response c t,
        Analyze.text response = Some (c :: t) ->
        forallb is_white_space (c :: t) = true ->
        outcome (Analyze.analyzeTopic_response response) = Throw MalformedOutput).
Proof.
  split.
  - intros response [H | H]; unfold Analyze.analyzeTopic_response; now rewrite H.
  - intros response c t Ht Hws. unfold Analyze.analyzeTopic_response. rewrite Ht.
    unfold robustParseJSON. rewrite (trim_ws _ Hws). reflexivity.
Qed.

(** Witness for [empty_report_is_not_parsed]: no text at all, and a text
    of two spaces. *)
Lemma empty_report_is_not_parsed_witness :
  Analyze.analyzeTopic_response
    {| Analyze.text := None; Analyze.candidates := None |}
  = {| console := []; outcome := Throw Analyze.empty_report |}
  /\ outcome (Analyze.analyzeTopic_response
                {| Analyze.text := Some [32; 32]%N; Analyze.candidates := None |})
     = Throw MalformedOutput.
Proof.
  split.
  - apply (proj1 empty_report_is_not_parsed). left. reflexivity.
  - apply (proj2 empty_report_is_not_parsed _ 32%N [32%N]); reflexivity.
Defined.

(** X6: whatever the parsed text holds, a result of [analyzeTopic] is an
    object with pairwise distinct keys whose [sources] property is the
    list computed from the grounding chunks: a [sources] member of the
    parsed text never comes through. *)
Theorem result_carries_computed_sources :
  forall response v,
    outcome (Analyze.analyzeTopic_response response) = Return v ->
    exists props,
      v = JObject props
      /\ get props (js "sources") = Some (Analyze.sources_value response)
      /\ NoDup (List.map fst props).
Proof.
  intros response v H.
  destruct (analyzeTopic_response_inv response v H) as (rawText & parsed & _ & _ & ->).
  eexists. split; [reflexivity|]. unfold Analyze.spread_with_sources. split.
  - rewrite get_CreateDataProperty. now rewrite string_eqb_refl.
  - apply CreateDataProperty_NoDup. apply (define_all_NoDup _ fst snd). constructor.
Qed.

(** Witness for [result_carries_computed_sources]: the text carries its
    own sources, the response one chunk. *)
Lemma result_carries_computed_sources_witness :
  let response :=
    {| Analyze.text := Some (js "{'sources': [1], 'topic': 't'}");
       Analyze.candidates :=
         Some [ {| Analyze.groundingMetadata :=
                     Some {| Analyze.groundingChunks :=
                               Some [ {| Analyze.web :=
                                           Some {| Analyze.uri := Some (js "u");
                                                   Analyze.title := None |} |} ] |} |} ] |} in
  outcome (Analyze.analyzeTopic_response response)
  = Return (JObject
              [(js "sources",
                JArray [JObject [(js "uri", JString (js "u"));
                                 (js "title", JString (js "Research Source"))]]);
               (js "topic", JString (js "t"))])
  /\ exists props,
       JObject
         [(js "sources",
           JArray [JObject [(js "uri", JString (js "u"));
                            (js "title", JString (js "Research Source"))]]);
          (js "topic", JString (js "t"))] = JObject props
       /\ get props (js "sources") = Some (Analyze.sources_value response)
       /\ NoDup (List.map fst props).
Proof.
  intros response.
  assert (E : outcome (Analyze.analyzeTopic_response response)
              = Return (JObject
                          [(js "sources",
                            JArray [JObject [(js "uri", JString (js "u"));
                                             (js "title", JString (js "Research Source"))]]);
                           (js "topic", JString (js "t"))]))
    by (vm_compute; reflexivity).
  split; [exact E|].
  exact (result_carries_computed_sources response _ E).
Defined.

(** X7: every source [analyzeTopic] attaches has a non-empty [uri], taken
    from a grounding chunk of the first candidate, and a non-empty
    [title]; there are at most as many sources as chunks, and none when
    the response has no candidate, no grounding metadata or no chunks. *)
Theorem sources_have_uri_and_title :
  forall response,
    Forall (fun s => fst s <> [] /\ snd s <> []) (Analyze.sources response)
    /\ (forall s, In s (Analyze.sources response) ->
          exists chunks chunk w,
            Analyze.chunks_of response = Some chunks /\ In chunk chunks
            /\ Analyze.web chunk = Some w /\ Analyze.uri w = Some (fst s))
    /\ (forall chunks, Analyze.chunks_of response = Some chunks ->
          List.length (Analyze.sources response) <= List.length chunks)
    /\ (Analyze.chunks_of response = None -> Analyze.sources response = []).
Proof.
  intros response. unfold Analyze.sources.
  destruct (Analyze.chunks_of response) as [chunks|].
  2:{ split; [constructor|]. split; [intros s []|].
      split; [discriminate | reflexivity]. }
  split; [|split; [|split]].
  - apply Forall_forall. intros s Hs. apply filter_In in Hs as [Hin Hne].
    apply in_map_iff in Hin as (chunk & <- & _). split.
    + unfold Analyze.source_of_chunk in *. simpl in *.
      intros E. rewrite E in Hne. discriminate Hne.
    + simpl. apply or_else_nonempty. discriminate.
  - intros s Hs. apply filter_In in Hs as [Hin Hne].
    apply in_map_iff in Hin as (chunk & <- & Hc).
    exists chunks, chunk. unfold Analyze.source_of_chunk in *. simpl in *.
    destruct (Analyze.web chunk) as [w|]; [|simpl in Hne; discriminate Hne].
    exists w. repeat split; try assumption.
    destruct (Analyze.uri w) as [[|c r]|]; simpl in Hne; try discriminate Hne.
    reflexivity.
  - intros chunks' H. inversion H; subst.
    etransitivity; [apply filter_length_le|]. now rewrite length_map.
  - discriminate.
Qed.

(** Witness for [sources_have_uri_and_title]: two chunks, one source. *)
Lemma sources_have_uri_and_title_witness :
  List.length (Analyze.sources sample_response) <= List.length sample_chunks
  /\ Analyze.sources sample_response = [(js "https://a.example", js "Research Source")].
Proof.
  split; [|reflexivity].
  apply (proj1 (proj2 (proj2 (sources_have_uri_and_title sample_response)))).
  reflexivity.
Defined.

(** X8: when the parsed text is an object, every property of it other
    than [sources] is in the result of [analyzeTopic] with the same value,
    and the result has no other key than those and [sources]. *)
Theorem parsed_fields_are_kept :
  forall response rawText props,
    Analyze.text response = Some rawText ->
    outcome (robustParseJSON rawText) = Return (JObject props) ->
    exists props',
      outcome (Analyze.analyzeTopic_response response) = Return (JObject props')
      /\ (forall k, k <> js "sources" -> get props' k = get props k)
      /\ (forall k, has_key k props' = true
                    <-> has_key k props = true \/ k = js "sources").
Proof.
  intros response rawText props Ht Hp.
  rewrite (analyzeTopic_response_parsed response rawText _ Ht Hp).
  eexists. split; [reflexivity|].
  destruct (robustParseJSON_evaluates _ _ Hp) as (lit & Hlit).
  assert (Hnd : NoDup (List.map fst props))
    by (apply (evaluate_object_NoDup lit); now symmetry).
  assert (Hget : forall k,
             get (Analyze.spread_with_sources (JObject props)
                    (Analyze.sources_value response)) k
             = if string_eqb k (js "sources")
               then Some (Analyze.sources_value response) else get props k).
  { intros k. unfold Analyze.spread_with_sources. rewrite get_CreateDataProperty.
    destruct (string_eqb k (js "sources")); [reflexivity|].
    unfold Analyze.own_enumerable. rewrite (get_copy props [] k Hnd).
    destruct (get props k); reflexivity. }
  split.
  - intros k Hk. rewrite Hget. apply string_eqb_neq in Hk. now rewrite Hk.
  - intros k. rewrite !has_key_get_Some, Hget.
    destruct (string_eqb k (js "sources")) eqn:E.
    + apply string_eqb_eq in E. split; [now right | discriminate].
    + apply string_eqb_neq in E. split; [now left | now intros [H | H]].
Qed.

(** Witness for [parsed_fields_are_kept]: a cut report with two fields. *)
Lemma parsed_fields_are_kept_witness :
  let response :=
    {| Analyze.text := Some (js "{'topic': 't', 'disagreements': [");
       Analyze.candidates := None |} in
  exists props',
    outcome (Analyze.analyzeTopic_response response) = Return (JObject props')
    /\ (forall k, k <> js "sources" ->
          get props' k = get [(js "topic", JString (js "t"));
                              (js "disagreements", JArray [])] k)
    /\ (forall k, has_key k props' = true
                  <-> has_key k [(js "topic", JString (js "t"));
                                 (js "disagreements", JArray [])] = true
                      \/ k = js "sources").
Proof.
  intros response.
  apply (parsed_fields_are_kept response (js "{'topic': 't', 'disagreements': [")).
  - reflexivity.
  - vm_compute. reflexivity.
Defined.

(** ** Strings: [trim], [split], [startsWith], [includes] *)

Section Strings.

Lemma trimStart_split (s : jsstring) :
  exists w, s = w ++ trimStart s /\ forallb is_white_space w = true.
Proof.
  induction s as [|c s (w & E & Hw)]; [now exists []|]. simpl.
  destruct (is_white_space c) eqn:Ec.
  - exists (c :: w). simpl. rewrite Ec, Hw. split; [now rewrite <- E | reflexivity].
  - now exists [].
Qed.

Lemma trimStart_head (s : jsstring) (c : char) (r : jsstring) :
  trimStart s = c :: r -> is_white_space c = false.
Proof.
  induction s as [|x s IH]; simpl; [discriminate|].
  destruct (is_white_space x) eqn:E; [exact IH|].
  intros H. inversion H; subst. exact E.
Qed.

Lemma trimStart_fixed (c : char) (r : jsstring) :
  is_white_space c = false -> trimStart (c :: r) = c :: r.
Proof. intros H. simpl. now rewrite H. Qed.

Lemma trim_idempotent (s : jsstring) : trim (trim s) = trim s.
Proof.
  assert (E : trim s = rev (trimStart (rev (trimStart s)))) by reflexivity.
  rewrite E. clear E.
  destruct (trimStart (rev (trimStart s))) as [|c b'] eqn:Eb; [reflexivity|].
  pose proof (trimStart_head _ _ _ Eb) as Hc.
  destruct (trimStart_split (rev (trimStart s))) as (w & Ew & _).
  rewrite Eb in Ew. apply (f_equal (@rev char)) in Ew.
  rewrite rev_involutive, rev_app_distr in Ew.
  destruct (rev (c :: b')) as [|y t] eqn:Er.
  { apply (f_equal (@rev char)) in Er. rewrite rev_involutive in Er. discriminate Er. }
  destruct (trimStart s) as [|x a'] eqn:Ea; [discriminate Ew|].
  pose proof (trimStart_head _ _ _ Ea) as Hx.
  simpl in Ew. inversion Ew; subst y.
  unfold trim, trimEnd. rewrite (trimStart_fixed x t Hx).
  rewrite <- Er, rev_involutive, (trimStart_fixed c b' Hc). reflexivity.
Qed.

Lemma expect_prefix (w s r : jsstring) : expect w s = Some r <-> s = w ++ r.
Proof.
  revert s. induction w as [|a w IH]; intros s; simpl.
  - split; intros H; [now inversion H | now subst].
  - destruct s as [|b s]; [split; discriminate|].
    destruct (N.eqb_spec a b) as [->|Hne].
    + rewrite IH. split; intros H; [now subst | now inversion H].
    + split; [discriminate|]. intros H. inversion H. congruence.
Qed.

Lemma startsWith_prefix (s w : jsstring) :
  Analyze.startsWith s w = true <-> exists r, s = w ++ r.
Proof.
  unfold Analyze.startsWith. destruct (expect w s) as [r|] eqn:E.
  - apply expect_prefix in E. split; [now exists r | reflexivity].
  - split; [discriminate|]. intros (r & Hr). apply expect_prefix in Hr. congruence.
Qed.

Lemma includes_infix (s sub : jsstring) :
  App.includes s sub = true <-> exists a b, s = a ++ sub ++ b.
Proof.
  induction s as [|c s IH]; simpl; rewrite orb_true_iff, startsWith_prefix.
  - split.
    + intros [(r & Hr) | H]; [now exists [], r | discriminate].
    + intros (a & b & H). left. destruct a; [now exists b | discriminate].
  - rewrite IH. split.
    + intros [(r & Hr) | (a & b & H)]; [now exists [], r|].
      exists (c :: a), b. now rewrite H.
    + intros (a & b & H). destruct a as [|x a]; [left; now exists b|].
      right. inversion H. now exists a, b.
Qed.

Lemma split_from_no_separator (sep : char) (s : jsstring) :
  forall cur, forallb (fun c => negb (N.eqb c sep)) s = true ->
    App.split_from sep cur s = [rev cur ++ s].
Proof.
  induction s as [|c s IH]; intros cur H; simpl.
  - now rewrite app_nil_r.
  - simpl in H. apply andb_true_iff in H as [Hc Hs]. apply negb_true_iff in Hc.
    rewrite Hc, IH by exact Hs. simpl. now rewrite <- app_assoc.
Qed.

End Strings.

(** ** The input of the application *)

Section Input.

Lemma strip_spec (w : string) (s : jsstring) (k : jsstring -> bool) :
  App.strip w s k = true <-> exists r, s = js w ++ r /\ k r = true.
Proof.
  unfold App.strip. destruct (expect (js w) s) as [r|] eqn:E.
  - apply expect_prefix in E. split.
    + intros H. now exists r.
    + intros (r' & Hr & Hk). subst s. apply app_inv_head in Hr. now subst.
  - split; [discriminate|]. intros (r & Hr & _).
    apply expect_prefix in Hr. congruence.
Qed.

Lemma optional_spec (w : string) (s : jsstring) (k : jsstring -> bool) :
  App.optional w s k = true
  <-> exists o r, In o [[]; js w] /\ s = o ++ r /\ k r = true.
Proof.
  unfold App.optional. rewrite orb_true_iff, strip_spec. split.
  - intros [(r & Hr & Hk) | Hk].
    + exists (js w), r. simpl. auto.
    + exists [], s. simpl. auto.
  - intros (o & r & [<- | [<- | []]] & Hs & Hk).
    + right. now subst.
    + left. now exists r.
Qed.

Lemma forallb_false_exists (A : Type) (f : A -> bool) (l : list A) :
  forallb f l = false <-> exists x, In x l /\ f x = false.
Proof.
  induction l as [|a l IH]; simpl.
  - split; [discriminate | intros (x & [] & _)].
  - rewrite andb_false_iff, IH. split.
    + intros [H | (x & Hx & Hf)]; [now exists a; auto | exists x; auto].
    + intros (x & [<- | Hx] & Hf); [now left | right; now exists x].
Qed.

Lemma rawParts_trimmed (query p : jsstring) :
  In p (App.rawParts query) -> p <> [] /\ trim p = p.
Proof.
  unfold App.rawParts. intros H. apply filter_In in H as [Hin Hlen].
  apply in_map_iff in Hin as (part & <- & _). split.
  - intros E. rewrite E in Hlen. discriminate Hlen.
  - apply trim_idempotent.
Qed.

Lemma rawParts_no_comma (query : jsstring) :
  forallb (fun c => negb (N.eqb c comma)) query = true ->
  trim query <> [] ->
  App.rawParts query = [trim query].
Proof.
  intros Hc Hne. unfold App.rawParts, App.split.
  rewrite split_from_no_separator by exact Hc. simpl.
  destruct (trim query); [congruence | reflexivity].
Qed.

Lemma is_empty_nil (s : jsstring) : Analyze.is_empty s = true <-> s = [].
Proof. destruct s; simpl; split; congruence. Qed.

Lemma validated_all (parts : list jsstring) :
  forallb snd (List.map (fun p => (p, App.YT_URL_REGEX_test p)) parts)
  = forallb App.YT_URL_REGEX_test parts.
Proof. induction parts as [|p parts IH]; simpl; [reflexivity | now rewrite IH]. Qed.

End Input.

(** X9: the expression for URLs accepts exactly the texts made of an
    optional [http://] or [https://], an optional [www.], [youtube.com]
    or [youtu.be], a slash, and at least one more character, none of them
    a line terminator. *)
Theorem accepted_urls :
  forall p,
    App.YT_URL_REGEX_test p = true
    <-> exists scheme www host rest,
          In scheme [[]; js "https://"; js "http://"]
          /\ In www [[]; js "www."]
          /\ In host [js "youtube.com"; js "youtu.be"]
          /\ rest <> []
          /\ forallb (fun c => negb (App.is_line_terminator c)) rest = true
          /\ p = scheme ++ www ++ host ++ js "/" ++ rest.
Proof.
  intros p.
  set (path := fun s => App.strip "/" s App.dot_plus_end).
  set (host := fun s => App.strip "youtube.com" s path || App.strip "youtu.be" s path).
  set (www := fun s => App.optional "www." s host).
  change (App.YT_URL_REGEX_test p)
    with (App.strip "https://" p www || App.strip "http://" p www || www p).
  assert (Hpath : forall s, path s = true
            <-> exists rest, rest <> []
                  /\ forallb (fun c => negb (App.is_line_terminator c)) rest = true
                  /\ s = js "/" ++ rest).
  { intros s. unfold path. rewrite strip_spec. unfold App.dot_plus_end. split.
    - intros (r & Hs & Hk). apply andb_true_iff in Hk as [Hne Hlt].
      exists r. repeat split; try assumption.
      intros E. subst r. discriminate Hne.
    - intros (r & Hne & Hlt & Hs). exists r. split; [exact Hs|].
      rewrite Hlt, andb_true_r. destruct r; [contradiction | reflexivity]. }
  assert (Hhost : forall s, host s = true
            <-> exists h t, In h [js "youtube.com"; js "youtu.be"]
                  /\ s = h ++ t /\ path t = true).
  { intros s. unfold host. rewrite orb_true_iff, !strip_spec. split.
    - intros [(r & Hs & Hk) | (r & Hs & Hk)].
      + exists (js "youtube.com"), r. simpl. auto.
      + exists (js "youtu.be"), r. simpl. auto.
    - intros (h & t & [<- | [<- | []]] & Hs & Hk);
        [left | right]; now exists t. }
  assert (Hwww : forall s, www s = true
            <-> exists o t, In o [[]; js "www."] /\ s = o ++ t /\ host t = true).
  { intros s. unfold www. apply optional_spec. }
  rewrite !orb_true_iff, !strip_spec. split.
  - intros H.
    assert (exists scheme t, In scheme [[]; js "https://"; js "http://"]
                             /\ p = scheme ++ t /\ www t = true) as (scheme & t & Hsc & Hp & Hw).
    { destruct H as [[(r & Hs & Hk) | (r & Hs & Hk)] | Hk].
      - exists (js "https://"), r. simpl. auto.
      - exists (js "http://"), r. simpl. auto.
      - exists [], p. simpl. auto. }
    apply Hwww in Hw as (o & t1 & Ho & Ht & Hh).
    apply Hhost in Hh as (h & t2 & Hhh & Ht1 & Hpa).
    apply Hpath in Hpa as (rest & Hne & Hlt & Ht2).
    exists scheme, o, h, rest. subst. repeat split; assumption.
  - intros (scheme & o & h & rest & Hsc & Ho & Hh & Hne & Hlt & Hp).
    assert (Hw : www (o ++ h ++ js "/" ++ rest) = true).
    { apply Hwww. exists o, (h ++ js "/" ++ rest). repeat split; [exact Ho|].
      apply Hhost. exists h, (js "/" ++ rest). repeat split; [exact Hh|].
      apply Hpath. now exists rest. }
    destruct Hsc as [<- | [<- | [<- | []]]]; subst p.
    + now right.
    + left. left. now eexists.
    + left. right. now eexists.
Qed.

(** X10: [handleSearch] turns a query down in two cases only: the query is
    blank, or one of its parts looks like a YouTube URL while one of its
    parts is not a valid URL. Topics and handles are never turned down. *)
Theorem refused_queries :
  forall query,
    App.accepted query = false
    <-> trim query = []
        \/ (existsb App.looks_like_url (App.rawParts query) = true
            /\ exists p, In p (App.rawParts query) /\ App.YT_URL_REGEX_test p = false).
Proof.
  intros query. unfold App.accepted, App.parsedAnalysisInput.
  destruct (Analyze.is_empty (trim query)) eqn:E.
  - apply is_empty_nil in E. simpl. split; [now left | reflexivity].
  - assert (Hne : trim query <> []).
    { intros H. apply is_empty_nil in H. congruence. }
    simpl. destruct (existsb App.looks_like_url (App.rawParts query)) eqn:Eu.
    + simpl. rewrite validated_all, forallb_false_exists. split.
      * intros H. right. now split.
      * intros [H | [_ H]]; [contradiction | exact H].
    + destruct ((List.length (App.rawParts query) =? 1)
                && App.YT_HANDLE_REGEX_test (nth 0 (App.rawParts query) [])); simpl;
        (split; [discriminate | intros [H | [H _]]; [contradiction | discriminate]]).
Qed.

(** X11: when some part of a query that is not blank is a valid URL, the
    query is read as a list of URLs; the items of such a list are the
    parts between commas, trimmed, none of them empty, in their order,
    each with the verdict of the expression for URLs, and the list is
    valid when every item is. *)
Theorem url_items :
  (forall query p,
     trim query <> [] -> In p (App.rawParts query) ->
     App.YT_URL_REGEX_test p = true ->
     App.type (App.parsedAnalysisInput query) = App.url)
  /\ (forall query,
        App.type (App.parsedAnalysisInput query) = App.url ->
        App.items (App.parsedAnalysisInput query)
        = List.map (fun p => (p, App.YT_URL_REGEX_test p)) (App.rawParts query)
        /\ Forall (fun it => fst it <> [] /\ trim (fst it) = fst it)
                  (App.items (App.parsedAnalysisInput query))
        /\ App.allValid (App.parsedAnalysisInput query)
           = forallb App.YT_URL_REGEX_test (App.rawParts query)).
Proof.
  split.
  - intros query p Hne Hin Hp. unfold App.parsedAnalysisInput.
    destruct (Analyze.is_empty (trim query)) eqn:E.
    { apply is_empty_nil in E. contradiction. }
    assert (Hu : existsb App.looks_like_url (App.rawParts query) = true).
    { apply existsb_exists. exists p. split; [exact Hin|].
      unfold App.looks_like_url. now rewrite Hp. }
    now rewrite Hu.
  - intros query. unfold App.parsedAnalysisInput.
    destruct (Analyze.is_empty (trim query)); [discriminate|].
    destruct (existsb App.looks_like_url (App.rawParts query)).
    + intros _. simpl. split; [reflexivity|]. split; [|apply validated_all].
      apply Forall_forall. intros it Hit.
      apply in_map_iff in Hit as (p & <- & Hp). simpl.
      now apply (rawParts_trimmed query).
    + destruct ((List.length (App.rawParts query) =? 1)
                && App.YT_HANDLE_REGEX_test (nth 0 (App.rawParts query) []));
        discriminate.
Qed.

(** Witness for [url_items]: a valid URL and a title that names the site. *)
Lemma url_items_witness :
  App.type (App.parsedAnalysisInput (js " youtu.be/abc , about youtube.com ")) = App.url
  /\ App.items (App.parsedAnalysisInput (js " youtu.be/abc , about youtube.com "))
     = [(js "youtu.be/abc", true); (js "about youtube.com", false)].
Proof.
  assert (E : App.type (App.parsedAnalysisInput (js " youtu.be/abc , about youtube.com "))
              = App.url).
  { apply (proj1 url_items _ (js "youtu.be/abc")).
    - vm_compute. discriminate.
    - vm_compute. left. reflexivity.
    - reflexivity. }
  split; [exact E|].
  rewrite (proj1 (proj2 url_items _ E)). reflexivity.
Defined.

(** Witness for [accepted_urls]: a short link without scheme. *)
Lemma accepted_urls_witness : App.YT_URL_REGEX_test (js "www.youtu.be/x y") = true.
Proof.
  apply (proj2 (accepted_urls (js "www.youtu.be/x y"))).
  exists [], (js "www."), (js "youtu.be"), (js "x y").
  repeat split; simpl; auto. discriminate.
Defined.

(** Witness for [refused_queries]: a valid URL next to a bare host. *)
Lemma refused_queries_witness :
  App.accepted (js "https://youtube.com/watch?v=1, youtube.com") = false.
Proof.
  apply (proj2 (refused_queries (js "https://youtube.com/watch?v=1, youtube.com"))).
  right. split; [reflexivity|].
  exists (js "youtube.com"). split; [|reflexivity]. vm_compute. right. left. reflexivity.
Defined.

(** X12: for a query without comma that the form reads as a handle,
    [analyzeTopic] sends the prompt for handles: the text that asks for a
    deep research analysis on transcripts from the handle, with the query
    as typed, then a space, a line feed, four spaces and the format
    requirement; the run depends on the model through its answer to this
    text only. With a comma the two may part: a query of an empty part
    and a handle is read as a handle and the prompt for topics is sent;
    and a handle followed by words is read as a topic and the prompt for
    handles is sent. *)
Theorem handle_query_gets_handle_prompt :
  (forall query format,
     forallb (fun c => negb (N.eqb c comma)) query = true ->
     App.type (App.parsedAnalysisInput query) = App.username ->
     Analyze.userPrompt query
     = js "Perform a deep research analysis on transcripts from handle: " ++ query
       ++ js ". Surface their recurring patterns, unique vocabulary, and consistent audience warnings."
     /\ Analyze.contents query format
        = (js "Perform a deep research analysis on transcripts from handle: " ++ query
           ++ js ". Surface their recurring patterns, unique vocabulary, and consistent audience warnings.")
          ++ [32; 10; 32; 32; 32; 32]%N
          ++ js "FORMAT REQUIREMENT: " ++ Analyze.formatInstructions format
     /\ forall generateContent generateContent',
          generateContent
            ((js "Perform a deep research analysis on transcripts from handle: " ++ query
              ++ js ". Surface their recurring patterns, unique vocabulary, and consistent audience warnings.")
             ++ [32; 10; 32; 32; 32; 32]%N
             ++ js "FORMAT REQUIREMENT: " ++ Analyze.formatInstructions format)
          = generateContent'
              ((js "Perform a deep research analysis on transcripts from handle: " ++ query
                ++ js ". Surface their recurring patterns, unique vocabulary, and consistent audience warnings.")
               ++ [32; 10; 32; 32; 32; 32]%N
               ++ js "FORMAT REQUIREMENT: " ++ Analyze.formatInstructions format) ->
          Analyze.analyzeTopic generateContent query format
          = Analyze.analyzeTopic generateContent' query format)
  /\ (App.type (App.parsedAnalysisInput (js ",@creator")) = App.username
      /\ Analyze.userPrompt (js ",@creator")
         = js "Execute analytical aggregation for topic: ,@creator. Cross-reference multiple creators to extract consensus, pinpoint confusion spikes, and map out expert disagreements.")
  /\ (App.type (App.parsedAnalysisInput (js "@creator tips")) = App.topic
      /\ Analyze.userPrompt (js "@creator tips")
         = js "Perform a deep research analysis on transcripts from handle: @creator tips. Surface their recurring patterns, unique vocabulary, and consistent audience warnings.").
Proof.
  split; [|split; split; reflexivity].
  intros query format Hc Ht.
  assert (Hh : Analyze.isHandle query = true).
  { revert Ht. unfold App.parsedAnalysisInput.
    destruct (Analyze.is_empty (trim query)) eqn:E; [discriminate|].
    assert (Hne : trim query <> []).
    { intros H. apply is_empty_nil in H. congruence. }
    rewrite (rawParts_no_comma query Hc Hne).
    destruct (existsb App.looks_like_url [trim query]); [discriminate|].
    simpl. destruct (App.YT_HANDLE_REGEX_test (trim query)) eqn:Eh; [|discriminate].
    intros _. unfold Analyze.isHandle.
    destruct (trim query) as [|c r]; [discriminate Eh|].
    simpl in Eh. apply andb_true_iff in Eh as [Eh _]. apply andb_true_iff in Eh as [Eh _].
    apply N.eqb_eq in Eh. subst c. reflexivity. }
  assert (Hp : Analyze.userPrompt query
               = js "Perform a deep research analysis on transcripts from handle: " ++ query
                 ++ js ". Surface their recurring patterns, unique vocabulary, and consistent audience warnings.").
  { unfold Analyze.userPrompt. now rewrite Hh. }
  split; [exact Hp|]. split.
  - unfold Analyze.contents. now rewrite Hp.
  - intros g g' Hg. unfold Analyze.analyzeTopic, Analyze.contents.
    rewrite Hp. now rewrite Hg.
Qed.

(** Witness for [handle_query_gets_handle_prompt]: a handle between
    blanks, which the prompt keeps. *)
Lemma handle_query_gets_handle_prompt_witness :
  Analyze.userPrompt (js "  @some.creator-1 ")
  = js "Perform a deep research analysis on transcripts from handle: "
    ++ js "  @some.creator-1 "
    ++ js ". Surface their recurring patterns, unique vocabulary, and consistent audience warnings.".
Proof.
  apply (proj1 (proj1 handle_query_gets_handle_prompt
                  (js "  @some.creator-1 ") Analyze.detailed eq_refl eq_refl)).
Defined.

(** ** The search history and the life of a search *)

Section History.

Lemma NoDup_firstn (A : Type) (n : nat) (l : list A) :
  NoDup l -> NoDup (firstn n l).
Proof.
  intros H. rewrite <- (firstn_skipn n l) in H.
  now apply NoDup_app_remove_r in H.
Qed.

Lemma In_firstn (A : Type) (n : nat) (l : list A) (x : A) :
  In x (firstn n l) -> In x l.
Proof.
  intros H. rewrite <- (firstn_skipn n l). apply in_or_app. now left.
Qed.

Lemma remember_length (q : jsstring) (h : list jsstring) :
  List.length (App.remember q h) <= 10.
Proof.
  unfold App.remember. cbn [List.length].
  pose proof (firstn_le_length 9 (filter (fun h0 => negb (string_eqb h0 q)) h)). lia.
Qed.

Lemma remember_In (q : jsstring) (h : list jsstring) (x : jsstring) :
  In x (App.remember q h) -> x = q \/ In x h.
Proof.
  unfold App.remember. intros [H | H]; [now left|].
  right. apply In_firstn in H. now apply filter_In in H.
Qed.

Lemma remember_NoDup (q : jsstring) (h : list jsstring) :
  NoDup h -> NoDup (App.remember q h).
Proof.
  intros H. unfold App.remember. constructor.
  - intros Hin. apply In_firstn in Hin. apply filter_In in Hin as [_ Hq].
    rewrite string_eqb_refl in Hq. discriminate Hq.
  - apply NoDup_firstn. now apply NoDup_filter.
Qed.

Lemma step_history_ok (a : App.app) (e : App.event) :
  history_ok a -> history_ok (App.step a e).
Proof.
  intros (Hlen & Hnd & Hacc & Herr). destruct e; simpl.
  - repeat split; assumption.
  - repeat split; assumption.
  - unfold App.handleSearch_begin.
    destruct (App.accepted (App.query a)) eqn:E; [|repeat split; assumption].
    unfold history_ok. simpl. split; [apply remember_length|].
    split; [now apply remember_NoDup|]. split; [|reflexivity].
    apply Forall_forall. intros x Hx. apply remember_In in Hx as [-> | Hx];
      [exact E|]. rewrite Forall_forall in Hacc. now apply Hacc.
  - unfold history_ok. simpl. repeat split; try assumption. discriminate.
  - unfold App.handleSearch_resolved. destruct (App.cancelRef a).
    + repeat split; assumption.
    + unfold history_ok. simpl. repeat split; try assumption. discriminate.
  - unfold App.handleSearch_rejected. destruct (App.cancelRef a).
    + repeat split; assumption.
    + unfold history_ok. simpl. repeat split; try assumption. discriminate.
Qed.

End History.

(** X13: a submitted query goes to the head of the history, where it is
    found once; the history never holds more than ten entries; every entry
    is the query or an older entry, and with nine older entries or fewer
    none of them is lost. *)
Theorem history_update :
  forall q h,
    (exists t, App.remember q h = q :: t /\ ~ In q t)
    /\ List.length (App.remember q h) <= 10
    /\ (forall x, In x (App.remember q h) -> x = q \/ In x h)
    /\ (List.length h <= 9 -> forall x, In x h -> In x (App.remember q h)).
Proof.
  intros q h. split; [|split; [|split]].
  - eexists. split; [reflexivity|]. intros Hin.
    apply In_firstn in Hin. apply filter_In in Hin as [_ Hq].
    rewrite string_eqb_refl in Hq. discriminate Hq.
  - apply remember_length.
  - apply remember_In.
  - intros Hlen x Hx. unfold App.remember.
    destruct (string_eqb x q) eqn:E.
    + apply string_eqb_eq in E. subst. now left.
    + right. rewrite firstn_all2.
      * apply filter_In. split; [exact Hx | now rewrite E].
      * etransitivity; [apply filter_length_le | exact Hlen].
Qed.

(** Witness for [history_update]: three entries, the query among them. *)
Lemma history_update_witness :
  In (js "b") (App.remember (js "c") [js "a"; js "b"; js "c"]).
Proof.
  apply (proj2 (proj2 (proj2 (history_update (js "c") [js "a"; js "b"; js "c"])))).
  - simpl. lia.
  - simpl. auto.
Defined.

(** X14: whatever happens to the component, in whatever order (typing,
    submitting, stopping, calls returning or throwing), its history holds
    at most ten entries, no entry twice, only queries that the form
    accepted, and no error is shown while a search is running. *)
Theorem history_invariant :
  forall events,
    let a := App.run_events App.initial events in
    List.length (App.searchHistory (App.state a)) <= 10
    /\ NoDup (App.searchHistory (App.state a))
    /\ Forall (fun q => App.accepted q = true) (App.searchHistory (App.state a))
    /\ (App.isSearching (App.state a) = true -> App.error (App.state a) = None).
Proof.
  intros events.
  assert (H : forall es a0, history_ok a0 -> history_ok (App.run_events a0 es)).
  { induction es as [|e es IH]; intros a0 H0; [exact H0|].
    apply IH. now apply step_history_ok. }
  apply (H events App.initial).
  repeat split; simpl; try constructor. lia.
Qed.

(** Witness for [history_invariant]: a topic is submitted, fails, and is
    submitted again. *)
Lemma history_invariant_witness :
  App.error
    (App.state
       (App.run_events App.initial
          [App.SetQuery (js "sourdough"); App.Submit; App.Rejected; App.Submit]))
  = None.
Proof.
  apply (proj2 (proj2 (proj2 (history_invariant
           [App.SetQuery (js "sourdough"); App.Submit; App.Rejected; App.Submit])))).
  reflexivity.
Defined.



(** ** The view of a report: selections *)

Section Selection.

Lemma array_includes_In (l : list jsstring) (x : jsstring) :
  AnalysisView.array_includes l x = true <-> In x l.
Proof.
  unfold AnalysisView.array_includes. rewrite existsb_exists. split.
  - intros (y & Hy & E). apply string_eqb_eq in E. now subst.
  - intros H. exists x. split; [exact H | apply string_eqb_refl].
Qed.

Lemma array_includes_not_In (l : list jsstring) (x : jsstring) :
  AnalysisView.array_includes l x = false <-> ~ In x l.
Proof.
  rewrite <- array_includes_In.
  destruct (AnalysisView.array_includes l x); split; congruence.
Qed.

Lemma filter_all (A : Type) (f : A -> bool) (l : list A) :
  (forall x, In x l -> f x = true) -> filter f l = l.
Proof.
  induction l as [|a l IH]; intros H; simpl; [reflexivity|].
  rewrite (H a (or_introl eq_refl)), IH; [reflexivity|].
  intros x Hx. apply H. now right.
Qed.

Lemma In_other_than (x y : jsstring) (l : list jsstring) :
  In y (filter (fun t => negb (string_eqb t x)) l) <-> In y l /\ y <> x.
Proof.
  rewrite filter_In, negb_true_iff, string_eqb_neq. reflexivity.
Qed.

Lemma NoDup_snoc (A : Type) (l : list A) (x : A) :
  NoDup l -> ~ In x l -> NoDup (l ++ [x]).
Proof.
  intros Hl Hx.
  assert (HA : Add x l (l ++ [x])).
  { rewrite <- (app_nil_r l) at 1. apply Add_app. }
  apply (NoDup_Add HA). now split.
Qed.

End Selection.

(** X16: pressing a tag or a creator changes the selection of that one
    only: it is selected afterwards exactly when it was not before, the
    others stay as they were, and no entry comes to stand twice; pressing
    again something that was not selected gives the selection back. *)
Theorem toggle_selection :
  forall x prev,
    (In x (AnalysisView.toggle x prev) <-> ~ In x prev)
    /\ (forall y, y <> x -> (In y (AnalysisView.toggle x prev) <-> In y prev))
    /\ (NoDup prev -> NoDup (AnalysisView.toggle x prev))
    /\ (~ In x prev -> AnalysisView.toggle x (AnalysisView.toggle x prev) = prev).
Proof.
  intros x prev. split; [|split; [|split]].
  - unfold AnalysisView.toggle.
    destruct (AnalysisView.array_includes prev x) eqn:E.
    + apply array_includes_In in E. rewrite In_other_than.
      split; [intros [_ H]; congruence | contradiction].
    + apply array_includes_not_In in E. rewrite in_app_iff. simpl. tauto.
  - intros y Hy. unfold AnalysisView.toggle.
    destruct (AnalysisView.array_includes prev x) eqn:E.
    + rewrite In_other_than. tauto.
    + rewrite in_app_iff. simpl. split; [|tauto].
      intros [H | [H | []]]; [exact H | congruence].
  - intros H. unfold AnalysisView.toggle.
    destruct (AnalysisView.array_includes prev x) eqn:E.
    + now apply NoDup_filter.
    + apply array_includes_not_In in E. now apply NoDup_snoc.
  - intros Hx. pose proof (proj2 (array_includes_not_In prev x) Hx) as E.
    assert (E1 : AnalysisView.toggle x prev = prev ++ [x]).
    { unfold AnalysisView.toggle. now rewrite E. }
    rewrite E1. unfold AnalysisView.toggle.
    assert (Hin : AnalysisView.array_includes (prev ++ [x]) x = true).
    { apply array_includes_In, in_or_app. right. now left. }
    rewrite Hin, filter_app. simpl. rewrite string_eqb_refl. simpl.
    rewrite app_nil_r. apply filter_all.
    intros y Hy. apply negb_true_iff, string_eqb_neq. congruence.
Qed.

(** Witness for [toggle_selection]: a third tag is pressed twice. *)
Lemma toggle_selection_witness :
  AnalysisView.toggle (js "Explanation")
    (AnalysisView.toggle (js "Explanation") [js "Common_Mistake"; js "Repeated_Claim"])
  = [js "Common_Mistake"; js "Repeated_Claim"].
Proof.
  apply (proj2 (proj2 (proj2 (toggle_selection (js "Explanation")
                                [js "Common_Mistake"; js "Repeated_Claim"])))).
  simpl. intros [H | [H | []]]; discriminate H.
Defined.

(** ** The view of a report: filters *)

Section FilterFacts.

Variable toLowerCase : jsstring -> jsstring.

Lemma not_null_In (A : Type) (l : list (option A)) (a : A) :
  In a (AnalysisView.not_null l) <-> In (Some a) l.
Proof.
  induction l as [|[b|] l IH]; simpl; [tauto| |].
  - rewrite IH. split; intros [H | H]; auto; [left; congruence | inversion H; auto].
  - rewrite IH. split; [auto | intros [H | H]; [discriminate | exact H]].
Qed.

Lemma not_null_all (A : Type) (l : list A) :
  AnalysisView.not_null (List.map Some l) = l.
Proof. induction l as [|a l IH]; simpl; [reflexivity | now rewrite IH]. Qed.

Lemma excerpt_shown_filters (term : jsstring) (tags creators : list jsstring)
      (m : bool) (e : Types.TranscriptExcerpt) :
  AnalysisView.excerpt_shown toLowerCase term tags creators m e = true ->
  (tags <> [] -> In (Types.tag e) tags)
  /\ (creators <> [] -> In (Types.creatorName e) creators).
Proof.
  unfold AnalysisView.excerpt_shown. intros H.
  apply andb_true_iff in H as [H _]. apply andb_true_iff in H as [Ht Hc].
  apply orb_true_iff in Ht, Hc. split.
  - intros Hne. destruct Ht as [Ht | Ht]; [|now apply array_includes_In].
    destruct tags; [contradiction | discriminate Ht].
  - intros Hne. destruct Hc as [Hc | Hc]; [|now apply array_includes_In].
    destruct creators; [contradiction | discriminate Hc].
Qed.

Lemma excerpt_shown_some (tags creators : list jsstring)
      (m : bool) (l : list Types.TranscriptExcerpt) :
  tags <> [] \/ creators <> [] ->
  (0 <? List.length l)
  || (m && (List.length tags =? 0) && (List.length creators =? 0)) = true ->
  l <> [].
Proof.
  intros Hsel H. apply orb_true_iff in H as [H | H].
  - destruct l; [discriminate H | discriminate].
  - apply andb_true_iff in H as [H Hc]. apply andb_true_iff in H as [_ Ht].
    destruct Hsel as [Hs | Hs].
    + destruct tags; [contradiction | discriminate Ht].
    + destruct creators; [contradiction | discriminate Hc].
Qed.

End FilterFacts.

(** X17: with an empty search term and nothing selected, the view shows
    the themes, the confusion points and the videos of the report as they
    are, all of them, with all their excerpts, and reports no active
    filter. *)
Theorem no_filter_shows_everything :
  forall toLowerCase themes points videos,
    AnalysisView.filteredThemes toLowerCase [] [] [] themes = themes
    /\ AnalysisView.filteredConfusion toLowerCase [] [] [] points = points
    /\ AnalysisView.filteredVideos toLowerCase [] videos = videos
    /\ AnalysisView.isAnyFilterActive [] [] [] = false.
Proof.
  intros toLowerCase themes points videos. repeat split.
  - unfold AnalysisView.filteredThemes.
    rewrite <- (not_null_all _ themes) at 2. f_equal.
    apply map_ext. intros [th de ex]. simpl.
    rewrite orb_true_r. f_equal. f_equal. now apply filter_all.
  - unfold AnalysisView.filteredConfusion.
    rewrite <- (not_null_all _ points) at 2. f_equal.
    apply map_ext. intros [po ea ex]. simpl.
    rewrite orb_true_r. f_equal. f_equal. now apply filter_all.
  - unfold AnalysisView.filteredVideos. now apply filter_all.
Qed.

(** X18: every theme and every confusion point the view shows is one of
    the report, with its name and description, and with only excerpts of
    its own; when tags are selected every excerpt shown carries one of
    them, and when creators are selected every excerpt shown is of one of
    them. *)
Theorem shown_excerpts_pass_filters :
  forall toLowerCase term tags creators,
    (forall themes t',
       In t' (AnalysisView.filteredThemes toLowerCase term tags creators themes) ->
       exists t,
         In t themes
         /\ Types.theme t' = Types.theme t
         /\ Types.description t' = Types.description t
         /\ Forall (fun e => In e (Types.supportingExcerpts t)
                             /\ (tags <> [] -> In (Types.tag e) tags)
                             /\ (creators <> [] -> In (Types.creatorName e) creators))
                   (Types.supportingExcerpts t'))
    /\ (forall points c',
          In c' (AnalysisView.filteredConfusion toLowerCase term tags creators points) ->
          exists c,
            In c points
            /\ Types.point c' = Types.point c
            /\ Types.explanationAttempt c' = Types.explanationAttempt c
            /\ Forall (fun e => In e (Types.confusionExcerpts c)
                                /\ (tags <> [] -> In (Types.tag e) tags)
                                /\ (creators <> [] -> In (Types.creatorName e) creators))
                      (Types.confusionExcerpts c')).
Proof.
  intros toLowerCase term tags creators. split.
  - intros themes t' H. unfold AnalysisView.filteredThemes in H.
    apply not_null_In in H. apply in_map_iff in H as (t & Ht & Hin).
    exists t. split; [exact Hin|].
    match type of Ht with (if ?c then _ else _) = _ => destruct c end;
      [|discriminate Ht].
    inversion Ht; subst t'. simpl. repeat split.
    apply Forall_forall. intros e He. apply filter_In in He as [He Hs].
    split; [exact He|]. exact (excerpt_shown_filters toLowerCase _ _ _ _ _ Hs).
  - intros points c' H. unfold AnalysisView.filteredConfusion in H.
    apply not_null_In in H. apply in_map_iff in H as (c & Hc & Hin).
    exists c. split; [exact Hin|].
    match type of Hc with (if ?b then _ else _) = _ => destruct b end;
      [|discriminate Hc].
    inversion Hc; subst c'. simpl. repeat split.
    apply Forall_forall. intros e He. apply filter_In in He as [He Hs].
    split; [exact He|]. exact (excerpt_shown_filters toLowerCase _ _ _ _ _ Hs).
Qed.

(** X19: as soon as a tag or a creator is selected, a theme or a confusion
    point is shown only with at least one excerpt that passes: none is
    shown empty. *)
Theorem selection_hides_empty_entries :
  forall toLowerCase term tags creators,
    tags <> [] \/ creators <> [] ->
    (forall themes t',
       In t' (AnalysisView.filteredThemes toLowerCase term tags creators themes) ->
       Types.supportingExcerpts t' <> [])
    /\ (forall points c',
          In c' (AnalysisView.filteredConfusion toLowerCase term tags creators points) ->
          Types.confusionExcerpts c' <> []).
Proof.
  intros toLowerCase term tags creators Hsel. split.
  - intros themes t' H. unfold AnalysisView.filteredThemes in H.
    apply not_null_In in H. apply in_map_iff in H as (t & Ht & _).
    match type of Ht with (if ?c then _ else _) = _ => destruct c eqn:E end;
      [|discriminate Ht].
    inversion Ht; subst t'. simpl.
    exact (excerpt_shown_some tags creators _ _ Hsel E).
  - intros points c' H. unfold AnalysisView.filteredConfusion in H.
    apply not_null_In in H. apply in_map_iff in H as (c & Hc & _).
    match type of Hc with (if ?b then _ else _) = _ => destruct b eqn:E end;
      [|discriminate Hc].
    inversion Hc; subst c'. simpl.
    exact (excerpt_shown_some tags creators _ _ Hsel E).
Qed.

(** Witness for [shown_excerpts_pass_filters]: one tag selected, a theme
    with an excerpt of that tag and one of another. *)
Lemma shown_excerpts_pass_filters_witness :
  In sample_shown
     (AnalysisView.filteredThemes (fun s => s) [] [js "Explanation"] [] sample_themes)
  /\ exists t,
       In t sample_themes
       /\ Types.theme sample_shown = Types.theme t
       /\ Types.description sample_shown = Types.description t
       /\ Forall (fun e => In e (Types.supportingExcerpts t)
                           /\ ([js "Explanation"] <> [] -> In (Types.tag e) [js "Explanation"])
                           /\ (@nil jsstring <> [] -> In (Types.creatorName e) []))
                 (Types.supportingExcerpts sample_shown).
Proof.
  assert (H : In sample_shown
                 (AnalysisView.filteredThemes (fun s => s) [] [js "Explanation"] []
                    sample_themes))
    by (vm_compute; left; reflexivity).
  split; [exact H|].
  exact (proj1 (shown_excerpts_pass_filters (fun s => s) [] [js "Explanation"] [])
           sample_themes sample_shown H).
Defined.

(** Witness for [selection_hides_empty_entries]: the same selection. *)
Lemma selection_hides_empty_entries_witness :
  In sample_shown
     (AnalysisView.filteredThemes (fun s => s) [] [js "Explanation"] [] sample_themes)
  /\ Types.supportingExcerpts sample_shown <> [].
Proof.
  assert (H : In sample_shown
                 (AnalysisView.filteredThemes (fun s => s) [] [js "Explanation"] []
                    sample_themes))
    by (vm_compute; left; reflexivity).
  assert (Hsel : [js "Explanation"] <> [] \/ @nil jsstring <> []) by (left; discriminate).
  split; [exact H|].
  exact (proj1 (selection_hides_empty_entries (fun s => s) [] [js "Explanation"] [] Hsel)
           sample_themes sample_shown H).
Defined.

(** ** The view of a report: creators and export *)

Section Creators.

Lemma string_ltb_irrefl (a : jsstring) : AnalysisView.string_ltb a a = false.
Proof.
  induction a as [|x a IH]; simpl; [reflexivity|].
  now rewrite N.ltb_irrefl, N.eqb_refl.
Qed.

Lemma string_ltb_trans (a : jsstring) :
  forall b c, AnalysisView.string_ltb a b = true -> AnalysisView.string_ltb b c = true ->
    AnalysisView.string_ltb a c = true.
Proof.
  induction a as [|x a IH]; intros [|y b] [|z c]; simpl; try discriminate; try reflexivity.
  destruct (N.ltb_spec x y) as [Hxy|Hxy].
  - intros _. destruct (N.ltb_spec y z) as [Hyz|Hyz].
    + intros _. destruct (N.ltb_spec x z); [reflexivity | lia].
    + destruct (N.eqb_spec y z) as [->|]; [|discriminate].
      intros _. destruct (N.ltb_spec x z); [reflexivity | lia].
  - destruct (N.eqb_spec x y) as [->|]; [|discriminate].
    intros Hab. destruct (N.ltb_spec y z) as [Hyz|Hyz]; [reflexivity|].
    destruct (N.eqb_spec y z) as [->|]; [|discriminate].
    now apply IH.
Qed.

Lemma string_ltb_total (a : jsstring) :
  forall b, a <> b -> AnalysisView.string_ltb a b = false ->
    AnalysisView.string_ltb b a = true.
Proof.
  induction a as [|x a IH]; intros [|y b] Hne; simpl; try congruence.
  destruct (N.ltb_spec x y) as [Hxy|Hxy]; [discriminate|].
  destruct (N.eqb_spec x y) as [->|Hxy'].
  - rewrite N.ltb_irrefl, N.eqb_refl. apply IH. congruence.
  - intros _. destruct (N.ltb_spec y x); [reflexivity | lia].
Qed.

Lemma insert_sorted_Add (x : jsstring) (l : list jsstring) :
  Add x l (AnalysisView.insert_sorted x l).
Proof.
  induction l as [|y l IH]; simpl; [constructor|].
  destruct (AnalysisView.string_ltb y x); constructor. exact IH.
Qed.

Lemma sort_In (l : list jsstring) (x : jsstring) :
  In x (AnalysisView.sort l) <-> In x l.
Proof.
  induction l as [|y l IH]; simpl; [tauto|].
  rewrite (Add_in (insert_sorted_Add y (AnalysisView.sort l))). simpl.
  rewrite IH. reflexivity.
Qed.

Lemma sort_NoDup (l : list jsstring) : NoDup l -> NoDup (AnalysisView.sort l).
Proof.
  induction 1 as [|y l Hy Hl IH]; simpl; [constructor|].
  apply (NoDup_Add (insert_sorted_Add y (AnalysisView.sort l))).
  split; [exact IH|]. now rewrite sort_In.
Qed.

Lemma ascending_cons (x : jsstring) (l : list jsstring) :
  AnalysisView.ascending (x :: l) = true
  <-> (forall y, In y l -> AnalysisView.string_ltb x y = true)
      /\ AnalysisView.ascending l = true.
Proof.
  revert x. induction l as [|y l IH]; intros x.
  - simpl. split; [intros _; split; [intros y [] | reflexivity] | reflexivity].
  - change (AnalysisView.ascending (x :: y :: l))
      with (AnalysisView.string_ltb x y && AnalysisView.ascending (y :: l)).
    rewrite andb_true_iff. split.
    + intros [Hxy Hasc]. split; [|exact Hasc].
      intros z [<- | Hz]; [exact Hxy|].
      apply (string_ltb_trans x y z Hxy). apply IH in Hasc as [H _]. now apply H.
    + intros [H Hasc]. split; [apply H; now left | exact Hasc].
Qed.

Lemma insert_sorted_ascending (x : jsstring) (l : list jsstring) :
  ~ In x l -> AnalysisView.ascending l = true ->
  AnalysisView.ascending (AnalysisView.insert_sorted x l) = true.
Proof.
  induction l as [|y l IH]; intros Hx Hl; [reflexivity|].
  simpl AnalysisView.insert_sorted.
  destruct (AnalysisView.string_ltb y x) eqn:E.
  - apply ascending_cons in Hl as [Hy Hl]. apply ascending_cons. split.
    + intros z Hz. apply (Add_in (insert_sorted_Add x l)) in Hz as [<- | Hz];
        [exact E | now apply Hy].
    + apply IH; [|exact Hl]. intros H. apply Hx. now right.
  - assert (Hxy : AnalysisView.string_ltb x y = true).
    { apply string_ltb_total; [|exact E]. intros ->. apply Hx. now left. }
    apply ascending_cons. split; [|exact Hl].
    intros z [<- | Hz]; [exact Hxy|].
    apply (string_ltb_trans x y z Hxy). apply ascending_cons in Hl as [H _]. now apply H.
Qed.

Lemma sort_ascending (l : list jsstring) :
  NoDup l -> AnalysisView.ascending (AnalysisView.sort l) = true.
Proof.
  induction 1 as [|y l Hy Hl IH]; [reflexivity|]. simpl.
  apply insert_sorted_ascending; [now rewrite sort_In | exact IH].
Qed.

Lemma unique_In (l : list jsstring) (x : jsstring) :
  In x (AnalysisView.unique l) <-> In x l.
Proof.
  induction l as [|y l IH]; simpl; [tauto|].
  rewrite In_other_than, IH.
  destruct (list_eq_dec N.eq_dec x y) as [->|Hne]; [tauto|].
  split; [intros [H | [H _]]; auto | intros [H | H]; [auto | right; split; auto]].
Qed.

Lemma unique_NoDup (l : list jsstring) : NoDup (AnalysisView.unique l).
Proof.
  induction l as [|y l IH]; simpl; constructor.
  - rewrite In_other_than. intros [_ H]. congruence.
  - now apply NoDup_filter.
Qed.

End Creators.

(** X20: the creators offered as filters are those of the videos of the
    report, each of them once, in ascending order of their code units. *)
Theorem creators_sorted_once :
  forall processedVideos,
    AnalysisView.ascending (AnalysisView.allCreators processedVideos) = true
    /\ NoDup (AnalysisView.allCreators processedVideos)
    /\ (forall c, In c (AnalysisView.allCreators processedVideos)
                  <-> exists v, In v processedVideos /\ Types.creator v = c).
Proof.
  intros vs. unfold AnalysisView.allCreators. split; [|split].
  - apply sort_ascending, unique_NoDup.
  - apply sort_NoDup, unique_NoDup.
  - intros c. rewrite sort_In, unique_In, in_map_iff. split.
    + intros (v & Hv & Hin). now exists v.
    + intros (v & Hin & Hv). now exists v.
Qed.

(** Witness for [creators_sorted_once]: three videos of two creators. *)
Lemma creators_sorted_once_witness :
  In (js "Ann") (AnalysisView.allCreators sample_videos)
  /\ AnalysisView.allCreators sample_videos = [js "Ann"; js "Bob"].
Proof.
  split; [|reflexivity].
  apply (proj2 (proj2 (proj2 (creators_sorted_once sample_videos)) (js "Ann"))).
  exists {| Types.title := js "t2"; Types.url := js "u2"; Types.creator := js "Ann" |}.
  split; [|reflexivity]. simpl. right. left. reflexivity.
Defined.

Section CsvRows.

Lemma flat_map_rows_length (A B C : Type) (f : A -> list B) (g : A -> B -> C) (l : list A) :
  List.length (flat_map (fun a => List.map (g a) (f a)) l)
  = list_sum (List.map (fun a => List.length (f a)) l).
Proof.
  induction l as [|a l IH]; simpl; [reflexivity|].
  now rewrite length_app, length_map, IH.
Qed.

(** The row of an element of an inner list stands after the rows of the
    outer elements before it and those of the inner elements before it. *)
Lemma flat_map_rows_nth (A B C : Type) (f : A -> list B) (g : A -> B -> C)
      (before : list A) (a : A) (after : list A) (eb : list B) (e : B) (ea : list B) :
  f a = eb ++ e :: ea ->
  nth_error (flat_map (fun a => List.map (g a) (f a)) (before ++ a :: after))
    (list_sum (List.map (fun a => List.length (f a)) before) + List.length eb)
  = Some (g a e).
Proof.
  intros Hf. rewrite flat_map_app. simpl flat_map.
  rewrite nth_error_app2; rewrite (flat_map_rows_length A B C f g before); [|lia].
  replace (list_sum (List.map (fun a0 => List.length (f a0)) before) + List.length eb
           - list_sum (List.map (fun a0 => List.length (f a0)) before))
    with (List.length eb) by lia.
  rewrite nth_error_app1.
  - rewrite Hf, map_app. simpl.
    rewrite nth_error_app2; rewrite length_map; [|lia].
    now rewrite Nat.sub_diag.
  - rewrite length_map, Hf, length_app. simpl. lia.
Qed.

End CsvRows.

(** X21: the CSV export has the header row first; the row of an excerpt
    of a theme stands after the header, the rows of the themes before its
    theme and those of the excerpts before it, and holds the word Theme,
    the theme, its description, the text with its quotes doubled, the
    creator and the tag; the row of an excerpt of a confusion point
    stands likewise after all the rows of the themes, and holds the word
    Confusion, the point, the attempt at an explanation, the text with its
    quotes doubled, the creator and the tag. There are no other rows, and
    every row has six cells. *)
Theorem csv_rows_shape :
  forall themes points,
    List.length (AnalysisView.csv_rows themes points)
    = 1 + theme_excerpts themes + confusion_excerpts points
    /\ Forall (fun row => List.length row = 6) (AnalysisView.csv_rows themes points)
    /\ nth_error (AnalysisView.csv_rows themes points) 0
       = Some [js "Type"; js "Category"; js "Description/Attempt"; js "Excerpt";
               js "Creator"; js "Tag"]
    /\ (forall before t after eb e ea,
           themes = before ++ t :: after ->
           Types.supportingExcerpts t = eb ++ e :: ea ->
           nth_error (AnalysisView.csv_rows themes points)
             (1 + theme_excerpts before + List.length eb)
           = Some [js "Theme"; Types.theme t; Types.description t;
                   AnalysisView.escape_quotes (Types.text e);
                   Types.creatorName e; Types.tag e])
    /\ (forall before c after eb e ea,
           points = before ++ c :: after ->
           Types.confusionExcerpts c = eb ++ e :: ea ->
           nth_error (AnalysisView.csv_rows themes points)
             (1 + theme_excerpts themes + confusion_excerpts before + List.length eb)
           = Some [js "Confusion"; Types.point c; Types.explanationAttempt c;
                   AnalysisView.escape_quotes (Types.text e);
                   Types.creatorName e; Types.tag e]).
Proof.
  intros themes points. unfold AnalysisView.csv_rows, theme_excerpts, confusion_excerpts.
  pose proof (flat_map_rows_length _ _ _ Types.supportingExcerpts
                (fun t e => [js "Theme"; Types.theme t; Types.description t;
                             AnalysisView.escape_quotes (Types.text e);
                             Types.creatorName e; Types.tag e])) as Lt.
  pose proof (flat_map_rows_length _ _ _ Types.confusionExcerpts
                (fun c e => [js "Confusion"; Types.point c; Types.explanationAttempt c;
                             AnalysisView.escape_quotes (Types.text e);
                             Types.creatorName e; Types.tag e])) as Lc.
  cbv beta in Lt, Lc.
  split; [|split; [|split; [|split]]].
  - rewrite !length_app. simpl List.length at 1. rewrite Lt, Lc. lia.
  - apply Forall_app. split; [repeat constructor|].
    apply Forall_app. split; apply Forall_forall; intros row Hrow;
      apply in_flat_map in Hrow as (x & _ & Hrow);
      apply in_map_iff in Hrow as (e & <- & _); reflexivity.
  - reflexivity.
  - intros before t after eb e ea -> He.
    change (1 + list_sum (List.map (fun t0 => List.length (Types.supportingExcerpts t0)) before)
            + List.length eb)
      with (S (list_sum (List.map (fun t0 => List.length (Types.supportingExcerpts t0)) before)
               + List.length eb)).
    cbn [app nth_error]. rewrite nth_error_app1.
    + exact (flat_map_rows_nth _ _ _ Types.supportingExcerpts
               (fun t e => [js "Theme"; Types.theme t; Types.description t;
                            AnalysisView.escape_quotes (Types.text e);
                            Types.creatorName e; Types.tag e])
               before t after eb e ea He).
    + rewrite Lt, map_app, list_sum_app. simpl. rewrite He, length_app. simpl. lia.
  - intros before c after eb e ea -> He.
    change (1 + list_sum (List.map (fun t0 => List.length (Types.supportingExcerpts t0)) themes)
            + list_sum (List.map (fun c0 => List.length (Types.confusionExcerpts c0)) before)
            + List.length eb)
      with (S (list_sum (List.map (fun t0 => List.length (Types.supportingExcerpts t0)) themes)
               + list_sum (List.map (fun c0 => List.length (Types.confusionExcerpts c0)) before)
               + List.length eb)).
    cbn [app nth_error]. rewrite nth_error_app2; rewrite Lt; [|lia].
    replace (list_sum (List.map (fun t0 => List.length (Types.supportingExcerpts t0)) themes)
             + list_sum (List.map (fun c0 => List.length (Types.confusionExcerpts c0)) before)
             + List.length eb
             - list_sum (List.map (fun t0 => List.length (Types.supportingExcerpts t0)) themes))
      with (list_sum (List.map (fun c0 => List.length (Types.confusionExcerpts c0)) before)
            + List.length eb) by lia.
    exact (flat_map_rows_nth _ _ _ Types.confusionExcerpts
             (fun c e => [js "Confusion"; Types.point c; Types.explanationAttempt c;
                          AnalysisView.escape_quotes (Types.text e);
                          Types.creatorName e; Types.tag e])
             before c after eb e ea He).
Qed.

(** Witness for [csv_rows_shape]: the second excerpt of the first theme
    of the sample is on the third row, and the excerpt of its confusion
    point, whose text has a quoted word, on the fourth and last. *)
Lemma csv_rows_shape_witness :
  nth_error (AnalysisView.csv_rows sample_themes sample_points) 2
  = Some [js "Theme"; js "Proofing"; js "d"; js "second"; js "Bob"; js "Common_Mistake"]
  /\ nth_error (AnalysisView.csv_rows sample_themes sample_points) 3
     = Some [js "Confusion"; js "Hydration"; js "a"; js "say ''hi''"; js "Cid";
             js "Warning"]
  /\ List.length (AnalysisView.csv_rows sample_themes sample_points) = 4.
Proof.
  split; [|split].
  - exact (proj1 (proj2 (proj2 (proj2 (csv_rows_shape sample_themes sample_points))))
             [] _ _ [sample_excerpt_1] sample_excerpt_2 [] eq_refl eq_refl).
  - exact (proj2 (proj2 (proj2 (proj2 (csv_rows_shape sample_themes sample_points))))
             [] _ [] [] sample_excerpt_3 [] eq_refl eq_refl).
  - exact (proj1 (csv_rows_shape sample_themes sample_points)).
Defined.

(** X22: in the excerpt written to the CSV every double quote of the
    text is doubled where it stands and every other character is kept: the
    text about a character is written as what is before, the character
    (twice if it is a double quote) and what is after; a reader of CSV,
    for whom two double quotes in a row stand for one and a double quote
    alone ends the cell, reads the text back from it; the written excerpt
    has twice the quotes of the text, and one more character for each of
    them. *)
Theorem escape_quotes_doubles :
  (forall a c b,
      AnalysisView.escape_quotes (a ++ c :: b)
      = AnalysisView.escape_quotes a
        ++ (if N.eqb c dquote then [dquote; dquote] else [c])
        ++ AnalysisView.escape_quotes b)
  /\ (forall text, csv_unescape (AnalysisView.escape_quotes text) = Some text)
  /\ (forall text, quoteCount (AnalysisView.escape_quotes text) = 2 * quoteCount text)
  /\ (forall text,
         List.length (AnalysisView.escape_quotes text)
         = List.length text + quoteCount text).
Proof.
  split; [|split; [|split]].
  - intros a c b. unfold AnalysisView.escape_quotes. rewrite flat_map_app. reflexivity.
  - induction text as [|c t IH]; [reflexivity|].
    unfold AnalysisView.escape_quotes in *. simpl flat_map.
    destruct (N.eqb_spec c dquote) as [->|Hc].
    + cbn [app csv_unescape]. rewrite N.eqb_refl, IH. reflexivity.
    + cbn [app csv_unescape]. apply N.eqb_neq in Hc. rewrite Hc, IH. reflexivity.
  - induction text as [|c t IH]; [reflexivity|].
    unfold AnalysisView.escape_quotes in *. simpl flat_map.
    rewrite quoteCount_app, IH.
    change (c :: t) with ([c] ++ t). rewrite (quoteCount_app [c] t).
    destruct (N.eqb_spec c dquote) as [->|Hc].
    + change (quoteCount [dquote; dquote]) with 2.
      change (quoteCount [dquote]) with 1. lia.
    + assert (E : quoteCount [c] = 0).
      { unfold quoteCount. cbn [filter].
        destruct (N.eqb_spec dquote c); [congruence | reflexivity]. }
      cbv iota. cbv delta [char] in *. rewrite E. lia.
  - induction text as [|c t IH]; [reflexivity|].
    unfold AnalysisView.escape_quotes in *. simpl flat_map.
    rewrite length_app, IH.
    change (c :: t) with ([c] ++ t). rewrite (quoteCount_app [c] t).
    destruct (N.eqb_spec c dquote) as [->|Hc].
    + change (quoteCount [dquote]) with 1. simpl. lia.
    + assert (E : quoteCount [c] = 0).
      { unfold quoteCount. cbn [filter].
        destruct (N.eqb_spec dquote c); [congruence | reflexivity]. }
      cbv delta [char] in *. rewrite E. simpl. lia.
Qed.

(** Witness for [escape_quotes_doubles]: a text with a quoted word is
    written with four more quotes, and read back. *)
Lemma escape_quotes_doubles_witness :
  AnalysisView.escape_quotes (js "say 'hi'") = js "say ''hi''"
  /\ csv_unescape (js "say ''hi''") = Some (js "say 'hi'")
  /\ csv_unescape (js "say 'hi'") = None.
Proof.
  split; [reflexivity|]. split; [|reflexivity].
  exact (proj1 (proj2 escape_quotes_doubles) (js "say 'hi'")).
Defined.

(** ** The literal a text reads as *)

Section Reading.

(** What the parser returns is what the text reads as, from left to
    right. *)
Lemma parse_value_reads (fuel : nat) :
  (forall s v r, parse_value fuel s = Ok v r -> reads s v r)
  /\ (forall acc s v r, parse_elements fuel acc s = Ok v r ->
        exists vs, reads_elements s vs r /\ v = JArray (rev acc ++ vs))
  /\ (forall acc s v r, parse_members fuel acc s = Ok v r ->
        exists ms, reads_members s ms r /\ v = JObject (rev acc ++ ms)).
Proof.
  induction fuel as [|fuel (IHv & IHe & IHm)].
  { repeat split; intros; discriminate. }
  split; [|split].
  - intros s v r H. cbn [parse_value] in H.
    destruct s as [|c t]; [discriminate|].
    destruct (N.eqb_spec c lbrace) as [->|Hb].
    { destruct (skip_ws t) as [|c' r'] eqn:E; [discriminate|].
      destruct (N.eqb_spec c' rbrace) as [->|].
      - inversion H; subst. now apply reads_empty_object.
      - apply IHm in H as (ms & Hms & ->). apply reads_object. now rewrite E. }
    destruct (N.eqb_spec c lbracket) as [->|Hk].
    { destruct (skip_ws t) as [|c' r'] eqn:E; [discriminate|].
      destruct (N.eqb_spec c' rbracket) as [->|].
      - inversion H; subst. now apply reads_empty_array.
      - apply IHe in H as (vs & Hvs & ->). apply reads_array. now rewrite E. }
    destruct (N.eqb_spec c dquote) as [->|Hq].
    { destruct (parse_chars t []) as [[str r']|] eqn:E; [|discriminate].
      inversion H; subst. now apply reads_string. }
    destruct (N.eqb c 116).
    { destruct (expect (js "true") (c :: t)) as [r'|] eqn:E; [|discriminate].
      inversion H; subst. now apply reads_true. }
    destruct (N.eqb c 102).
    { destruct (expect (js "false") (c :: t)) as [r'|] eqn:E; [|discriminate].
      inversion H; subst. now apply reads_false. }
    destruct (N.eqb c 110).
    { destruct (expect (js "null") (c :: t)) as [r'|] eqn:E; [|discriminate].
      inversion H; subst. now apply reads_null. }
    destruct (parse_number (c :: t)) as [[n r']|] eqn:E; [|discriminate].
    inversion H; subst. now apply reads_number.
  - intros acc s v r H. cbn [parse_elements] in H.
    destruct (parse_value fuel s) as [v1 r1| |] eqn:Ev; try discriminate.
    apply IHv in Ev.
    destruct (skip_ws r1) as [|c r'] eqn:E; [discriminate|].
    destruct (N.eqb_spec c comma) as [->|].
    { apply IHe in H as (vs & Hvs & ->). exists (v1 :: vs). split.
      - eapply reads_next_element; eassumption.
      - simpl. now rewrite <- app_assoc. }
    destruct (N.eqb_spec c rbracket) as [->|]; [|discriminate].
    inversion H; subst. exists [v1]. split; [|reflexivity].
    eapply reads_last_element; eassumption.
  - intros acc s v r H. cbn [parse_members] in H.
    destruct s as [|q t]; [discriminate|].
    destruct (N.eqb_spec q dquote) as [->|]; [|discriminate].
    destruct (parse_chars t []) as [[k r1]|] eqn:Ek; [|discriminate].
    destruct (skip_ws r1) as [|c1 r2] eqn:E1; [discriminate|].
    destruct (N.eqb_spec c1 colon) as [->|]; [|discriminate].
    destruct (parse_value fuel (skip_ws r2)) as [v1 r3| |] eqn:Ev; try discriminate.
    apply IHv in Ev.
    destruct (skip_ws r3) as [|c3 r4] eqn:E3; [discriminate|].
    destruct (N.eqb_spec c3 comma) as [->|].
    { apply IHm in H as (ms & Hms & ->). exists ((k, v1) :: ms). split.
      - eapply reads_next_member; eassumption.
      - simpl. now rewrite <- app_assoc. }
    destruct (N.eqb_spec c3 rbrace) as [->|]; [|discriminate].
    inversion H; subst. exists [(k, v1)]. split; [|reflexivity].
    eapply reads_last_member; eassumption.
Qed.

Lemma parse_text_reads (text : jsstring) (lit : value) :
  parse_text text = Some lit -> reads_text text lit.
Proof.
  unfold parse_text. intros H.
  destruct (parse_value (2 * List.length text + 1) (skip_ws text)) as [v r| |] eqn:E;
    try discriminate.
  destruct (skip_ws r) eqn:Er; [|discriminate]. inversion H; subst.
  exists r. split; [|exact Er]. now apply (proj1 (parse_value_reads _)) in E.
Qed.

End Reading.

(** ** A text reads as one literal at most *)

Scheme reads_min := Minimality for reads Sort Prop
  with reads_elements_min := Minimality for reads_elements Sort Prop
  with reads_members_min := Minimality for reads_members Sort Prop.
Combined Scheme reads_mutual from reads_min, reads_elements_min, reads_members_min.

Ltac clash :=
  repeat match goal with
         | H : expect _ (_ :: _) = Some _ |- _ => cbn in H; try discriminate H
         | H : parse_number (_ :: _) = Some _ |- _ => cbn in H; try discriminate H
         end.

Ltac word_clash :=
  match goal with
  | H : expect _ ?s = Some _ |- _ =>
      apply expect_prefix in H; cbn in H; subst s; clash
  end.

Ltac same_rest Hr :=
  match goal with
  | H : skip_ws _ = _ |- _ =>
      lazymatch H with
      | Hr => fail
      | _ => rewrite Hr in H; first [discriminate H | injection H as <-]
      end
  end.

Lemma reads_no_closer (s : jsstring) (v : value) (r : jsstring) :
  reads (rbracket :: s) v r -> False.
Proof.
  intros H; inversion H; subst; clash.
Qed.

Lemma reads_deterministic :
  (forall s v r, reads s v r -> forall v' r', reads s v' r' -> v = v' /\ r = r')
  /\ (forall s vs r, reads_elements s vs r ->
        forall vs' r', reads_elements s vs' r' -> vs = vs' /\ r = r')
  /\ (forall s ms r, reads_members s ms r ->
        forall ms' r', reads_members s ms' r' -> ms = ms' /\ r = r').
Proof.
  apply reads_mutual.
  - intros body str r Hs v' r' H2. inversion H2; subst; clash.
    split; congruence.
  - intros s r Hs v' r' H2. word_clash. inversion H2; subst; clash.
    split; congruence.
  - intros s r Hs v' r' H2. word_clash. inversion H2; subst; clash.
    split; congruence.
  - intros s r Hs v' r' H2. word_clash. inversion H2; subst; clash.
    split; congruence.
  - intros s n r Hs v' r' H2. inversion H2; subst; clash; try word_clash.
    split; congruence.
  - intros s r Hs v' r' H2. inversion H2; subst; clash.
    + split; congruence.
    + exfalso. rewrite Hs in *.
      match goal with H : reads_elements _ _ _ |- _ => inversion H; subst end;
        match goal with H : reads (rbracket :: _) _ _ |- _ =>
          exact (reads_no_closer _ _ _ H) end.
  - intros s vs r Hs IH v' r' H2. inversion H2; subst; clash.
    2: clear Hs.
    + exfalso. match goal with H : skip_ws _ = _ |- _ => rewrite H in Hs end.
      inversion Hs; subst;
        match goal with H : reads (rbracket :: _) _ _ |- _ =>
          exact (reads_no_closer _ _ _ H) end.
    + match goal with H : reads_elements _ _ _ |- _ => apply IH in H as [-> ->] end.
      now split.
  - intros s r Hs v' r' H2. inversion H2; subst; clash.
    + split; congruence.
    + exfalso. rewrite Hs in *.
      match goal with H : reads_members _ _ _ |- _ => inversion H end.
  - intros s ms r Hs IH v' r' H2. inversion H2; subst; clash.
    2: clear Hs.
    + exfalso. match goal with H : skip_ws _ = _ |- _ => rewrite H in Hs end.
      inversion Hs.
    + match goal with H : reads_members _ _ _ |- _ => apply IH in H as [-> ->] end.
      now split.
  - intros s v r1 r Hv IH Hr vs' r' H2. clear Hv. inversion H2; subst;
      match goal with H : reads _ _ _ |- _ => apply IH in H as [<- <-] end;
      same_rest Hr. now split.
  - intros s v r1 r2 vs r Hv IHv Hr1 Hvs IHvs vs' r' H2. clear Hv Hvs.
    inversion H2; subst;
      match goal with H : reads _ _ _ |- _ => apply IHv in H as [<- <-] end;
      same_rest Hr1.
    match goal with H : reads_elements _ _ _ |- _ => apply IHvs in H as [<- <-] end.
    now split.
  - intros body k r1 r2 v r3 r Hk Hr1 Hv IHv Hr3 ms' r' H2. clear Hv.
    inversion H2; subst;
      match goal with H : parse_chars _ _ = _ |- _ =>
        rewrite Hk in H; injection H as <- <- end;
      same_rest Hr1;
      match goal with H : reads _ _ _ |- _ => apply IHv in H as [<- <-] end;
      same_rest Hr3. now split.
  - intros body k r1 r2 v r3 r4 ms r Hk Hr1 Hv IHv Hr3 Hms IHms ms' r' H2.
    clear Hv Hms. inversion H2; subst;
      match goal with H : parse_chars _ _ = _ |- _ =>
        rewrite Hk in H; injection H as <- <- end;
      same_rest Hr1;
      match goal with H : reads _ _ _ |- _ => apply IHv in H as [<- <-] end;
      same_rest Hr3.
    match goal with H : reads_members _ _ _ |- _ => apply IHms in H as [<- <-] end.
    now split.
Qed.

Lemma reads_text_deterministic (text : jsstring) (lit lit' : value) :
  reads_text text lit -> reads_text text lit' -> lit = lit'.
Proof.
  intros (r & H & _) (r' & H' & _).
  exact (proj1 (proj1 reads_deterministic _ _ _ H _ _ H')).
Qed.

(** ** Array indices *)

Section IndexKeys.

Lemma digits_all (s : jsstring) :
  forall acc c n k, digits s acc c = (n, k, []) -> forallb is_digit s = true.
Proof.
  induction s as [|d s IH]; intros acc c n k H; [reflexivity|].
  simpl in H. simpl. destruct (is_digit d); [|discriminate H].
  simpl. now apply IH in H.
Qed.

(** The digits of a text are worth a number below the power of ten of its
    length, whatever they are added to. *)
Lemma digits_value (s : jsstring) :
  forallb is_digit s = true ->
  exists n0, (n0 < 10 ^ N.of_nat (List.length s))%N
    /\ forall acc c,
         digits s acc c
         = ((acc * 10 ^ N.of_nat (List.length s) + n0)%N, c + List.length s, []).
Proof.
  induction s as [|d s IH]; intros H.
  - exists 0%N. split; [reflexivity|]. intros acc c. simpl.
    now rewrite N.mul_1_r, N.add_0_r, Nat.add_0_r.
  - simpl in H. apply andb_true_iff in H as [Hd Hs].
    destruct (IH Hs) as (n0 & Hn0 & Hdig).
    exists ((d - 48) * 10 ^ N.of_nat (List.length s) + n0)%N.
    assert (Hpow : (10 ^ N.of_nat (List.length (d :: s))
                    = 10 * 10 ^ N.of_nat (List.length s))%N).
    { simpl List.length. rewrite Nat2N.inj_succ. apply N.pow_succ_r'. }
    unfold is_digit in Hd. apply andb_true_iff in Hd as [H1 H2].
    apply N.leb_le in H1, H2. split.
    + rewrite Hpow. nia.
    + intros acc c. simpl digits.
      replace (is_digit d) with true
        by (symmetry; unfold is_digit; apply andb_true_iff; split; now apply N.leb_le).
      rewrite Hdig, Hpow.
      replace (S c + List.length s) with (c + List.length (d :: s)) by (simpl; lia).
      f_equal. f_equal. nia.
Qed.

Lemma same_length_same_digits (s1 : jsstring) :
  forall s2 n k1 k2,
    List.length s1 = List.length s2 ->
    digits s1 0 0 = (n, k1, []) -> digits s2 0 0 = (n, k2, []) -> s1 = s2.
Proof.
  induction s1 as [|d1 s1 IH]; intros [|d2 s2] n k1 k2 Hlen H1 H2;
    try discriminate Hlen; [reflexivity|].
  simpl in Hlen. injection Hlen as Hlen.
  pose proof (digits_all _ _ _ _ _ H1) as A1.
  pose proof (digits_all _ _ _ _ _ H2) as A2.
  simpl in A1, A2. apply andb_true_iff in A1 as [D1 A1], A2 as [D2 A2].
  destruct (digits_value s1 A1) as (a & Ha & E1).
  destruct (digits_value s2 A2) as (b & Hb & E2).
  simpl in H1, H2. rewrite D1 in H1. rewrite D2 in H2.
  rewrite E1 in H1. rewrite E2 in H2. rewrite <- Hlen in *.
  inversion H1 as [[V1 K1]]. inversion H2 as [[V2 K2]].
  unfold is_digit in D1, D2.
  apply andb_true_iff in D1 as [L1 U1], D2 as [L2 U2].
  apply N.leb_le in L1, U1, L2, U2.
  set (P := (10 ^ N.of_nat (List.length s1))%N) in *.
  assert (Hd : d1 = d2) by nia. subst d2.
  f_equal. apply (IH s2 a (0 + List.length s1) (0 + List.length s1) Hlen).
  - rewrite E1. reflexivity.
  - rewrite E2. replace b with a by lia. reflexivity.
Qed.

Lemma array_index_digits (k : jsstring) (i : N) :
  array_index k = Some i ->
  exists d t,
    k = d :: t /\ is_digit d = true
    /\ (t <> [] -> (49 <= d)%N)
    /\ forallb is_digit t = true
    /\ digits k 0 0 = (i, List.length k, []).
Proof.
  unfold array_index. destruct k as [|d t]; [discriminate|].
  destruct (N.eqb_spec d 48) as [->|Hd].
  - destruct t; [|discriminate]. intros H. inversion H; subst.
    exists 48%N, []. repeat split; try reflexivity. congruence.
  - destruct (digits (d :: t) 0 0) as [[n c] r] eqn:E.
    destruct r; [|discriminate].
    destruct (N.ltb n 4294967295); [|discriminate]. intros H. inversion H; subst.
    pose proof (digits_all _ _ _ _ _ E) as A. simpl in A.
    apply andb_true_iff in A as [D A].
    exists d, t. repeat split; try assumption.
    + intros _. unfold is_digit in D. apply andb_true_iff in D as [L _].
      apply N.leb_le in L. lia.
    + destruct (digits_value (d :: t)) as (n0 & _ & Hv).
      { simpl. now rewrite D, A. }
      rewrite Hv in E. injection E as _ Hc. rewrite <- Hc. reflexivity.
Qed.

Lemma canonical_bounds (d : char) (t : jsstring) (n : N) (c : nat) :
  (49 <= d)%N -> digits (d :: t) 0 0 = (n, c, []) ->
  (10 ^ N.of_nat (List.length t) <= n < 10 ^ N.of_nat (S (List.length t)))%N.
Proof.
  intros Hd H. pose proof (digits_all _ _ _ _ _ H) as A. simpl in A.
  apply andb_true_iff in A as [D A].
  destruct (digits_value t A) as (a & Ha & E).
  simpl in H. rewrite D, E in H. inversion H as [[V K]].
  unfold is_digit in D. apply andb_true_iff in D as [L U]. apply N.leb_le in L, U.
  rewrite Nat2N.inj_succ, N.pow_succ_r'. nia.
Qed.

(** Two keys with the same array index are the same key. *)
Lemma array_index_injective (k1 k2 : jsstring) (i : N) :
  array_index k1 = Some i -> array_index k2 = Some i -> k1 = k2.
Proof.
  intros H1 H2.
  destruct (array_index_digits _ _ H1) as (d1 & t1 & -> & D1 & C1 & A1 & E1).
  destruct (array_index_digits _ _ H2) as (d2 & t2 & -> & D2 & C2 & A2 & E2).
  assert (Hlen : List.length t1 = List.length t2).
  { destruct t1 as [|x1 t1], t2 as [|x2 t2]; [reflexivity| | |].
    - exfalso. assert (H49 : (49 <= d2)%N) by (apply C2; discriminate).
      pose proof (canonical_bounds _ _ _ _ H49 E2) as [B _].
      simpl in E1. rewrite D1 in E1. injection E1 as V.
      unfold is_digit in D1. apply andb_true_iff in D1 as [L U].
      apply N.leb_le in L, U.
      assert (10 ^ 1 <= 10 ^ N.of_nat (List.length (x2 :: t2)))%N
        by (apply N.pow_le_mono_r; [lia | simpl; lia]).
      change (10 ^ 1)%N with 10%N in *. lia.
    - exfalso. assert (H49 : (49 <= d1)%N) by (apply C1; discriminate).
      pose proof (canonical_bounds _ _ _ _ H49 E1) as [B _].
      simpl in E2. rewrite D2 in E2. injection E2 as V.
      unfold is_digit in D2. apply andb_true_iff in D2 as [L U].
      apply N.leb_le in L, U.
      assert (10 ^ 1 <= 10 ^ N.of_nat (List.length (x1 :: t1)))%N
        by (apply N.pow_le_mono_r; [lia | simpl; lia]).
      change (10 ^ 1)%N with 10%N in *. lia.
    - assert (H1' : (49 <= d1)%N) by (apply C1; discriminate).
      assert (H2' : (49 <= d2)%N) by (apply C2; discriminate).
      pose proof (canonical_bounds _ _ _ _ H1' E1) as [B1 U1].
      pose proof (canonical_bounds _ _ _ _ H2' E2) as [B2 U2].
      destruct (Nat.lt_trichotomy (List.length (x1 :: t1)) (List.length (x2 :: t2)))
        as [Hlt | [Heq | Hgt]]; [|exact Heq|]; exfalso.
      + assert (10 ^ N.of_nat (S (List.length (x1 :: t1)))
                <= 10 ^ N.of_nat (List.length (x2 :: t2)))%N
          by (apply N.pow_le_mono_r; lia). lia.
      + assert (10 ^ N.of_nat (S (List.length (x2 :: t2)))
                <= 10 ^ N.of_nat (List.length (x1 :: t1)))%N
          by (apply N.pow_le_mono_r; lia). lia. }
  apply (same_length_same_digits (d1 :: t1) (d2 :: t2) i
           (List.length (d1 :: t1)) (List.length (d2 :: t2)));
    [simpl; now rewrite Hlen | exact E1 | exact E2].
Qed.

End IndexKeys.

(** ** Objects: which keys, in which order, with which values *)

Section ObjectOrder.

Lemma existsb_string_eqb (k : jsstring) (l : list jsstring) :
  existsb (string_eqb k) l = true <-> In k l.
Proof.
  rewrite existsb_exists. split.
  - intros (x & Hx & E). apply string_eqb_eq in E. now subst.
  - intros H. exists k. split; [exact H | apply string_eqb_refl].
Qed.

Lemma first_occurrences_snoc (l : list jsstring) (k : jsstring) :
  first_occurrences (l ++ [k])
  = if existsb (string_eqb k) (first_occurrences l) then first_occurrences l
    else first_occurrences l ++ [k].
Proof. unfold first_occurrences. now rewrite fold_left_app. Qed.

Lemma first_occurrences_In (l : list jsstring) (k : jsstring) :
  In k (first_occurrences l) <-> In k l.
Proof.
  induction l as [|x l IH] using rev_ind; [reflexivity|].
  rewrite first_occurrences_snoc, in_app_iff. simpl.
  destruct (existsb (string_eqb x) (first_occurrences l)) eqn:E.
  - apply existsb_string_eqb in E. rewrite IH. split; [tauto|].
    intros [H|[H|[]]]; [exact H|]. subst. now apply IH.
  - rewrite in_app_iff, IH. simpl. tauto.
Qed.

(** Keys written once each are listed as written. *)
Lemma first_occurrences_NoDup (l : list jsstring) :
  NoDup l -> first_occurrences l = l.
Proof.
  induction l as [|x l IH] using rev_ind; [reflexivity|]. intros H.
  apply NoDup_remove in H as [H1 H2]. rewrite app_nil_r in H1, H2.
  rewrite first_occurrences_snoc, (IH H1).
  destruct (existsb (string_eqb x) l) eqn:E; [|reflexivity].
  apply existsb_string_eqb in E. contradiction.
Qed.

Lemma distinct_NoDup (ks : list jsstring) : distinct ks = true -> NoDup ks.
Proof.
  induction ks as [|k ks IH]; simpl; intros H; [constructor|].
  apply andb_true_iff in H as [H1 H2]. constructor; [|now apply IH].
  intros Hin. apply negb_true_iff in H1.
  assert (E : existsb (fun k' => string_eqb k' k) ks = true).
  { apply existsb_exists. exists k. split; [exact Hin | apply string_eqb_refl]. }
  congruence.
Qed.

Lemma no_index_filter (ks : list jsstring) :
  no_index ks = true -> filter (fun k => negb (is_index k)) ks = ks.
Proof.
  unfold no_index, is_index. induction ks as [|k ks IH]; simpl; intros H; [reflexivity|].
  apply andb_true_iff in H as [H1 H2].
  destruct (array_index k); [discriminate|]. simpl. now rewrite IH.
Qed.

Lemma no_index_In (ks : list jsstring) (k : jsstring) :
  no_index ks = true -> In k ks -> is_index k = false.
Proof.
  unfold no_index, is_index. intros H Hin.
  rewrite forallb_forall in H. specialize (H k Hin).
  now destruct (array_index k).
Qed.

Lemma is_index_Some (k : jsstring) (i : N) : array_index k = Some i -> is_index k = true.
Proof. unfold is_index. now intros ->. Qed.

Lemma index_of_Some (k : jsstring) (i : N) : array_index k = Some i -> index_of k = i.
Proof. unfold index_of. now intros ->. Qed.

(** Where a new array index goes among the keys: into the ascending
    indices, before the other keys. *)
Lemma insert_index_keys (i : N) (k : jsstring) (v : value) (others : list jsstring) :
  array_index k = Some i ->
  (forall x, In x others -> is_index x = false) ->
  forall indices props,
    List.map fst props = indices ++ others ->
    forallb is_index indices = true ->
    ascending_indices indices = true ->
    ~ In k indices ->
    exists indices',
      List.map fst (insert_index i k v props) = indices' ++ others
      /\ forallb is_index indices' = true
      /\ ascending_indices indices' = true
      /\ (hd_error indices' = Some k \/ hd_error indices' = hd_error indices).
Proof.
  intros Hk Hothers. induction indices as [|a indices IH]; intros props Hkeys Hall Hasc Hnew.
  - exists [k]. simpl in Hkeys.
    assert (Hins : List.map fst (insert_index i k v props) = k :: others).
    { destruct props as [|[k' v'] rest]; simpl in *; [now subst|].
      assert (Hk' : is_index k' = false) by (apply Hothers; rewrite <- Hkeys; now left).
      unfold is_index in Hk'. destruct (array_index k'); [discriminate|].
      simpl. now rewrite Hkeys. }
    rewrite Hins. simpl. rewrite (is_index_Some _ _ Hk). auto.
  - destruct props as [|[k' v'] rest]; [discriminate|].
    simpl in Hkeys. injection Hkeys as -> Hrest.
    simpl in Hall. apply andb_true_iff in Hall as [Ha Hall].
    unfold is_index in Ha. destruct (array_index a) as [j|] eqn:Ej; [clear Ha|discriminate].
    simpl insert_index. rewrite Ej. destruct (N.ltb j i) eqn:Hji.
    + destruct (IH rest Hrest Hall) as (ind' & Hins & Hall' & Hasc' & Hhd).
      { simpl in Hasc. destruct indices; [reflexivity|].
        now apply andb_true_iff in Hasc as [_ Hasc]. }
      { intros Hin. apply Hnew. now right. }
      exists (a :: ind'). simpl. rewrite Hins, (is_index_Some _ _ Ej), Hall'.
      repeat split; [|now right].
      destruct ind' as [|b ind']; [reflexivity|].
      apply andb_true_iff. split; [|exact Hasc'].
      rewrite (index_of_Some _ _ Ej). destruct Hhd as [Hhd|Hhd].
      * simpl in Hhd. injection Hhd as ->. now rewrite (index_of_Some _ _ Hk).
      * destruct indices as [|b' indices]; [discriminate|].
        simpl in Hhd. injection Hhd as ->. simpl in Hasc.
        apply andb_true_iff in Hasc as [Hasc _].
        now rewrite (index_of_Some _ _ Ej) in Hasc.
    + exists (k :: a :: indices). simpl. rewrite Hrest.
      rewrite (is_index_Some _ _ Hk), (is_index_Some _ _ Ej), Hall.
      repeat split; [|now left].
      apply andb_true_iff. split; [|exact Hasc].
      rewrite (index_of_Some _ _ Hk), (index_of_Some _ _ Ej).
      apply N.ltb_lt. apply N.ltb_ge in Hji.
      assert (Hne : j <> i).
      { intros ->. apply Hnew. left. now apply (array_index_injective a k i). }
      lia.
Qed.

(** Defining one more member keeps the keys in the order of a script
    object. *)
Lemma key_order_define (written : list jsstring) (props : list (jsstring * value))
      (k : jsstring) (v : value) :
  key_order written (List.map fst props) ->
  key_order (written ++ [k]) (List.map fst (CreateDataProperty props k v)).
Proof.
  intros (indices & others & Hkeys & Hall & Hasc & Hothers).
  assert (Hplain : forall x, In x others -> is_index x = false).
  { intros x Hx. rewrite Hothers in Hx.
    apply (proj1 (first_occurrences_In _ _)) in Hx.
    apply filter_In in Hx as [_ Hx]. now apply negb_true_iff in Hx. }
  assert (Hidx : forall x, In x indices -> is_index x = true).
  { intros x Hx. rewrite forallb_forall in Hall. now apply Hall. }
  unfold CreateDataProperty. destruct (has_key k props) eqn:Hhas.
  - rewrite set_value_keys. exists indices, others.
    repeat split; try assumption.
    rewrite filter_app. simpl. destruct (is_index k) eqn:Ek; simpl.
    + now rewrite app_nil_r.
    + rewrite first_occurrences_snoc, <- Hothers.
      assert (Hin : In k others).
      { apply has_key_In in Hhas. rewrite Hkeys in Hhas.
        apply in_app_iff in Hhas as [Hin|Hin]; [|exact Hin].
        apply Hidx in Hin. congruence. }
      apply existsb_string_eqb in Hin. now rewrite Hin.
  - assert (Hnew : ~ In k (List.map fst props)).
    { intros Hin. apply has_key_In in Hin. congruence. }
    destruct (array_index k) as [i|] eqn:Ek.
    + destruct (insert_index_keys i k v others Ek Hplain indices props Hkeys Hall Hasc)
        as (indices' & Hins & Hall' & Hasc' & _).
      { intros Hin. apply Hnew. rewrite Hkeys. apply in_app_iff. now left. }
      exists indices', others. repeat split; try assumption.
      rewrite filter_app. simpl. rewrite (is_index_Some _ _ Ek). simpl.
      now rewrite app_nil_r.
    + exists indices, (others ++ [k]). rewrite map_app, Hkeys, <- app_assoc.
      repeat split; try assumption.
      rewrite filter_app. simpl. unfold is_index at 2. rewrite Ek. simpl.
      rewrite first_occurrences_snoc, <- Hothers.
      destruct (existsb (string_eqb k) others) eqn:E; [|reflexivity].
      apply existsb_string_eqb in E. exfalso. apply Hnew. rewrite Hkeys.
      apply in_app_iff. now right.
Qed.

Lemma object_of_define (kvs props : list (jsstring * value)) (k : jsstring) (v : value) :
  object_of kvs props ->
  object_of (kvs ++ [(k, v)]) (CreateDataProperty props k v).
Proof.
  intros (Hnd & Hget & Hord). split; [|split].
  - now apply CreateDataProperty_NoDup.
  - intros k'. rewrite get_CreateDataProperty, rev_app_distr. simpl.
    now rewrite Hget.
  - rewrite map_app. simpl. now apply key_order_define.
Qed.

(** The members defined one after the other make the object of these
    members. *)
Lemma object_of_members (kvs : list (jsstring * value)) :
  object_of kvs
    (fold_left (fun props kv => CreateDataProperty props (fst kv) (snd kv)) kvs []).
Proof.
  induction kvs as [|[k v] kvs IH] using rev_ind.
  - split; [constructor|]. split; [reflexivity|].
    exists [], []. repeat split; reflexivity.
  - rewrite fold_left_app. simpl. now apply object_of_define.
Qed.

Lemma fold_left_map_members (f : value -> value) (ms : list (jsstring * value)) :
  forall acc,
    fold_left (fun props m => CreateDataProperty props (fst m) (f (snd m))) ms acc
    = fold_left (fun props kv => CreateDataProperty props (fst kv) (snd kv))
        (combine (List.map fst ms) (List.map f (List.map snd ms))) acc.
Proof.
  induction ms as [|m ms IH]; intros acc; simpl; [reflexivity|]. apply IH.
Qed.

(** What [JSON.parse] makes of a literal is what the script returns
    for it. *)
Lemma returned_evaluate (lit : value) : returned lit (evaluate lit).
Proof.
  induction lit as [| | | |l IH|ms IH] using value_nested_ind; try constructor.
  - reflexivity.
  - simpl. induction IH as [|x l Hx Hl IHl]; simpl; constructor; assumption.
  - cbn [evaluate]. rewrite fold_left_map_members.
    apply (returned_object ms (List.map evaluate (List.map snd ms))).
    + induction IH as [|x l Hx Hl IHl]; simpl; constructor; assumption.
    + apply object_of_members.
Qed.

Lemma get_Some_In (props : list (jsstring * value)) (k : jsstring) (v : value) :
  get props k = Some v -> In (k, v) props.
Proof.
  induction props as [|[k' v'] props IH]; simpl; [discriminate|].
  destruct (string_eqb k k') eqn:E.
  - apply string_eqb_eq in E. intros H. inversion H; subst. now left.
  - intros H. right. now apply IH.
Qed.

Lemma get_In (props : list (jsstring * value)) (k : jsstring) (v : value) :
  NoDup (List.map fst props) -> In (k, v) props -> get props k = Some v.
Proof.
  induction props as [|[k' v'] props IH]; simpl; intros Hnd Hin; [contradiction|].
  inversion Hnd as [|? ? Hnot Hrest]; subst.
  destruct Hin as [Hin|Hin].
  - inversion Hin; subst. now rewrite string_eqb_refl.
  - destruct (string_eqb k k') eqn:E; [|now apply IH].
    apply string_eqb_eq in E. subst k'. exfalso. apply Hnot.
    apply in_map_iff. now exists (k, v).
Qed.

(** With keys written once each, the last value of a key is its value. *)
Lemma get_rev (props : list (jsstring * value)) (k : jsstring) :
  NoDup (List.map fst props) -> get (rev props) k = get props k.
Proof.
  intros Hnd.
  assert (Hnd' : NoDup (List.map fst (rev props))).
  { rewrite map_rev. now apply NoDup_rev. }
  destruct (get props k) as [v|] eqn:E.
  - apply get_In; [exact Hnd'|]. apply in_rev. rewrite rev_involutive.
    now apply get_Some_In.
  - destruct (get (rev props) k) as [v|] eqn:E'; [|reflexivity].
    apply get_Some_In in E'. apply in_rev in E'.
    apply (get_In _ _ _ Hnd) in E'. congruence.
Qed.

(** Two objects with the same keys in the same order and the same value
    at every key are the same. *)
Lemma same_keys_same_values (ps : list (jsstring * value)) :
  forall qs,
    List.map fst ps = List.map fst qs ->
    NoDup (List.map fst qs) ->
    (forall k, get ps k = get qs k) ->
    ps = qs.
Proof.
  induction ps as [|[k v] ps IH]; intros [|[k' v'] qs] Hkeys Hnd Hget;
    try discriminate; [reflexivity|].
  simpl in Hkeys. injection Hkeys as <- Hkeys.
  inversion Hnd as [|? ? Hnot Hrest]; subst.
  pose proof (Hget k) as Hk. simpl in Hk. rewrite string_eqb_refl in Hk.
  injection Hk as <-. f_equal. apply IH; [exact Hkeys | exact Hrest|].
  intros k0. destruct (string_eqb k0 k) eqn:E.
  - apply string_eqb_eq in E. subst k0.
    rewrite !get_not_In; [reflexivity | exact Hnot | now rewrite Hkeys].
  - specialize (Hget k0). simpl in Hget. now rewrite E in Hget.
Qed.

Lemma combine_keys (ms : list (jsstring * value)) :
  forall vs : list value, List.length vs = List.length ms ->
    List.map fst (combine (List.map fst ms) vs) = List.map fst ms.
Proof.
  induction ms as [|m ms IH]; intros [|x vs] H; simpl in *; try discriminate;
    [reflexivity|]. f_equal. apply IH. now injection H.
Qed.

Lemma combine_members (ms : list (jsstring * value)) :
  forall vs, Forall2 returned (List.map snd ms) vs ->
    Forall2 (fun (m p : jsstring * value) => fst m = fst p /\ returned (snd m) (snd p))
      ms (combine (List.map fst ms) vs).
Proof.
  induction ms as [|m ms IH]; intros vs H; simpl in *.
  - inversion H; subst. constructor.
  - inversion H as [|? y ? vs' Hx Hrest]; subst. simpl. constructor; [|now apply IH].
    split; [reflexivity | exact Hx].
Qed.

(** An object whose members have distinct keys, none of them an array
    index, is made of these members as they come. *)
Lemma object_of_plain (kvs props : list (jsstring * value)) :
  object_of kvs props ->
  distinct (List.map fst kvs) = true ->
  no_index (List.map fst kvs) = true ->
  props = kvs.
Proof.
  intros (Hnd & Hget & indices & others & Hkeys & Hall & Hasc & Hothers) Hd Hn.
  apply distinct_NoDup in Hd.
  rewrite (no_index_filter _ Hn), (first_occurrences_NoDup _ Hd) in Hothers.
  assert (Hind : indices = []).
  { destruct indices as [|a indices]; [reflexivity|]. exfalso.
    simpl in Hall. apply andb_true_iff in Hall as [Ha _].
    assert (Hin : In a (List.map fst props)) by (rewrite Hkeys; now left).
    apply has_key_In, has_key_get_Some in Hin. rewrite Hget, get_rev in Hin by exact Hd.
    apply has_key_get_Some, has_key_In in Hin.
    apply (no_index_In _ _ Hn) in Hin. congruence. }
  subst indices. simpl in Hkeys. rewrite Hothers in Hkeys.
  apply same_keys_same_values; [exact Hkeys | exact Hd|].
  intros k. rewrite Hget. now apply get_rev.
Qed.

Lemma Forall2_reversed (A B : Type) (R : A -> B -> Prop) (l : list A) (l' : list B) :
  Forall2 R l l' -> Forall2 R (rev l) (rev l').
Proof.
  induction 1 as [|x y l l' Hxy Hl IH]; simpl; [constructor|].
  apply Forall2_app; [exact IH | now constructor].
Qed.

Lemma get_related (ms ps : list (jsstring * value)) :
  Forall2 (fun (m p : jsstring * value) => fst m = fst p /\ returned (snd m) (snd p)) ms ps ->
  forall k,
    match get ms k with
    | Some x => exists y, get ps k = Some y /\ returned x y
    | None => get ps k = None
    end.
Proof.
  induction 1 as [|[k1 x] [k2 y] ms ps [Hk Hv] Hrest IH]; intros k; simpl; [reflexivity|].
  simpl in Hk, Hv. subst k2. destruct (string_eqb k k1); [|apply IH].
  now exists y.
Qed.

End ObjectOrder.

(** ** Order of keys and elements in what [robustParseJSON] returns *)

Lemma robustParseJSON_parsed (text : jsstring) (v : value) :
  outcome (robustParseJSON text) = Return v ->
  exists lit, parse_text (parsed_text text) = Some lit /\ v = evaluate lit.
Proof.
  unfold robustParseJSON, parsed_text, JSON_parse.
  destruct (parse_text (trim text)) as [lit|] eqn:E1; cbv beta iota zeta.
  - intros H. inversion H. now exists lit.
  - destruct (parse_text (repaired (trim text))) as [lit|] eqn:E2; cbv beta iota zeta;
      intros H; inversion H. now exists lit.
Qed.

(** The numbers of the script are binary64: literals that round to the
    same binary64 are returned as the same number. *)
Example numbers_are_binary64 :
  to_binary64 (Number false 9007199254740993 0)
  = to_binary64 (Number false 9007199254740992 0)
  /\ to_binary64 (Number false 1 400) = B64_infinity false
  /\ to_binary64 (Number false 10 (-1)) = to_binary64 (Number false 1 0)
  /\ to_binary64 (Number true 0 0) = B64_zero true
  /\ to_binary64 (Number false 1 (-1)) = B64_finite false 7205759403792794 (-56).
Proof. repeat split; vm_compute; reflexivity. Qed.

(** C8, amended: when [robustParseJSON] returns, the text that was parsed
    (the trimmed text, or the repaired one) reads as one literal, and one
    only, in order of appearance, and the returned structure is the
    script value of that literal, numbers being binary64. An array has the elements of the
    literal, one for one, in their order of appearance. An object has
    pairwise distinct keys: the array indices among them come first, in
    ascending order, then the other keys in the order of their first
    appearance, and the value of a key is that of its last member. In any
    object whose keys are written once each and none is an array index,
    the properties are the members one for one, in their order of
    appearance. *)
Theorem returned_order_follows_input :
  (forall text v,
      outcome (robustParseJSON text) = Return v ->
      exists lit,
        reads_text (parsed_text text) lit
        /\ (forall lit', reads_text (parsed_text text) lit' -> lit' = lit)
        /\ returned lit v)
  /\ (forall l w,
         returned (JArray l) w ->
         exists l', w = JArray l' /\ Forall2 returned l l')
  /\ (forall ms w,
         returned (JObject ms) w ->
         exists ps,
           w = JObject ps
           /\ NoDup (List.map fst ps)
           /\ key_order (List.map fst ms) (List.map fst ps)
           /\ forall k,
                match get (rev ms) k with
                | Some x => exists y, get ps k = Some y /\ returned x y
                | None => get ps k = None
                end)
  /\ (forall ms ps,
         returned (JObject ms) (JObject ps) ->
         distinct (List.map fst ms) = true ->
         no_index (List.map fst ms) = true ->
         Forall2 (fun (m p : jsstring * value) =>
                    fst m = fst p /\ returned (snd m) (snd p)) ms ps).
Proof.
  split; [|split; [|split]].
  - intros text v Hv.
    destruct (robustParseJSON_parsed text v Hv) as (lit & Hlit & ->).
    apply parse_text_reads in Hlit. exists lit.
    split; [exact Hlit|]. split; [|apply returned_evaluate].
    intros lit' Hlit'. exact (reads_text_deterministic _ _ _ Hlit' Hlit).
  - intros l w H. inversion H; subst. now eexists.
  - intros ms w H. inversion H as [| | | | |ms' vs ps Hvs Hobj]; subst.
    exists ps. destruct Hobj as (Hnd & Hget & Hord).
    assert (Hlen : List.length vs = List.length ms).
    { apply Forall2_length in Hvs. now rewrite length_map in Hvs. }
    rewrite (combine_keys ms vs Hlen) in Hord.
    repeat split; try assumption.
    intros k. rewrite Hget.
    apply get_related. apply Forall2_reversed. now apply combine_members.
  - intros ms ps H Hd Hn. inversion H as [| | | | |ms' vs ps' Hvs Hobj]; subst.
    assert (Hlen : List.length vs = List.length ms).
    { apply Forall2_length in Hvs. now rewrite length_map in Hvs. }
    rewrite (object_of_plain _ _ Hobj); [now apply combine_members | |];
      now rewrite (combine_keys ms vs Hlen).
Qed.

(** Witness for [returned_order_follows_input]: a cut object with three
    keys, an array and an inner object. *)
Lemma returned_order_follows_input_witness :
  outcome (robustParseJSON (js "{'z': 1, 'a': [3, 2], 'm': {'k': null"))
  = Return (JObject [(js "z", JNumber (Number false 1 0));
                     (js "a", JArray [JNumber (Number false 3 0);
                                      JNumber (Number false 2 0)]);
                     (js "m", JObject [(js "k", JNull)])])
  /\ exists lit,
       reads_text (parsed_text (js "{'z': 1, 'a': [3, 2], 'm': {'k': null")) lit
       /\ (forall lit',
             reads_text (parsed_text (js "{'z': 1, 'a': [3, 2], 'm': {'k': null")) lit'
             -> lit' = lit)
       /\ returned lit
            (JObject [(js "z", JNumber (Number false 1 0));
                      (js "a", JArray [JNumber (Number false 3 0);
                                       JNumber (Number false 2 0)]);
                      (js "m", JObject [(js "k", JNull)])]).
Proof.
  assert (E : outcome (robustParseJSON (js "{'z': 1, 'a': [3, 2], 'm': {'k': null"))
              = Return (JObject [(js "z", JNumber (Number false 1 0));
                                 (js "a", JArray [JNumber (Number false 3 0);
                                                  JNumber (Number false 2 0)]);
                                 (js "m", JObject [(js "k", JNull)])]))
    by (vm_compute; reflexivity).
  split; [exact E|].
  exact (proj1 returned_order_follows_input _ _ E).
Defined.
